(** * TinyUSDZ USDA reader: stage reconstruction pipeline

    A shallow embedding of [src/usda-reader.cc]: the reader facade
    [USDAReader::Impl], its parser callbacks, the PrimNode / PrimSpec
    intermediate stores and the reconstruction pass, followed by the
    properties of the specification that are settled against it.

    Conventions.
    - [int64_t] and [size_t] values are integers of [Z]; the casts that
      can wrap in the source ([int64_t(cidx)], [size_t(parentPrimIdx)] and,
      in the GeomSubset callback, [size_t(primIdx)]) are written out as
      [int64_of_size_t] and [size_t_of_int64].
    - [std::vector<T>] is [list T], indexed through [vector_at]; an access
      outside the vector is undefined behaviour in C++ and is [None] here.
    - [std::map<std::string, V>] is an association list kept in ascending
      key order ([StdMap]), because the source iterates over it.
    - [std::set<int64_t>] is [gset Z].
    - A recursive function of the source takes a recursion budget; running
      out of it is the outcome [Diverge]. *)

From stdpp Require Import base gmap sets list strings pretty.
From Stdlib Require Import ZArith Lia.

Set Warnings "-register-all,-clear-no-such-hyp".

Local Open Scope string_scope.
Local Open Scope list_scope.
Local Open Scope Z_scope.

(** ** Integer casts *)

Definition size_t_of_int64 (z : Z) : Z := z mod 2 ^ 64.
Definition int64_of_size_t (z : Z) : Z := (z + 2 ^ 63) mod 2 ^ 64 - 2 ^ 63.

(** ** std::vector *)

Definition vector_size {A} (v : list A) : Z := Z.of_nat (length v).

Definition vector_at {A} (v : list A) (i : Z) : option A :=
  if bool_decide (0 ≤ i < vector_size v) then v !! Z.to_nat i else None.

(** [v[i] = f(v[i])]: an in-place update of one slot. *)
Definition vector_update {A} (v : list A) (i : Z) (f : A → A)
  : option (list A) :=
  if bool_decide (0 ≤ i < vector_size v)
  then Some (alter f (Z.to_nat i) v) else None.

(** [v.resize(n)]: new slots are default-initialised. *)
Definition vector_resize {A} (dflt : A) (v : list A) (n : Z) : list A :=
  if bool_decide (vector_size v ≤ n)
  then v ++ replicate (Z.to_nat n - length v) dflt
  else take (Z.to_nat n) v.

(** ** std::map<std::string, V> *)

Module StdMap.

Definition t (V : Type) : Type := list (string * V).

Definition empty {V} : t V := [].

(** [m.emplace(k, v)]: inserts at the position of [k] in key order; an
    existing entry for [k] is kept. *)
Fixpoint emplace {V} (k : string) (v : V) (m : t V) : t V :=
  match m with
  | [] => [(k, v)]
  | (k', v') :: m' =>
      match String.compare k k' with
      | Lt => (k, v) :: m
      | Eq => m
      | Gt => (k', v') :: emplace k v m'
      end
  end.

(** [m.find(k)] *)
Fixpoint find {V} (k : string) (m : t V) : option V :=
  match m with
  | [] => None
  | (k', v') :: m' => if String.eqb k k' then Some v' else find k m'
  end.

(** The keys of a [std::map] are strictly ascending. *)
Fixpoint below (k : string) (ks : list string) : bool :=
  match ks with
  | [] => true
  | k' :: ks' =>
      match String.compare k k' with Lt => below k ks' | _ => false end
  end.

Fixpoint ascending (ks : list string) : bool :=
  match ks with
  | [] => true
  | k :: ks' => below k ks' && ascending ks'
  end.

Definition ok {V} (m : t V) : Prop := ascending (m.*1) = true.

End StdMap.

(** ** Data model

    The structures below are declared in headers that are not among the
    sources (prim-types.hh, value-types.hh, ascii-parser.hh, usdGeom.hh,
    tinyusdz.hh).  Each is modelled by the members and accessors that
    usda-reader.cc uses. *)

(** Modelled from the spec: the declaration specifier, "one of
    {Def, Over, Class}". *)
Inductive Specifier := Def | Over | Class.

(** Modelled from the spec: the list-edit qualifier of prim-types.hh, with
    the enumerators usda-reader.cc names ([Prepend], [ResetToExplicit]) and
    the others of the glossary. *)
Inductive ListEditQual := ResetToExplicit | Append | Add | Delete | Prepend.

Global Instance ListEditQual_eq_dec : EqDecision ListEditQual.
Proof. solve_decision. Defined.

(** Modelled from the spec: [Variability] of an attribute ("uniform token"
    in usda-reader.cc). *)
Inductive Variability := Varying | Uniform.

Global Instance Variability_eq_dec : EqDecision Variability.
Proof. solve_decision. Defined.

Module Kind.
(** Modelled from the spec: "kind ∈ {Subcomponent, Component, Model,
    Group, Assembly, SceneLibrary}". *)
Inductive t :=
  Subcomponent | Component | Model | Group | Assembly | SceneLibrary.
End Kind.

Module APIName.
(** The API names listed by [ApiSchemaHandler]. *)
Inductive t :=
| SkelBindingAPI
| MaterialBindingAPI
| Preliminary_PhysicsMaterialAPI
| Preliminary_PhysicsRigidBodyAPI
| Preliminary_PhysicsColliderAPI.
End APIName.

Module Path.
(** Modelled from the spec: [Path] of prim-types.hh, "carries three parsed
    sub-parts"; the record holds what the accessors called by
    usda-reader.cc return. *)
Record t := mk {
  is_valid : bool;
  is_absolute_path : bool;
  is_root_path : bool;
  prim_part : string;
  prop_part : string;
  full_path_name : string
}.
End Path.

(** Modelled from the spec: a [Reference] record, of which usda-reader.cc
    reads [asset_path] and [prim_path]. *)
Record Reference := mkReference {
  asset_path : string;
  prim_path : Path.t
}.

(** Modelled from the spec: a [Payload] record, of which usda-reader.cc
    writes [asset_path] and [_prim_path]. *)
Record Payload := mkPayload {
  payload_asset_path : string;
  _prim_path : Path.t
}.

(** Modelled from the spec: [MetaVariable], the "variant value" of a raw
    metadata entry.  [type_name()] and [type_id()] are kept apart from the
    held value, since usda-reader.cc tests them separately from
    [get_value<T>()]. *)
Inductive MetaVariable :=
| MkMetaVariable (ty_name : string) (ty_id : Z) (held : MetaValue)
with MetaValue :=
| held_bool (b : bool)
| held_string (s : string)                 (* std::string *)
| held_StringData (s : string)             (* value::StringData *)
| held_token (tok : string)                (* value::token *)
| held_token_array (toks : list string)    (* std::vector<value::token> *)
| held_string_array (ss : list string)     (* std::vector<std::string> *)
| held_dictionary (d : list (string * MetaVariable))  (* CustomDataType *)
| held_ValueBlock                          (* value::ValueBlock *)
| held_Path (p : Path.t)
| held_Path_array (ps : list Path.t)
| held_Reference (r : Reference)
| held_Reference_array (rs : list Reference)
| held_other.                              (* any other value type *)

Definition CustomDataType : Type := StdMap.t MetaVariable.

Module MetaVar.
Definition type_name (v : MetaVariable) : string :=
  let 'MkMetaVariable n _ _ := v in n.
Definition type_id (v : MetaVariable) : Z :=
  let 'MkMetaVariable _ i _ := v in i.
Definition held (v : MetaVariable) : MetaValue :=
  let 'MkMetaVariable _ _ h := v in h.

(** [var.get_value<T>()], one accessor per [T] used by the reader. *)
Definition get_bool v :=
  match held v with held_bool b => Some b | _ => None end.
Definition get_string v :=
  match held v with held_string s => Some s | _ => None end.
Definition get_StringData v :=
  match held v with held_StringData s => Some s | _ => None end.
Definition get_token v :=
  match held v with held_token s => Some s | _ => None end.
Definition get_token_array v :=
  match held v with held_token_array l => Some l | _ => None end.
Definition get_string_array v :=
  match held v with held_string_array l => Some l | _ => None end.
Definition get_dictionary v : option CustomDataType :=
  match held v with held_dictionary d => Some d | _ => None end.
Definition get_ValueBlock v :=
  match held v with held_ValueBlock => Some () | _ => None end.
Definition get_Path v :=
  match held v with held_Path p => Some p | _ => None end.
Definition get_Path_array v :=
  match held v with held_Path_array l => Some l | _ => None end.
Definition get_Reference v :=
  match held v with held_Reference r => Some r | _ => None end.
Definition get_Reference_array v :=
  match held v with held_Reference_array l => Some l | _ => None end.

(** [var.is_blocked()]: the value is the blocked marker. *)
Definition is_blocked v : bool :=
  match held v with held_ValueBlock => true | _ => false end.
End MetaVar.

(** Modelled from the spec: an attribute value as far as the GeomSubset
    callback looks at it. *)
Inductive AttrValue :=
| attr_token (tok : string)
| attr_int_array (l : list Z)
| attr_other.

(** Modelled from the spec: a typed attribute with the accessors that the
    GeomSubset callback calls ([type_name()], [variability()],
    [get_value<T>()]). *)
Record Attribute := mkAttribute {
  attr_type_name : string;
  attr_variability : Variability;
  attr_value : AttrValue
}.

(** Modelled from the spec: a [Property] is "either a typed attribute or a
    relationship". *)
Inductive Property :=
| Relationship
| Attr (a : Attribute).

Definition is_relationship (p : Property) : bool :=
  match p with Relationship => true | Attr _ => false end.

Definition PropertyMap : Type := StdMap.t Property.
Definition ReferenceList : Type := ListEditQual * list Reference.
Definition PrimMetaMap : Type := StdMap.t (ListEditQual * MetaVariable).

(** Modelled from the spec: [APISchemas], a "list of enumerated API names
    + instance name + list-edit qualifier". *)
Record APISchemas := mkAPISchemas {
  listOpQual : ListEditQual;
  names : list (APIName.t * string)
}.

Module PrimMeta.
(** Modelled from the spec: the recognised fields of [PrimMeta]; every
    field is optional and unset in a default-constructed value. *)
Record t := mk {
  active : option bool;
  hidden : option bool;
  kind : option Kind.t;
  sceneName : option string;
  displayName : option string;
  customData : option CustomDataType;
  assetInfo : option CustomDataType;
  variants : option (gmap string string);
  inherits : option (ListEditQual * list Path.t);
  specializes : option (ListEditQual * list Path.t);
  variantSets : option (ListEditQual * list string);
  apiSchemas : option APISchemas;
  references : option ReferenceList;
  payload : option (ListEditQual * list Payload);
  comment : option string
}.

Definition default : t :=
  mk None None None None None None None None None None None None None None
     None.

Definition set_active v (m : t) :=
  let 'mk _ b c d e f g h i j k l r p q := m in
  mk (Some v) b c d e f g h i j k l r p q.
Definition set_hidden v (m : t) :=
  let 'mk a _ c d e f g h i j k l r p q := m in
  mk a (Some v) c d e f g h i j k l r p q.
Definition set_kind v (m : t) :=
  let 'mk a b _ d e f g h i j k l r p q := m in
  mk a b (Some v) d e f g h i j k l r p q.
Definition set_sceneName v (m : t) :=
  let 'mk a b c _ e f g h i j k l r p q := m in
  mk a b c (Some v) e f g h i j k l r p q.
Definition set_displayName v (m : t) :=
  let 'mk a b c d _ f g h i j k l r p q := m in
  mk a b c d (Some v) f g h i j k l r p q.
Definition set_customData v (m : t) :=
  let 'mk a b c d e _ g h i j k l r p q := m in
  mk a b c d e (Some v) g h i j k l r p q.
Definition set_assetInfo v (m : t) :=
  let 'mk a b c d e f _ h i j k l r p q := m in
  mk a b c d e f (Some v) h i j k l r p q.
Definition set_variants v (m : t) :=
  let 'mk a b c d e f g _ i j k l r p q := m in
  mk a b c d e f g (Some v) i j k l r p q.
Definition set_inherits v (m : t) :=
  let 'mk a b c d e f g h _ j k l r p q := m in
  mk a b c d e f g h (Some v) j k l r p q.
Definition set_specializes v (m : t) :=
  let 'mk a b c d e f g h i _ k l r p q := m in
  mk a b c d e f g h i (Some v) k l r p q.
Definition set_variantSets v (m : t) :=
  let 'mk a b c d e f g h i j _ l r p q := m in
  mk a b c d e f g h i j (Some v) l r p q.
Definition set_apiSchemas v (m : t) :=
  let 'mk a b c d e f g h i j k _ r p q := m in
  mk a b c d e f g h i j k (Some v) r p q.
Definition set_references v (m : t) :=
  let 'mk a b c d e f g h i j k l _ p q := m in
  mk a b c d e f g h i j k l (Some v) p q.
Definition set_payload v (m : t) :=
  let 'mk a b c d e f g h i j k l r _ q := m in
  mk a b c d e f g h i j k l r (Some v) q.
Definition set_comment v (m : t) :=
  let 'mk a b c d e f g h i j k l r p _ := m in
  mk a b c d e f g h i j k l r p (Some v).
End PrimMeta.


(** The schema types for which usda-reader.cc defines [PrimTypeTraits]. *)
Inductive PrimType :=
| Model | Xform | GeomMesh | GeomPoints | GeomSphere | GeomCube | GeomCone
| GeomCapsule | GeomCylinder | GeomBasisCurves | GeomSubset | SphereLight
| DomeLight | DiskLight | DistantLight | CylinderLight | Material | Shader
| SkelRoot | Skeleton | SkelAnimation | BlendShape | GeomCamera | Scope
| GPrim.

Global Instance PrimType_eq_dec : EqDecision PrimType.
Proof. solve_decision. Defined.

Module TypedPrim.
(** Modelled from the spec: what every schema struct carries ("element
    name, specifier, PrimMeta, a property map"; "Model additionally stores
    the original unrecognized type name string").  The schema-specific
    attributes filled in by the per-schema reconstructor are kept with the
    other properties in [props]. *)
Record t := mk {
  name : string;
  spec : Specifier;
  meta : PrimMeta.t;
  prim_type_name : string;      (* a member of Model only *)
  props : PropertyMap
}.

Definition default : t := mk "" Def PrimMeta.default "" StdMap.empty.

Definition set_name v (p : t) := let 'mk _ b c d e := p in mk v b c d e.
Definition set_spec v (p : t) := let 'mk a _ c d e := p in mk a v c d e.
Definition set_meta v (p : t) := let 'mk a b _ d e := p in mk a b v d e.
Definition set_prim_type_name v (p : t) :=
  let 'mk a b c _ e := p in mk a b c v e.
End TypedPrim.

Module GeomSubsetData.
(** Modelled from the spec: the members of [GeomSubset] (usdGeom.hh) that
    its prim-construct callback writes. *)
Record t := mk {
  name : string;
  spec : Specifier;
  meta : PrimMeta.t;
  elementType : option string;
  familyType : option string;
  familyName : option string;
  indices : list Z
}.

Definition default : t := mk "" Def PrimMeta.default None None None [].

Definition set_name v (s : t) :=
  let 'mk _ b c d e f g := s in mk v b c d e f g.
Definition set_spec v (s : t) :=
  let 'mk a _ c d e f g := s in mk a v c d e f g.
Definition set_meta v (s : t) :=
  let 'mk a b _ d e f g := s in mk a b v d e f g.
Definition set_familyName v (s : t) :=
  let 'mk a b c d e _ g := s in mk a b c d e (Some v) g.
Definition set_indices v (s : t) :=
  let 'mk a b c d e f _ := s in mk a b c d e f v.
End GeomSubsetData.

(** Modelled from the spec: [value::Value] holding a typed Prim ("a
    tagged union over the closed set of schema types").  [Value_null] is
    [value::Value(nullptr)] and the default-constructed value. *)
Inductive Value :=
| Value_null
| Value_prim (T : PrimType) (p : TypedPrim.t)
| Value_GeomSubset (s : GeomSubsetData.t).

(** [p->as<Model>()] *)
Definition as_Model (v : Value) : option TypedPrim.t :=
  match v with Value_prim Model m => Some m | _ => None end.

Module VariantNode.
Record t := mk {
  metas : PrimMeta.t;
  props : PropertyMap;
  primChildren : list Z          (* std::vector<int64_t> *)
}.
End VariantNode.

Module PrimNode.
Record t := mk {
  prim : Value;
  elementName : string;
  typeName : string;
  parent : Z;                    (* int64_t, -1 = root node *)
  parent_is_variant : bool;
  children : list Z;             (* std::vector<size_t> *)
  variantNodeMap : StdMap.t (StdMap.t VariantNode.t)
}.

Definition default : t := mk Value_null "" "" (-1) false [] StdMap.empty.

Definition set_prim v (n : t) :=
  let 'mk _ b c d e f g := n in mk v b c d e f g.
Definition set_typeName v (n : t) :=
  let 'mk a b _ d e f g := n in mk a b v d e f g.
Definition set_parent v (n : t) :=
  let 'mk a b c _ e f g := n in mk a b c v e f g.
Definition set_parent_is_variant v (n : t) :=
  let 'mk a b c d _ f g := n in mk a b c d v f g.
Definition set_children v (n : t) :=
  let 'mk a b c d e _ g := n in mk a b c d e v g.
Definition set_variantNodeMap v (n : t) :=
  let 'mk a b c d e f _ := n in mk a b c d e f v.
End PrimNode.

(** Modelled from the spec: [PrimSpec] = "{name, specifier,
    type-name-string, ..., child list}"; properties, metadata and variants
    are not filled in by usda-reader.cc. *)
Inductive PrimSpec :=
| MkPrimSpec (name : string) (specifier : Specifier) (typeName : string)
             (children : list PrimSpec).

Module PrimSpecOps.
Definition default : PrimSpec := MkPrimSpec "" Def "" [].
Definition name (p : PrimSpec) := let 'MkPrimSpec n _ _ _ := p in n.
Definition specifier (p : PrimSpec) := let 'MkPrimSpec _ s _ _ := p in s.
Definition typeName (p : PrimSpec) := let 'MkPrimSpec _ _ t _ := p in t.
Definition children (p : PrimSpec) := let 'MkPrimSpec _ _ _ c := p in c.
Definition children_emplace_back (c : PrimSpec) (p : PrimSpec) :=
  let 'MkPrimSpec n s t cs := p in MkPrimSpec n s t (cs ++ [c]).
End PrimSpecOps.

Module PrimSpecNode.
Record t := mk {
  primSpec : PrimSpec;
  parent : Z;
  children : list Z
}.

Definition default : t := mk PrimSpecOps.default (-1) [].

Definition set_primSpec v (n : t) := let 'mk _ b c := n in mk v b c.
Definition set_parent v (n : t) := let 'mk a _ c := n in mk a v c.
Definition set_children v (n : t) := let 'mk a b _ := n in mk a b v.
End PrimSpecNode.

(** Modelled from the spec: the output [Prim], its variant sets and its
    ordered children (prim-types.hh). *)
Inductive Prim :=
| MkPrim (data : Value) (prim_type_name : string)
         (variantSets : StdMap.t VariantSet) (children : list Prim)
with VariantSet :=
| MkVariantSet (name : string) (variantSet : StdMap.t Variant)
with Variant :=
| MkVariant (metas : PrimMeta.t) (properties : PropertyMap)
            (primChildren : list Prim).

Module PrimOps.
(** [Prim prim(value)] *)
Definition of_value (v : Value) : Prim := MkPrim v "" StdMap.empty [].
Definition data (p : Prim) := let 'MkPrim d _ _ _ := p in d.
Definition prim_type_name (p : Prim) := let 'MkPrim _ t _ _ := p in t.
Definition variantSets (p : Prim) := let 'MkPrim _ _ v _ := p in v.
Definition children (p : Prim) := let 'MkPrim _ _ _ c := p in c.
Definition set_prim_type_name t (p : Prim) :=
  let 'MkPrim d _ v c := p in MkPrim d t v c.
Definition set_variantSets v (p : Prim) :=
  let 'MkPrim d t _ c := p in MkPrim d t v c.
Definition children_emplace_back (c : Prim) (p : Prim) :=
  let 'MkPrim d t v cs := p in MkPrim d t v (cs ++ [c]).
End PrimOps.

Module VariantSetOps.
Definition default : VariantSet := MkVariantSet "" StdMap.empty.
Definition name (s : VariantSet) := let 'MkVariantSet n _ := s in n.
Definition variantSet (s : VariantSet) := let 'MkVariantSet _ m := s in m.
End VariantSetOps.

Module VariantOps.
Definition default : Variant := MkVariant PrimMeta.default StdMap.empty [].
Definition metas (v : Variant) := let 'MkVariant m _ _ := v in m.
Definition properties (v : Variant) := let 'MkVariant _ p _ := v in p.
Definition primChildren (v : Variant) := let 'MkVariant _ _ c := v in c.
End VariantOps.

(** Modelled from the spec: a [double] metadata value; the reader only
    copies it. *)
Inductive double := double_bits (b : Z).

(** Modelled from the spec: the [upAxis] of the stage metadata. *)
Inductive Axis := AxisX | AxisY | AxisZ.

(** Modelled from the spec: "playbackMode ∈ {None, Loop}". *)
Inductive PlaybackMode := PlaybackModeNone | PlaybackModeLoop.

Module ParserStageMetas.
(** Modelled from the spec: [ascii::AsciiParser::StageMetas], the
    top-level metadata block as the parser reports it. *)
Record t := mk {
  doc : string;
  upAxis : option Axis;
  comment : string;
  subLayers : list string;
  defaultPrim : string;
  metersPerUnit : option double;
  timeCodesPerSecond : option double;
  startTimeCode : option double;
  endTimeCode : option double;
  framesPerSecond : option double;
  autoPlay : option bool;
  playbackMode : option string;
  customLayerData : CustomDataType
}.
End ParserStageMetas.

Module StageMetas.
(** Modelled from the spec: the stage metadata bucket; [None] is a field
    left at its fallback. *)
Record t := mk {
  doc : string;
  upAxis : option Axis;
  comment : string;
  subLayers : list string;
  defaultPrim : string;
  metersPerUnit : option double;
  timeCodesPerSecond : option double;
  startTimeCode : option double;
  endTimeCode : option double;
  framesPerSecond : option double;
  autoPlay : option bool;
  playbackMode : option PlaybackMode;
  customLayerData : CustomDataType
}.

Definition default : t :=
  mk "" None "" [] "" None None None None None None None StdMap.empty.
End StageMetas.

Module Stage.
(** Modelled from the spec: a [Stage] is "{stage-metadata, ordered list of
    root Prims}". *)
Record t := mk {
  metas : StageMetas.t;
  root_prims : list Prim
}.
Definition default : t := mk StageMetas.default [].
Definition set_metas v (s : t) := let 'mk _ b := s in mk v b.
Definition set_root_prims v (s : t) := let 'mk a _ := s in mk a v.
End Stage.

Module Layer.
(** Modelled from the spec: a [Layer] is an "ordered list of root
    PrimSpecs"; usda-reader.cc writes [prim_specs] only. *)
Record t := mk {
  prim_specs : list PrimSpec
}.
End Layer.

Module VariantContent.
(** Modelled from the spec: the parser's record of one variant: its
    metadata, its properties and the indices of the Prims declared inside
    its braces. *)
Record t := mk {
  metas : PrimMetaMap;
  props : PropertyMap;
  primIndices : list Z           (* std::vector<int64_t> *)
}.
End VariantContent.

Definition VariantSetList : Type := StdMap.t (StdMap.t VariantContent.t).

(** Modelled from the spec: [LoadState], "load_state ∈ {Toplevel,
    Reference, SubLayer, Payload}". *)
Inductive LoadState :=
| LoadState_Toplevel | LoadState_Reference | LoadState_SubLayer
| LoadState_Payload.

Global Instance LoadState_eq_dec : EqDecision LoadState.
Proof. solve_decision. Defined.

Module USDAReaderConfig.
(** Modelled from the spec: the two fields of the configuration object
    that [Read] passes on to the parser, with their defaults. *)
Record t := mk {
  allow_unknown_prims : bool;
  allow_unknown_apiSchema : bool
}.
Definition default : t := mk true true.
End USDAReaderConfig.

(** ** The reader: [USDAReader::Impl] *)

Module Impl.
(** The data members of [USDAReader::Impl] that the modelled member
    functions read or write. *)
Record t := mk {
  _stage : Stage.t;
  _err : string;
  _warn : string;
  _toplevel_prims : list Z;               (* std::vector<size_t> *)
  _prim_nodes : list PrimNode.t;
  _toplevel_primspecs : list Z;           (* std::vector<size_t> *)
  _primspec_nodes : list PrimSpecNode.t;
  _primspec_invalidated : bool;
  _config : USDAReaderConfig.t
}.

(** The state left by the constructor: the member initialisers of the
    class ([_primspec_invalidated{true}]). *)
Definition init : t :=
  mk Stage.default "" "" [] [] [] [] true USDAReaderConfig.default.

Definition set_stage v (s : t) :=
  let 'mk _ b c d e f g h i := s in mk v b c d e f g h i.
Definition set_err v (s : t) :=
  let 'mk a _ c d e f g h i := s in mk a v c d e f g h i.
Definition set_warn v (s : t) :=
  let 'mk a b _ d e f g h i := s in mk a b v d e f g h i.
Definition set_toplevel_prims v (s : t) :=
  let 'mk a b c _ e f g h i := s in mk a b c v e f g h i.
Definition set_prim_nodes v (s : t) :=
  let 'mk a b c d _ f g h i := s in mk a b c d v f g h i.
Definition set_toplevel_primspecs v (s : t) :=
  let 'mk a b c d e _ g h i := s in mk a b c d e v g h i.
Definition set_primspec_nodes v (s : t) :=
  let 'mk a b c d e f _ h i := s in mk a b c d e f v h i.
Definition set_primspec_invalidated v (s : t) :=
  let 'mk a b c d e f g _ i := s in mk a b c d e f g v i.
Definition set_config v (s : t) :=
  let 'mk a b c d e f g h _ := s in mk a b c d e f g h v.
End Impl.


(** ** External collaborators

    What usda-reader.cc calls but does not define: the diagnostic macros of
    common-macros.inc, the string helpers, the per-schema reconstructors of
    prim-reconstruct.cc, members of classes declared elsewhere, and the
    type-name constants of the schema headers.  They are parameters of the
    development. *)
Class Collaborators := {
  (** The text that [PUSH_ERROR_AND_RETURN(s)], [PUSH_ERROR_AND_RETURN_TAG
      (tag, s)] and [PUSH_WARN(s)] build from the message before they call
      [PushError] or [PushWarn]. *)
  error_text : string → string;
  error_text_tag : string → string → string;
  warn_text : string → string;
  (** str-util.hh *)
  quote : string → string;
  join : string → list string → string;
  (** [to_string(ListEditQual)] *)
  ListEditQual_to_string : ListEditQual → string;
  (** [value::TypeTraits<CustomDataType>::type_id()] *)
  TYPE_ID_DICT : Z;
  (** [value::TypeTraits<T>::type_name()] *)
  TypeTraits_type_name : PrimType → string;
  (** [kGeomXform], [kGeomMesh], ...: the schema-name constants of
      usdGeom.hh, usdLux.hh and usdShade.hh. *)
  schema_name_constant : PrimType → string;
  (** [prim::ReconstructPrim<T>(properties, references, out, warn, err)]:
      given the Prim under construction and the warning string, returns the
      result, the Prim, the warning string and the error text. *)
  prim_ReconstructPrim :
    PrimType → PropertyMap → ReferenceList → TypedPrim.t → string →
    bool * TypedPrim.t * string * string;
  (** [Path::get_parent_prim_path()] *)
  get_parent_prim_path : Path.t → Path.t;
  (** [GeomSubset::SetElementType], [GeomSubset::SetFamilyType] *)
  SetElementType : string → GeomSubsetData.t → string + GeomSubsetData.t;
  SetFamilyType : string → GeomSubsetData.t → string + GeomSubsetData.t;
  (** [Stage::compute_absolute_prim_path_and_assign_prim_id()] *)
  compute_absolute_prim_path_and_assign_prim_id : Stage.t → Stage.t
}.

(** [nonstd::expected<T, std::string>] *)
Inductive expected (T : Type) :=
| Expected (v : T)
| Unexpected (msg : string).
Global Arguments Expected {T} v.
Global Arguments Unexpected {T} msg.

(** The outcome of a recursive function of the source. *)
Inductive outcome (T : Type) :=
| Returns (v : T)
| Diverge.                      (* the recursion budget ran out *)
Global Arguments Returns {T} v.
Global Arguments Diverge {T}.

Definition kTag : string := "[USDA]".

(** Modelled from the spec: [value::kString] of value-types.hh, the type
    name of a [string] value ("sceneName (string)"). *)
Definition kString : string := "string".

(** The line feed that ends a message. *)
Definition endl : string := String (Ascii.ascii_of_nat 10) "".

(** [PrimTypeTraits<T>::prim_type_name], the name under which the
    prim-construct callback of [T] is registered.  The GeomSubset
    specialisation registers the literal ["GeomSubset"]. *)
Definition PrimTypeTraits_prim_type_name `{Collaborators} (T : PrimType)
  : string :=
  match T with
  | Model => "Model"
  | Scope => "Scope"
  | GPrim => "GPrim"
  | SkelRoot => "SkelRoot"
  | Skeleton => "Skeleton"
  | SkelAnimation => "SkelAnimation"
  | BlendShape => "BlendShape"
  | GeomSubset => "GeomSubset"
  | T => schema_name_constant T
  end.

Module PrimArgs.
(** The arguments with which the parser invokes a prim-construct or
    PrimSpec callback. *)
Record t := mk {
  full_path : Path.t;
  spec : Specifier;
  primTypeName : string;
  prim_name : Path.t;
  primIdx : Z;                   (* int64_t *)
  parentPrimIdx : Z;             (* int64_t *)
  properties : PropertyMap;
  in_meta : PrimMetaMap;
  in_variants : VariantSetList
}.
End PrimArgs.

(** Modelled from the spec: one callback invocation made by the
    parser (ascii-parser.cc is not among the sources): the stage-metadata
    callback, the prim-index allocator, or the callback of a Prim. *)
Inductive ParserEvent :=
| StageMetaEvent (metas : ParserStageMetas.t)
| PrimIdxAssignEvent (parentPrimIdx : Z)
| PrimEvent (a : PrimArgs.t).

Module ParserRun.
(** Modelled from the spec: a run of [AsciiParser::Parse] over one input:
    the callbacks it makes, in order, whether the text itself is
    well-formed, and the parser's own warning and error strings. *)
Record t := mk {
  events : list ParserEvent;
  well_formed : bool;
  warning : string;
  error : string
}.
End ParserRun.

Section Reader.
Context `{Collaborators}.

(** *** Diagnostics *)

Definition PushError (s : string) (st : Impl.t) : Impl.t :=
  Impl.set_err (Impl._err st +:+ s) st.

Definition PushWarn (s : string) (st : Impl.t) : Impl.t :=
  Impl.set_err (Impl._err st +:+ s) st.

Definition GetError (st : Impl.t) : string := Impl._err st.

Definition GetWarning (st : Impl.t) : string := Impl._warn st.

(** [PUSH_ERROR_AND_RETURN(s)]: the state after the push; the caller
    returns [false]. *)
Definition PUSH_ERROR (s : string) (st : Impl.t) : Impl.t :=
  PushError (error_text s) st.

Definition PUSH_ERROR_TAG (tag s : string) (st : Impl.t) : Impl.t :=
  PushError (error_text_tag tag s) st.

Definition PUSH_WARN (s : string) (st : Impl.t) : Impl.t :=
  PushWarn (warn_text s) st.

(** *** Prim index allocator: [RegisterPrimIdxAssignCallback] *)

Definition PrimIdxAssign (parentPrimIdx : Z) (st : Impl.t) : Z * Impl.t :=
  let idx := vector_size (Impl._prim_nodes st) in
  (idx,
   Impl.set_prim_nodes
     (vector_resize PrimNode.default (Impl._prim_nodes st) (idx + 1)) st).

(** *** Enumerated tokens *)

Fixpoint token_allowed {E} (allowedTokens : list (E * string)) (tok : string)
  : bool :=
  match allowedTokens with
  | [] => false
  | (_, name) :: rest => String.eqb tok name || token_allowed rest tok
  end.

Definition CheckAllowedTokens {E} (allowedTokens : list (E * string))
  (tok : string) : expected bool :=
  match allowedTokens with
  | [] => Expected true
  | _ =>
      if token_allowed allowedTokens tok then Expected true
      else
        Unexpected
          ("Allowed tokens are [" +:+ join ", " (quote <$> allowedTokens.*2)
             +:+ "] but got " +:+ quote tok +:+ ".")
  end.

Fixpoint enum_of_token {E} (enums : list (E * string)) (tok : string)
  : option E :=
  match enums with
  | [] => None
  | (e, name) :: rest =>
      if String.eqb tok name then Some e else enum_of_token rest tok
  end.

Definition EnumHandler {E} (prop_name tok : string)
  (enums : list (E * string)) : expected E :=
  match CheckAllowedTokens enums tok with
  | Unexpected e => Unexpected e
  | Expected _ =>
      match enum_of_token enums tok with
      | Some e => Expected e
      | None =>
          Unexpected
            (quote tok +:+ " is an invalid token for attribute `"
               +:+ prop_name +:+ "`")
      end
  end.

Definition ApiSchemaHandler (tok : string) : expected APIName.t :=
  EnumHandler "apiSchemas" tok
    [ (APIName.SkelBindingAPI, "SkelBindingAPI");
      (APIName.MaterialBindingAPI, "MaterialBindingAPI");
      (APIName.Preliminary_PhysicsMaterialAPI,
        "Preliminary_PhysicsMaterialAPI");
      (APIName.Preliminary_PhysicsRigidBodyAPI,
        "Preliminary_PhysicsRigidBodyAPI");
      (APIName.Preliminary_PhysicsColliderAPI,
        "Preliminary_PhysicsColliderAPI") ].

(** *** Prim metadata decoder: [ReconstructPrimMeta] *)

(** The lambda [BuildVariants]: the loop over the items of the
    dictionary. *)
Fixpoint BuildVariants_loop (dict : CustomDataType) (m : gmap string string)
  : expected (gmap string string) :=
  match dict with
  | [] => Expected m
  | (key, item) :: rest =>
      match MetaVar.get_string item with
      | Some pv => BuildVariants_loop rest (<[key := pv]> m)
      | None =>
          match MetaVar.get_StringData item with
          | Some pvs => BuildVariants_loop rest (<[key := pvs]> m)
          | None =>
              Unexpected
                ("TinyUSDZ only accepts `string` value for `variants` element, but got type `"
                   +:+ MetaVar.type_name item +:+ "`(type_id "
                   +:+ pretty (MetaVar.type_id item) +:+ ").")
          end
      end
  end.

Definition BuildVariants (dict : CustomDataType)
  : expected (gmap string string) :=
  BuildVariants_loop dict ∅.

(** The loop over the tokens of an [apiSchemas] value. *)
Fixpoint apiSchemas_loop (toks : list string) (apiSchemas : APISchemas)
  (st : Impl.t) : APISchemas * Impl.t :=
  match toks with
  | [] => (apiSchemas, st)
  | item :: rest =>
      match ApiSchemaHandler item with
      | Expected name =>
          apiSchemas_loop rest
            (mkAPISchemas (listOpQual apiSchemas)
               (names apiSchemas ++ [(name, "")])) st
      | Unexpected e =>
          apiSchemas_loop rest apiSchemas (PUSH_WARN ("(PrimMeta) " +:+ e) st)
      end
  end.

Definition Reference_to_Payload (r : Reference) : Payload :=
  mkPayload (asset_path r) (prim_path r).

(** The body of the loop of [ReconstructPrimMeta] for one entry
    [meta = (key, (listEditQual, var))].  The first component is [false]
    when the body returns [false] from the function. *)
Definition ReconstructPrimMeta_entry (key : string)
  (listEditQual : ListEditQual) (var : MetaVariable) (out : PrimMeta.t)
  (st : Impl.t) : bool * PrimMeta.t * Impl.t :=
  if String.eqb key "active" then
    if String.eqb (MetaVar.type_name var) "bool" then
      match MetaVar.get_bool var with
      | Some pv => (true, PrimMeta.set_active pv out, st)
      | None =>
          (false, out,
           PUSH_ERROR
             "(Internal error?) `active` metadataum is not type `bool`." st)
      end
    else
      (false, out,
       PUSH_ERROR
         ("(Internal error?) `active` metadataum is not type `bool`. got `"
            +:+ MetaVar.type_name var +:+ "`.") st)
  else if String.eqb key "hidden" then
    if String.eqb (MetaVar.type_name var) "bool" then
      match MetaVar.get_bool var with
      | Some pv => (true, PrimMeta.set_hidden pv out, st)
      | None =>
          (false, out,
           PUSH_ERROR
             "(Internal error?) `hidden` metadataum is not type `bool`." st)
      end
    else
      (false, out,
       PUSH_ERROR
         ("(Internal error?) `hidden` metadataum is not type `bool`. got `"
            +:+ MetaVar.type_name var +:+ "`.") st)
  else if String.eqb key "sceneName" then
    if String.eqb (MetaVar.type_name var) kString then
      match MetaVar.get_string var with
      | Some pv => (true, PrimMeta.set_sceneName pv out, st)
      | None =>
          (false, out,
           PUSH_ERROR
             "(Internal error?) `sceneName` metadataum is not type `string`."
             st)
      end
    else
      (false, out,
       PUSH_ERROR
         ("(Internal error?) `sceneName` metadataum is not type `string`. got `"
            +:+ MetaVar.type_name var +:+ "`.") st)
  else if String.eqb key "displayName" then
    if String.eqb (MetaVar.type_name var) kString then
      match MetaVar.get_string var with
      | Some pv => (true, PrimMeta.set_displayName pv out, st)
      | None =>
          (false, out,
           PUSH_ERROR
             "(Internal error?) `displayName` metadataum is not type `string`."
             st)
      end
    else
      (false, out,
       PUSH_ERROR
         ("(Internal error?) `displayName` metadataum is not type `string`. got `"
            +:+ MetaVar.type_name var +:+ "`.") st)
  else if String.eqb key "kind" then
    if String.eqb (MetaVar.type_name var) "token" then
      match MetaVar.get_token var with
      | Some tok =>
          if String.eqb tok "subcomponent" then
            (true, PrimMeta.set_kind Kind.Subcomponent out, st)
          else if String.eqb tok "component" then
            (true, PrimMeta.set_kind Kind.Component out, st)
          else if String.eqb tok "model" then
            (true, PrimMeta.set_kind Kind.Model out, st)
          else if String.eqb tok "group" then
            (true, PrimMeta.set_kind Kind.Group out, st)
          else if String.eqb tok "assembly" then
            (true, PrimMeta.set_kind Kind.Assembly out, st)
          else if String.eqb tok "sceneLibrary" then
            (true, PrimMeta.set_kind Kind.SceneLibrary out, st)
          else
            (false, out,
             PUSH_ERROR "Invalid token for `kind` metadataum." st)
      | None =>
          (false, out,
           PUSH_ERROR
             "(Internal error?) `kind` metadataum is not type `token`." st)
      end
    else
      (false, out,
       PUSH_ERROR
         ("(Internal error?) `kind` metadataum is not type `token`. got `"
            +:+ MetaVar.type_name var +:+ "`.") st)
  else if String.eqb key "customData" then
    if bool_decide (MetaVar.type_id var = TYPE_ID_DICT) then
      match MetaVar.get_dictionary var with
      | Some pv => (true, PrimMeta.set_customData pv out, st)
      | None =>
          (false, out,
           PUSH_ERROR_TAG kTag
             ("(Internal error?) `customData` metadataum is not type `dictionary`. got type `"
                +:+ MetaVar.type_name var +:+ "`") st)
      end
    else
      (false, out,
       PUSH_ERROR
         ("(Internal error?) `customData` metadataum is not type `dictionary`. got type `"
            +:+ MetaVar.type_name var +:+ "`") st)
  else if String.eqb key "assetInfo" then
    match MetaVar.get_dictionary var with
    | Some pv => (true, PrimMeta.set_assetInfo pv out, st)
    | None =>
        (false, out,
         PUSH_ERROR_TAG kTag
           ("(Internal error?) `assetInfo` metadataum is not type `dictionary`. got type `"
              +:+ MetaVar.type_name var +:+ "`") st)
    end
  else if String.eqb key "variants" then
    match MetaVar.get_dictionary var with
    | Some pv =>
        match BuildVariants pv with
        | Unexpected e => (false, out, PUSH_ERROR e st)
        | Expected pm => (true, PrimMeta.set_variants pm out, st)
        end
    | None =>
        (false, out,
         PUSH_ERROR
           ("(Internal error?) `variants` metadataum is not type `dictionary`. got type `"
              +:+ MetaVar.type_name var +:+ "`") st)
    end
  else if String.eqb key "inherits" then
    match MetaVar.get_ValueBlock var with
    | Some _ => (true, PrimMeta.set_inherits (listEditQual, []) out, st)
    | None =>
        match MetaVar.get_Path_array var with
        | Some pv => (true, PrimMeta.set_inherits (listEditQual, pv) out, st)
        | None =>
            match MetaVar.get_Path var with
            | Some pvp =>
                (true, PrimMeta.set_inherits (listEditQual, [pvp]) out, st)
            | None =>
                (false, out,
                 PUSH_ERROR
                   ("(Internal error?) `inherits` metadataum should be either `path` or `path[]`. got type `"
                      +:+ MetaVar.type_name var +:+ "`") st)
            end
        end
    end
  else if String.eqb key "specializes" then
    match MetaVar.get_ValueBlock var with
    | Some _ => (true, PrimMeta.set_specializes (listEditQual, []) out, st)
    | None =>
        match MetaVar.get_Path_array var with
        | Some pv =>
            (true, PrimMeta.set_specializes (listEditQual, pv) out, st)
        | None =>
            match MetaVar.get_Path var with
            | Some pvp =>
                (true, PrimMeta.set_specializes (listEditQual, [pvp]) out, st)
            | None =>
                (false, out,
                 PUSH_ERROR
                   ("(Internal error?) `specializes` metadataum should be either `path` or `path[]`. got type `"
                      +:+ MetaVar.type_name var +:+ "`") st)
            end
        end
    end
  else if String.eqb key "variantSets" then
    match MetaVar.get_ValueBlock var with
    | Some _ => (true, PrimMeta.set_variantSets (listEditQual, []) out, st)
    | None =>
        match MetaVar.get_StringData var with
        | Some pv =>
            (true, PrimMeta.set_variantSets (listEditQual, [pv]) out, st)
        | None =>
            match MetaVar.get_string var with
            | Some pvs =>
                (true, PrimMeta.set_variantSets (listEditQual, [pvs]) out, st)
            | None =>
                match MetaVar.get_string_array var with
                | Some pva =>
                    (true, PrimMeta.set_variantSets (listEditQual, pva) out,
                     st)
                | None =>
                    (false, out,
                     PUSH_ERROR
                       ("(Internal error?) `variantSets` metadataum is not type `string` or `string[]`. got type `"
                          +:+ MetaVar.type_name var +:+ "`") st)
                end
            end
        end
    end
  else if String.eqb key "apiSchemas" then
    if String.eqb (MetaVar.type_name var) "token[]" then
      if bool_decide (listEditQual ≠ Prepend)
         && bool_decide (listEditQual ≠ ResetToExplicit) then
        (false, out,
         PUSH_ERROR
           ("(PrimMeta) " +:+
            "ListEdit op for `apiSchemas` must be empty or `prepend` in TinyUSDZ, but got `"
              +:+ ListEditQual_to_string listEditQual +:+ "`") st)
      else
        match MetaVar.get_token_array var with
        | Some pv =>
            let '(apiSchemas, st') :=
              apiSchemas_loop pv (mkAPISchemas listEditQual []) st in
            (true, PrimMeta.set_apiSchemas apiSchemas out, st')
        | None =>
            (false, out,
             PUSH_ERROR_TAG kTag
               ("(Internal error?) `apiSchemas` metadataum is not type `token[]`. got type `"
                  +:+ MetaVar.type_name var +:+ "`") st)
        end
    else
      (false, out,
       PUSH_ERROR_TAG kTag
         ("(Internal error?) `apiSchemas` metadataum is not type `token[]`. got type `"
            +:+ MetaVar.type_name var +:+ "`") st)
  else if String.eqb key "references" then
    if MetaVar.is_blocked var then
      (true, PrimMeta.set_references (listEditQual, []) out, st)
    else
      match MetaVar.get_Reference var with
      | Some pv =>
          (true, PrimMeta.set_references (listEditQual, [pv]) out, st)
      | None =>
          match MetaVar.get_Reference_array var with
          | Some pva =>
              (true, PrimMeta.set_references (listEditQual, pva) out, st)
          | None =>
              (false, out,
               PUSH_ERROR
                 ("(Internal error?) `references` metadataum is not type `path` or `path[]`. got type `"
                    +:+ MetaVar.type_name var +:+ "`") st)
          end
      end
  else if String.eqb key "payload" then
    if MetaVar.is_blocked var then
      (true, PrimMeta.set_payload (listEditQual, []) out, st)
    else
      match MetaVar.get_Reference var with
      | Some pv =>
          (true,
           PrimMeta.set_payload (listEditQual, [Reference_to_Payload pv]) out,
           st)
      | None =>
          match MetaVar.get_Reference_array var with
          | Some pva =>
              (true,
               PrimMeta.set_payload
                 (listEditQual, Reference_to_Payload <$> pva) out, st)
          | None =>
              (false, out,
               PUSH_ERROR
                 ("(Internal error?) `references` metadataum is not type `path` or `path[]`. got type `"
                    +:+ MetaVar.type_name var +:+ "`") st)
          end
      end
  else if String.eqb key "comment" then
    match MetaVar.get_StringData var with
    | Some pv => (true, PrimMeta.set_comment pv out, st)
    | None =>
        match MetaVar.get_string var with
        | Some spv => (true, PrimMeta.set_comment spv out, st)
        | None => (true, out, st)
        end
    end
  else
    (true, out, PUSH_WARN ("TODO: Prim metadataum : " +:+ key) st).

(** [ReconstructPrimMeta(in_meta, out)]: returns the result, [*out] and
    the reader. *)
Fixpoint ReconstructPrimMeta (in_meta : PrimMetaMap) (out : PrimMeta.t)
  (st : Impl.t) : bool * PrimMeta.t * Impl.t :=
  match in_meta with
  | [] => (true, out, st)
  | (key, (listEditQual, var)) :: rest =>
      match ReconstructPrimMeta_entry key listEditQual var out st with
      | (true, out', st') => ReconstructPrimMeta rest out' st'
      | (false, out', st') => (false, out', st')
      end
  end.

(** *** Per-schema reconstruction: [Impl::ReconstructPrim<T>]

    The specialisations for [Xform] and [GPrim] and the generic template;
    the reconstructor of prim-reconstruct.cc is handed [&_warn]. *)
Definition Impl_ReconstructPrim (T : PrimType) (properties : PropertyMap)
  (references : ReferenceList) (prim : TypedPrim.t) (st : Impl.t)
  : bool * TypedPrim.t * Impl.t :=
  match T with
  | GPrim => (true, prim, PUSH_WARN "TODO: Reconstruct GPrim." st)
  | _ =>
      let '(ret, prim', warn', err) :=
        prim_ReconstructPrim T properties references prim (Impl._warn st) in
      let st' := Impl.set_warn warn' st in
      if ret then (true, prim', st')
      else
        (false, prim',
         PUSH_ERROR
           (match T with
            | Xform => "Failed to reconstruct Xform Prim: " +:+ err
            | _ =>
                "Failed to reconstruct " +:+ TypeTraits_type_name T
                  +:+ " Prim: " +:+ err
            end) st')
  end.

(** *** Typed prim-construct callback: [RegisterReconstructCallback<T>] *)

(** The loop over [item.second.primIndices] of one variant. *)
Fixpoint variant_primIndices_loop (primIndices : list Z)
  (primChildren : list Z) (st : Impl.t) : expected (list Z) * Impl.t :=
  match primIndices with
  | [] => (Expected primChildren, st)
  | childPrimIdx :: rest =>
      if bool_decide (childPrimIdx < 0) then
        (Unexpected
           "[InternalError] Invalid primIndex found within VariantSet.", st)
      else if
        bool_decide (vector_size (Impl._prim_nodes st) ≤ childPrimIdx)
      then
        (Unexpected
           ("[InternalError] Invalid primIndex found within VariantSet. variantChildPrimIdsx "
              +:+ pretty childPrimIdx +:+ " Exceeds _prim_nodes.size() "
              +:+ pretty (vector_size (Impl._prim_nodes st))), st)
      else
        variant_primIndices_loop rest (primChildren ++ [childPrimIdx])
          (Impl.set_prim_nodes
             (alter (PrimNode.set_parent_is_variant true)
                (Z.to_nat childPrimIdx) (Impl._prim_nodes st)) st)
  end.

(** The loop over the variants of one variant set:
    VariantContent -> VariantNode. *)
Fixpoint variantNodes_loop (variant_name : string)
  (items : StdMap.t VariantContent.t)
  (variantNodes : StdMap.t VariantNode.t) (st : Impl.t)
  : expected (StdMap.t VariantNode.t) * Impl.t :=
  match items with
  | [] => (Expected variantNodes, st)
  | (item_first, item_second) :: rest =>
      match
        ReconstructPrimMeta (VariantContent.metas item_second)
          PrimMeta.default st
      with
      | (false, _, st1) =>
          (Unexpected
             ("Failed to process Prim metadataum in variantSet "
                +:+ variant_name +:+ " item " +:+ item_first +:+ " "), st1)
      | (true, metas, st1) =>
          match
            variant_primIndices_loop (VariantContent.primIndices item_second)
              [] st1
          with
          | (Unexpected e, st2) => (Unexpected e, st2)
          | (Expected primChildren, st2) =>
              variantNodes_loop variant_name rest
                (StdMap.emplace item_first
                   (VariantNode.mk metas (VariantContent.props item_second)
                      primChildren)
                   variantNodes) st2
          end
      end
  end.

(** The loop over [in_variants]. *)
Fixpoint variantSets_loop (in_variants : VariantSetList)
  (variantSets : StdMap.t (StdMap.t VariantNode.t)) (st : Impl.t)
  : expected (StdMap.t (StdMap.t VariantNode.t)) * Impl.t :=
  match in_variants with
  | [] => (Expected variantSets, st)
  | (variant_name, items) :: rest =>
      match variantNodes_loop variant_name items StdMap.empty st with
      | (Unexpected e, st1) => (Unexpected e, st1)
      | (Expected variantNodes, st1) =>
          variantSets_loop rest
            (StdMap.emplace variant_name variantNodes variantSets) st1
      end
  end.

(** "Add to scene graph": the index is appended to the top-level list or
    to the children of the parent.  [None] is the access
    [_prim_nodes[size_t(parentPrimIdx)]] outside the vector. *)
Definition link_to_parent (primIdx parentPrimIdx : Z) (st : Impl.t)
  : option Impl.t :=
  if bool_decide (parentPrimIdx = -1) then
    Some (Impl.set_toplevel_prims (Impl._toplevel_prims st ++ [primIdx]) st)
  else
    nodes ← vector_update (Impl._prim_nodes st)
              (size_t_of_int64 parentPrimIdx)
              (λ n, PrimNode.set_children (PrimNode.children n ++ [primIdx]) n);
    Some (Impl.set_prim_nodes nodes st).

(** A store that has a slot for [primIdx]:
    [if (size_t(primIdx) >= v.size()) v.resize(size_t(primIdx) + 1)]. *)
Definition ensure_slot {A} (dflt : A) (primIdx : Z) (v : list A) : list A :=
  if bool_decide (vector_size v ≤ primIdx)
  then vector_resize dflt v (primIdx + 1) else v.

(** "Store actual Prim typeName also for Model Prim type." *)
Definition store_Model_typeName (primTypeName : string) (n : PrimNode.t)
  : PrimNode.t :=
  match as_Model (PrimNode.prim n) with
  | Some model =>
      PrimNode.set_prim
        (Value_prim Model (TypedPrim.set_prim_type_name primTypeName model)) n
  | None => n
  end.

(** The callback that [RegisterReconstructCallback<T>] (the generic
    template) registers under [PrimTypeTraits<T>::prim_type_name].  [None]
    is undefined behaviour (a vector access out of range). *)
Definition PrimConstruct (T : PrimType) (a : PrimArgs.t) (st : Impl.t)
  : option (expected bool * Impl.t) :=
  let prim_name := PrimArgs.prim_name a in
  let primIdx := PrimArgs.primIdx a in
  if negb (Path.is_valid prim_name) then
    Some (Unexpected
            ("Invalid Prim name: " +:+ Path.full_path_name prim_name), st)
  else if Path.is_absolute_path prim_name || Path.is_root_path prim_name then
    Some (Unexpected
            ("Prim name should not starts with '/' or contain `/`: Prim name = "
               +:+ Path.full_path_name prim_name), st)
  else if negb (String.eqb (Path.prop_part prim_name) "") then
    Some (Unexpected
            ("Prim path should not contain property part(`.`): Prim name = "
               +:+ Path.full_path_name prim_name), st)
  else if bool_decide (primIdx < 0) then
    Some (Unexpected "Unexpected primIdx value. primIdx must be positive.",
          st)
  else
    match ReconstructPrimMeta (PrimArgs.in_meta a) PrimMeta.default st with
    | (false, _, st1) =>
        Some (Unexpected "Failed to process Prim metadataum.", st1)
    | (true, meta, st1) =>
        let prim := TypedPrim.set_meta meta TypedPrim.default in
        let references : ReferenceList :=
          match PrimMeta.references meta with
          | Some refs => refs
          | None => (ResetToExplicit, [])
          end in
        match
          Impl_ReconstructPrim T (PrimArgs.properties a) references prim st1
        with
        | (false, _, st2) =>
            Some (Unexpected
                    ("Failed to reconstruct Prim: "
                       +:+ Path.full_path_name prim_name), st2)
        | (true, prim, st2) =>
            let prim := TypedPrim.set_spec (PrimArgs.spec a) prim in
            let prim := TypedPrim.set_name (Path.prim_part prim_name) prim in
            match variantSets_loop (PrimArgs.in_variants a) StdMap.empty st2
            with
            | (Unexpected e, st3) => Some (Unexpected e, st3)
            | (Expected variantSets, st3) =>
                let nodes :=
                  ensure_slot PrimNode.default primIdx (Impl._prim_nodes st3)
                in
                nodes ← vector_update nodes primIdx
                          (λ n,
                             PrimNode.set_variantNodeMap variantSets
                               (PrimNode.set_typeName (PrimArgs.primTypeName a)
                                  (PrimNode.set_prim (Value_prim T prim) n)));
                nodes ← vector_update nodes primIdx
                          (store_Model_typeName (PrimArgs.primTypeName a));
                nodes ← vector_update nodes primIdx
                          (PrimNode.set_parent (PrimArgs.parentPrimIdx a));
                st4 ← link_to_parent primIdx (PrimArgs.parentPrimIdx a)
                        (Impl.set_prim_nodes nodes st3);
                Some (Expected true, st4)
            end
        end
    end.

(** *** GeomSubset prim-construct callback:
    [RegisterReconstructCallback<GeomSubset>] *)

(** The body of the loop over [properties] for one item.  [inl st'] is a
    [PUSH_ERROR_AND_RETURN]: the callback returns [false]. *)
Definition GeomSubset_property (key : string) (prop : Property)
  (subset : GeomSubsetData.t) (st : Impl.t)
  : Impl.t + (GeomSubsetData.t * Impl.t) :=
  if String.eqb key "elementType" then
    match prop with
    | Relationship =>
        inl (PUSH_ERROR
               "`elementType` property as Relation is not supported." st)
    | Attr attr =>
        match attr_value attr, attr_variability attr with
        | attr_token pv, Uniform =>
            match SetElementType pv subset with
            | inl e => inl (PUSH_ERROR e st)
            | inr subset' => inr (subset', st)
            end
        | _, _ =>
            inl (PUSH_ERROR
                   "`elementType` property must be `uniform token` type." st)
        end
    end
  else if String.eqb key "familyType" then
    match prop with
    | Relationship =>
        inl (PUSH_ERROR
               "`familyType` property as Relation is not supported." st)
    | Attr attr =>
        match attr_value attr, attr_variability attr with
        | attr_token pv, Uniform =>
            match SetFamilyType pv subset with
            | inl e => inl (PUSH_ERROR e st)
            | inr subset' => inr (subset', st)
            end
        | _, _ =>
            inl (PUSH_ERROR
                   "`familyType` property must be `uniform token` type." st)
        end
    end
  else if String.eqb key "indices" then
    match prop with
    | Relationship =>
        inl (PUSH_ERROR "`indices` property as Relation is not supported." st)
    | Attr attr =>
        match attr_value attr with
        | attr_int_array pv =>
            (* int -> uint *)
            inr (GeomSubsetData.set_indices
                   (GeomSubsetData.indices subset
                      ++ ((λ a, a mod 2 ^ 32) <$> pv)) subset, st)
        | _ =>
            inl (PUSH_ERROR
                   ("`indices` property must be `int[]` type, but got `"
                      +:+ attr_type_name attr +:+ "`") st)
        end
    end
  else if String.eqb key "material:binding" then
    if negb (is_relationship prop) then
      inl (PUSH_ERROR
             "`material:binding` property as Attribute is not supported." st)
    else inr (subset, st)
  else if String.eqb key "familyName" then
    match prop with
    | Relationship =>
        inl (PUSH_ERROR
               "`familyName` property as Relation is not supported." st)
    | Attr attr =>
        match attr_value attr with
        | attr_token pv => inr (GeomSubsetData.set_familyName pv subset, st)
        | _ =>
            inl (PUSH_ERROR
                   ("`familyName` property must be `token` type, but got `"
                      +:+ attr_type_name attr +:+ "`") st)
        end
    end
  else inr (subset, PUSH_WARN ("GeomSubset: TODO: " +:+ key) st).

Fixpoint GeomSubset_properties (properties : PropertyMap)
  (subset : GeomSubsetData.t) (st : Impl.t)
  : Impl.t + (GeomSubsetData.t * Impl.t) :=
  match properties with
  | [] => inr (subset, st)
  | (key, prop) :: rest =>
      match GeomSubset_property key prop subset st with
      | inl st' => inl st'
      | inr (subset', st') => GeomSubset_properties rest subset' st'
      end
  end.

(** The callback registered under ["GeomSubset"].  It has no test on
    [primIdx], so [size_t(primIdx)] is the wrapping cast.  A
    [PUSH_ERROR_AND_RETURN] inside the callback returns the value [false],
    not an error. *)
Definition PrimConstruct_GeomSubset (a : PrimArgs.t) (st : Impl.t)
  : option (expected bool * Impl.t) :=
  let parentPrimIdx := PrimArgs.parentPrimIdx a in
  let primIdx := size_t_of_int64 (PrimArgs.primIdx a) in
  let parent := get_parent_prim_path (PrimArgs.full_path a) in
  if negb (Path.is_valid parent) then
    Some (Unexpected "Invalid Prim path.", st)
  else if bool_decide (parentPrimIdx < 0) then
    Some (Unexpected "GeomSubset muet be defined as a child of GeomMesh.",
          st)
  else if bool_decide (vector_size (Impl._prim_nodes st) < parentPrimIdx) then
    Some (Unexpected "Unexpected parentPrimIdx for GeomSubset.", st)
  else
    match ReconstructPrimMeta (PrimArgs.in_meta a) PrimMeta.default st with
    | (false, _, st1) =>
        Some (Unexpected "Failed to process Prim metadataum.", st1)
    | (true, meta, st1) =>
        match
          GeomSubset_properties (PrimArgs.properties a)
            GeomSubsetData.default st1
        with
        | inl st2 => Some (Expected false, st2)
        | inr (subset, st2) =>
            let subset :=
              GeomSubsetData.set_name
                (Path.prim_part (PrimArgs.prim_name a)) subset in
            let subset := GeomSubsetData.set_spec (PrimArgs.spec a) subset in
            let subset := GeomSubsetData.set_meta meta subset in
            let nodes :=
              if bool_decide (vector_size (Impl._prim_nodes st2) ≤ primIdx)
              then
                vector_resize PrimNode.default (Impl._prim_nodes st2)
                  ((primIdx + 1) mod 2 ^ 64)
              else Impl._prim_nodes st2 in
            nodes ← vector_update nodes primIdx
                      (PrimNode.set_prim (Value_GeomSubset subset));
            nodes ← vector_update nodes primIdx
                      (PrimNode.set_parent parentPrimIdx);
            st3 ← link_to_parent primIdx parentPrimIdx
                    (Impl.set_prim_nodes nodes st2);
            Some (Expected true, st3)
        end
    end.

(** The callback that [Read] registers for the schema type [T]: the
    explicit specialisation for [GeomSubset], the generic template for the
    other types. *)
Definition RegisterReconstructCallback (T : PrimType)
  : PrimArgs.t → Impl.t → option (expected bool * Impl.t) :=
  match T with
  | GeomSubset => PrimConstruct_GeomSubset
  | _ => PrimConstruct T
  end.

(** *** PrimSpec callback: [RegisterPrimSpecHandler] *)

Definition link_primspec_to_parent (primIdx parentPrimIdx : Z) (st : Impl.t)
  : option Impl.t :=
  if bool_decide (parentPrimIdx = -1) then
    Some (Impl.set_toplevel_primspecs
            (Impl._toplevel_primspecs st ++ [primIdx]) st)
  else
    nodes ← vector_update (Impl._primspec_nodes st)
              (size_t_of_int64 parentPrimIdx)
              (λ n,
                 PrimSpecNode.set_children
                   (PrimSpecNode.children n ++ [primIdx]) n);
    Some (Impl.set_primspec_nodes nodes st).

Definition PrimSpecFunction (a : PrimArgs.t) (st : Impl.t)
  : option (expected bool * Impl.t) :=
  let prim_name := PrimArgs.prim_name a in
  let primIdx := PrimArgs.primIdx a in
  if negb (Path.is_valid prim_name) then
    Some (Unexpected
            ("Invalid Prim name: " +:+ Path.full_path_name prim_name), st)
  else if Path.is_absolute_path prim_name || Path.is_root_path prim_name then
    Some (Unexpected
            ("Prim name should not starts with '/' or contain `/`: Prim name = "
               +:+ Path.full_path_name prim_name), st)
  else if negb (String.eqb (Path.prop_part prim_name) "") then
    Some (Unexpected
            ("Prim path should not contain property part(`.`): Prim name = "
               +:+ Path.full_path_name prim_name), st)
  else if bool_decide (primIdx < 0) then
    Some (Unexpected "Unexpected primIdx value. primIdx must be positive.",
          st)
  else if String.eqb (Path.prim_part prim_name) "" then
    Some (Unexpected "Prim's name should not be empty ", st)
  else
    let primspec :=
      MkPrimSpec (Path.prim_part prim_name) (PrimArgs.spec a)
        (PrimArgs.primTypeName a) [] in
    let nodes :=
      ensure_slot PrimSpecNode.default primIdx (Impl._primspec_nodes st) in
    nodes ← vector_update nodes primIdx (PrimSpecNode.set_primSpec primspec);
    nodes ← vector_update nodes primIdx
              (PrimSpecNode.set_parent (PrimArgs.parentPrimIdx a));
    st' ← link_primspec_to_parent primIdx (PrimArgs.parentPrimIdx a)
            (Impl.set_primspec_nodes nodes st);
    Some (Expected true, st').

(** *** Stage metadata callback: [StageMetaProcessor] *)

Definition StageMetaProcess (metas : ParserStageMetas.t) (st : Impl.t)
  : bool * Impl.t :=
  let old := Stage.metas (Impl._stage st) in
  let keep {A} (new : option A) (cur : option A) : option A :=
    match new with Some v => Some v | None => cur end in
  (* the reader once the fields are assigned, for a given outcome of the
     two last fields *)
  let assigned (playbackMode : option PlaybackMode)
      (customLayerData : CustomDataType) : Impl.t :=
    Impl.set_stage
      (Stage.set_metas
         (StageMetas.mk
            (ParserStageMetas.doc metas)
            (keep (ParserStageMetas.upAxis metas) (StageMetas.upAxis old))
            (ParserStageMetas.comment metas)
            (match ParserStageMetas.subLayers metas with
             | [] => StageMetas.subLayers old
             | l => l
             end)
            (ParserStageMetas.defaultPrim metas)
            (keep (ParserStageMetas.metersPerUnit metas)
               (StageMetas.metersPerUnit old))
            (keep (ParserStageMetas.timeCodesPerSecond metas)
               (StageMetas.timeCodesPerSecond old))
            (keep (ParserStageMetas.startTimeCode metas)
               (StageMetas.startTimeCode old))
            (keep (ParserStageMetas.endTimeCode metas)
               (StageMetas.endTimeCode old))
            (keep (ParserStageMetas.framesPerSecond metas)
               (StageMetas.framesPerSecond old))
            (keep (ParserStageMetas.autoPlay metas) (StageMetas.autoPlay old))
            playbackMode customLayerData)
         (Impl._stage st)) st in
  match ParserStageMetas.playbackMode metas with
  | None =>
      (true,
       assigned (StageMetas.playbackMode old)
         (ParserStageMetas.customLayerData metas))
  | Some tok =>
      if String.eqb tok "none" then
        (true,
         assigned (Some PlaybackModeNone)
           (ParserStageMetas.customLayerData metas))
      else if String.eqb tok "loop" then
        (true,
         assigned (Some PlaybackModeLoop)
           (ParserStageMetas.customLayerData metas))
      else
        (false,
         PUSH_ERROR ("Unsupported playbackMode: " +:+ tok)
           (assigned (StageMetas.playbackMode old)
              (StageMetas.customLayerData old)))
  end.

(** *** Layer construction: [ToPrimSpecRec], [GetAsLayer]

    [ToPrimSpecRec(node, primspec_nodes, parent)] receives references into
    the store: [node] is [primspec_nodes[nidx]] and [parent] is
    [primspec_nodes[ridx].primSpec].  [std::move] leaves its source in a
    valid but unspecified state; the source is left as it was. *)

Section ToPrimSpecRec_body.
Variable rec : Z → Z → list PrimSpecNode.t →
               outcome (bool * list PrimSpecNode.t).

(** The loop over [node.children]. *)
Fixpoint ToPrimSpecRec_children (children : list Z) (ridx : Z)
  (primspec_nodes : list PrimSpecNode.t)
  : outcome (bool * list PrimSpecNode.t) :=
  match children with
  | [] => Returns (true, primspec_nodes)
  | cidx :: rest =>
      if bool_decide (vector_size primspec_nodes ≤ cidx) then
        Returns (false, primspec_nodes)
      else
        match rec cidx ridx primspec_nodes with
        | Returns (true, nodes') => ToPrimSpecRec_children rest ridx nodes'
        | Returns (false, nodes') => Returns (false, nodes')
        | Diverge => Diverge
        end
  end.

Definition ToPrimSpecRec_body (nidx ridx : Z)
  (primspec_nodes : list PrimSpecNode.t)
  : outcome (bool * list PrimSpecNode.t) :=
  match vector_at primspec_nodes nidx with
  | None => Returns (false, primspec_nodes)  (* not reached: [node] exists *)
  | Some node =>
      match
        ToPrimSpecRec_children (PrimSpecNode.children node) ridx
          primspec_nodes
      with
      | Returns (true, nodes') =>
          match vector_at nodes' nidx with
          | None => Returns (false, nodes')  (* not reached *)
          | Some node' =>
              Returns
                (true,
                 alter
                   (λ r,
                      PrimSpecNode.set_primSpec
                        (PrimSpecOps.children_emplace_back
                           (PrimSpecNode.primSpec node')
                           (PrimSpecNode.primSpec r)) r)
                   (Z.to_nat ridx) nodes')
          end
      | other => other
      end
  end.
End ToPrimSpecRec_body.

Fixpoint ToPrimSpecRec (budget : nat) (nidx ridx : Z)
  (primspec_nodes : list PrimSpecNode.t)
  : outcome (bool * list PrimSpecNode.t) :=
  match budget with
  | O => Diverge
  | S budget' =>
      ToPrimSpecRec_body (ToPrimSpecRec budget') nidx ridx primspec_nodes
  end.

(** The loop of [GetAsLayer] over [_toplevel_primspecs]. *)
Fixpoint GetAsLayer_loop (budget : nat) (toplevel : list Z)
  (prim_specs : list PrimSpec) (st : Impl.t)
  : outcome (bool * list PrimSpec * Impl.t) :=
  match toplevel with
  | [] => Returns (true, prim_specs, st)
  | idx :: rest =>
      if bool_decide (vector_size (Impl._primspec_nodes st) ≤ idx) then
        Returns
          (false, prim_specs,
           PUSH_ERROR "[Internal Error] out-of-bounds access." st)
      else
        match ToPrimSpecRec budget idx idx (Impl._primspec_nodes st) with
        | Diverge => Diverge
        | Returns (false, nodes') =>
            Returns
              (false, prim_specs,
               PUSH_ERROR "Construct PrimSpec tree failed."
                 (Impl.set_primspec_invalidated true
                    (Impl.set_primspec_nodes nodes' st)))
        | Returns (true, nodes') =>
            match vector_at nodes' idx with
            | None => Returns (false, prim_specs, st)  (* not reached *)
            | Some node =>
                GetAsLayer_loop budget rest
                  (prim_specs ++ [PrimSpecNode.primSpec node])
                  (Impl.set_primspec_nodes nodes' st)
            end
        end
  end.

(** [GetAsLayer(layer)]: [layer = None] is the null pointer.  Returns the
    result, [*layer] and the reader. *)
Definition GetAsLayer (budget : nat) (layer : option Layer.t) (st : Impl.t)
  : outcome (bool * option Layer.t * Impl.t) :=
  match layer with
  | None => Returns (false, None, PUSH_ERROR "layer arg is nullptr." st)
  | Some l =>
      if Impl._primspec_invalidated st then
        Returns
          (false, Some l,
           PUSH_ERROR
             "PrimSpec data is invalid. USD data is not loaded or there was an error in earlier GetAsLayer call, or GetAsLayer invoked multiple times."
             st)
      else
        match GetAsLayer_loop budget (Impl._toplevel_primspecs st) [] st with
        | Diverge => Diverge
        | Returns (false, prim_specs, st') =>
            Returns (false, Some (Layer.mk prim_specs), st')
        | Returns (true, prim_specs, st') =>
            Returns
              (true, Some (Layer.mk prim_specs),
               Impl.set_primspec_invalidated true st')
        end
  end.

(** *** Reconstruction pass: [ConstructPrimTreeRec], [ReconstructStage]

    [ConstructPrimTreeRec(primIdx, prim_nodes, destPrim, err)] returns
    [inr prim] when it returns [true] with [*destPrim = prim], and [inl msg]
    when it returns [false] with [*err = msg]; [err] is not null at any call
    site.  [destPrim = None] is the null pointer. *)

(** [Prim p(value::Value(nullptr))], the dummy destination. *)
Definition dummy_Prim : Prim := PrimOps.of_value Value_null.

Section ConstructPrimTreeRec_body.
Variable rec : Z → option Prim → outcome (string + Prim).
Variable prim_nodes : list PrimNode.t.

(** [for (const int64_t vidx : item.second.primChildren)] *)
Fixpoint variant_primChildren_loop (primChildren : list Z)
  (variantChildrenIndices : gset Z) (variant_primChildren : list Prim)
  : outcome (string + gset Z * list Prim) :=
  match primChildren with
  | [] => Returns (inr (variantChildrenIndices, variant_primChildren))
  | vidx :: rest =>
      if bool_decide (vidx ∈ variantChildrenIndices) then
        Returns
          (inl ("variant primIdx " +:+ pretty vidx
                  +:+ " is referenced multiple times." +:+ endl))
      else if
        bool_decide (0 ≤ vidx) && bool_decide (vidx ≤ vector_size prim_nodes)
      then
        match rec vidx (Some dummy_Prim) with
        | Diverge => Diverge
        | Returns (inl e) => Returns (inl e)
        | Returns (inr variantChildPrim) =>
            variant_primChildren_loop rest
              ({[vidx]} ∪ variantChildrenIndices)
              (variant_primChildren ++ [variantChildPrim])
        end
      else Returns (inl ("primIndex exceeds prim_nodes.size()" +:+ endl))
  end.

(** [for (const auto &item : variantNodes.second)] *)
Fixpoint variants_loop (variantSet_name : string)
  (items : StdMap.t VariantNode.t) (variantChildrenIndices : gset Z)
  (variantSet : VariantSet) : outcome (string + gset Z * VariantSet) :=
  match items with
  | [] => Returns (inr (variantChildrenIndices, variantSet))
  | (item_first, item_second) :: rest =>
      match
        variant_primChildren_loop (VariantNode.primChildren item_second)
          variantChildrenIndices []
      with
      | Diverge => Diverge
      | Returns (inl e) => Returns (inl e)
      | Returns (inr (indices, primChildren)) =>
          let variant :=
            MkVariant (VariantNode.metas item_second)
              (VariantNode.props item_second) primChildren in
          variants_loop variantSet_name rest indices
            (MkVariantSet variantSet_name
               (StdMap.emplace item_first variant
                  (VariantSetOps.variantSet variantSet)))
      end
  end.

(** [for (const auto &variantNodes : node.variantNodeMap)] *)
Fixpoint variantNodeMap_loop
  (variantNodeMap : StdMap.t (StdMap.t VariantNode.t))
  (variantChildrenIndices : gset Z) (variantSets : StdMap.t VariantSet)
  : outcome (string + gset Z * StdMap.t VariantSet) :=
  match variantNodeMap with
  | [] => Returns (inr (variantChildrenIndices, variantSets))
  | (variantNodes_first, variantNodes_second) :: rest =>
      match
        variants_loop variantNodes_first variantNodes_second
          variantChildrenIndices VariantSetOps.default
      with
      | Diverge => Diverge
      | Returns (inl e) => Returns (inl e)
      | Returns (inr (indices, variantSet)) =>
          variantNodeMap_loop rest indices
            (StdMap.emplace variantNodes_first variantSet variantSets)
      end
  end.

(** [for (const auto &cidx : node.children)] *)
Fixpoint children_loop (children : list Z) (variantChildrenIndices : gset Z)
  (prim : Prim) : outcome (string + Prim) :=
  match children with
  | [] => Returns (inr prim)
  | cidx :: rest =>
      if bool_decide (int64_of_size_t cidx ∈ variantChildrenIndices) then
        children_loop rest variantChildrenIndices prim
      else
        match rec cidx (Some dummy_Prim) with
        | Diverge => Diverge
        | Returns (inl e) => Returns (inl e)
        | Returns (inr childPrim) =>
            children_loop rest variantChildrenIndices
              (PrimOps.children_emplace_back childPrim prim)
        end
  end.

Definition ConstructPrimTreeRec_body (primIdx : Z) (destPrim : option Prim)
  : outcome (string + Prim) :=
  match destPrim with
  | None => Returns (inl ("`destPrim` is nullptr." +:+ endl))
  | Some _ =>
      match vector_at prim_nodes primIdx with
      | None => Returns (inl ("primIndex exceeds prim_nodes.size()" +:+ endl))
      | Some node =>
          let prim := PrimOps.of_value (PrimNode.prim node) in
          let prim := PrimOps.set_prim_type_name (PrimNode.typeName node) prim
          in
          match
            variantNodeMap_loop (PrimNode.variantNodeMap node) ∅ StdMap.empty
          with
          | Diverge => Diverge
          | Returns (inl e) => Returns (inl e)
          | Returns (inr (variantChildrenIndices, variantSets)) =>
              children_loop (PrimNode.children node) variantChildrenIndices
                (PrimOps.set_variantSets variantSets prim)
          end
      end
  end.
End ConstructPrimTreeRec_body.

Fixpoint ConstructPrimTreeRec (budget : nat) (primIdx : Z)
  (prim_nodes : list PrimNode.t) (destPrim : option Prim)
  : outcome (string + Prim) :=
  match budget with
  | O => Diverge
  | S budget' =>
      ConstructPrimTreeRec_body
        (λ i d, ConstructPrimTreeRec budget' i prim_nodes d)
        prim_nodes primIdx destPrim
  end.

(** The loop of [ReconstructStage] over [_toplevel_prims]. *)
Fixpoint ReconstructStage_loop (budget : nat) (toplevel : list Z)
  (st : Impl.t) : outcome (bool * Impl.t) :=
  match toplevel with
  | [] => Returns (true, st)
  | idx :: rest =>
      match
        ConstructPrimTreeRec budget idx (Impl._prim_nodes st)
          (Some dummy_Prim)
      with
      | Diverge => Diverge
      | Returns (inl e) => Returns (false, Impl.set_err e st)
      | Returns (inr prim) =>
          ReconstructStage_loop budget rest
            (Impl.set_stage
               (Stage.set_root_prims
                  (Stage.root_prims (Impl._stage st) ++ [prim])
                  (Impl._stage st)) st)
      end
  end.

Definition ReconstructStage (budget : nat) (st : Impl.t)
  : outcome (bool * Impl.t) :=
  let st0 :=
    Impl.set_stage (Stage.set_root_prims [] (Impl._stage st)) st in
  match ReconstructStage_loop budget (Impl._toplevel_prims st0) st0 with
  | Returns (true, st1) =>
      Returns
        (true,
         Impl.set_stage
           (compute_absolute_prim_path_and_assign_prim_id (Impl._stage st1))
           st1)
  | other => other
  end.

(** *** The parser and [Read] *)

(** The schema types whose callbacks [Read] registers, in its order. *)
Definition registered_types : list PrimType :=
  [ Model; GPrim; Xform; GeomCube; GeomSphere; GeomCone; GeomPoints;
    GeomCylinder; GeomCapsule; GeomMesh; GeomSubset; GeomBasisCurves;
    GeomCamera; Material; Shader; Scope; SphereLight; DomeLight; DiskLight;
    DistantLight; CylinderLight; SkelRoot; Skeleton; SkelAnimation;
    BlendShape ].

(** Modelled from the spec: the typed callback whose registered name is the
    declared type name, if there is one ("Once per Prim whose declared type
    matches type_name"). *)
Definition matching_callback (typeName : string) : option PrimType :=
  List.find
    (λ T, String.eqb (PrimTypeTraits_prim_type_name T) typeName)
    registered_types.

(** Modelled from the spec: the callback that fires for a Prim ("At most
    one of {typed callback matching typeName, untyped PrimSpec callback,
    generic Model fallback} fires per Prim"; "If the config flag
    allow_unknown_prims is set and no typed callback matches, the Prim is
    materialized as Model ...; otherwise a diagnostic is emitted").  The
    PrimSpec callback is the one of a non-Toplevel load. *)
Definition prim_callback (state : LoadState) (allow_unknown_prim : bool)
  (a : PrimArgs.t) (st : Impl.t) : option (expected bool * Impl.t) :=
  if bool_decide (state = LoadState_Toplevel) then
    match matching_callback (PrimArgs.primTypeName a) with
    | Some T => RegisterReconstructCallback T a st
    | None =>
        if allow_unknown_prim then RegisterReconstructCallback Model a st
        else
          Some (Unexpected
                  ("Unknown Prim type: " +:+ PrimArgs.primTypeName a), st)
    end
  else PrimSpecFunction a st.

(** Modelled from the spec: the parser makes its callbacks in order and
    stops at the first one that fails ("The facade returns at the next
    callback boundary if a callback returns failure").  Returns the
    parser's error text, if it stopped, and the reader; [None] is undefined
    behaviour inside a callback. *)
Fixpoint run_callbacks (state : LoadState) (allow_unknown_prim : bool)
  (events : list ParserEvent) (st : Impl.t)
  : option (option string * Impl.t) :=
  match events with
  | [] => Some (None, st)
  | StageMetaEvent metas :: rest =>
      match StageMetaProcess metas st with
      | (true, st') => run_callbacks state allow_unknown_prim rest st'
      | (false, st') => Some (Some "Failed to process Stage metadata.", st')
      end
  | PrimIdxAssignEvent parentPrimIdx :: rest =>
      run_callbacks state allow_unknown_prim rest
        (PrimIdxAssign parentPrimIdx st).2
  | PrimEvent a :: rest =>
      r ← prim_callback state allow_unknown_prim a st;
      match r with
      | (Expected true, st') =>
          run_callbacks state allow_unknown_prim rest st'
      | (Expected false, st') =>
          Some (Some "Constructing Prim failed.", st')
      | (Unexpected e, st') => Some (Some e, st')
      end
  end.

(** Modelled from the spec: [_parser.Parse(state, option)] with
    [_parser.GetWarning()] and [_parser.GetError()] after it. *)
Definition Parse (run : ParserRun.t) (state : LoadState)
  (allow_unknown_prim : bool) (st : Impl.t)
  : option (bool * string * string * Impl.t) :=
  r ← run_callbacks state allow_unknown_prim (ParserRun.events run) st;
  match r with
  | (Some e, st') => Some (false, ParserRun.warning run, e, st')
  | (None, st') =>
      Some (ParserRun.well_formed run, ParserRun.warning run,
            ParserRun.error run, st')
  end.

(** [Read(state)] over the parser run [run]. *)
Definition Read (run : ParserRun.t) (state : LoadState) (st : Impl.t)
  : option (bool * Impl.t) :=
  match
    Parse run state (USDAReaderConfig.allow_unknown_prims (Impl._config st))
      st
  with
  | None => None
  | Some (true, _, _, st') => Some (true, st')
  | Some (false, warn, err, st') =>
      let st'' :=
        if String.eqb warn "" then st'
        else PUSH_WARN ("<parser> " +:+ warn) st' in
      Some (false, PUSH_ERROR ("Parse failed:" +:+ endl +:+ err) st'')
  end.

End Reader.

(** ** Traversals used to state the properties *)

(** The typed values of a Prim tree in pre-order: the Prim itself, the
    Prims of its variants (in map order), then its ordinary children. *)
Fixpoint Prim_values (p : Prim) : list Value :=
  let 'MkPrim data _ variantSets children := p in
  data ::
    (fix sets (l : list (string * VariantSet)) : list Value :=
       match l with
       | [] => []
       | (_, MkVariantSet _ variants) :: l' =>
           (fix vars (m : list (string * Variant)) : list Value :=
              match m with
              | [] => []
              | (_, MkVariant _ _ primChildren) :: m' =>
                  (fix prims (ps : list Prim) : list Value :=
                     match ps with
                     | [] => []
                     | q :: ps' => Prim_values q ++ prims ps'
                     end) primChildren ++ vars m'
              end) variants ++ sets l'
       end) variantSets
    ++ (fix prims (ps : list Prim) : list Value :=
          match ps with
          | [] => []
          | q :: ps' => Prim_values q ++ prims ps'
          end) children.

Definition Prims_values (ps : list Prim) : list Value :=
  ps ≫= Prim_values.

Definition Variant_values (v : Variant) : list Value :=
  Prims_values (VariantOps.primChildren v).

Definition VariantSet_values (s : VariantSet) : list Value :=
  (VariantSetOps.variantSet s).*2 ≫= Variant_values.

Definition variantSets_values (m : StdMap.t VariantSet) : list Value :=
  m.*2 ≫= VariantSet_values.

(** The variant children that a node records, over all its variant sets
    and variants, in iteration order. *)
Definition variant_children_of (variantNodeMap : StdMap.t (StdMap.t VariantNode.t))
  : list Z :=
  variantNodeMap.*2 ≫= (λ variants, variants.*2 ≫= VariantNode.primChildren).

(** The ordinary children that the reconstruction pass emits for a node:
    the entries of its child list that are not among its variant
    children. *)
Definition ordinary_children_of (node : PrimNode.t) : list Z :=
  filter
    (λ cidx,
       int64_of_size_t cidx ∉ variant_children_of (PrimNode.variantNodeMap node))
    (PrimNode.children node).

(** "Every index in [0, N) of the PrimNode store is emitted exactly once
    in the output tree": the output Prims, in pre-order, are the typed
    values of the store slots taken in some order that lists each index of
    [0, N) once. *)
Definition slot_value (prim_nodes : list PrimNode.t) (i : Z) (v : Value)
  : Prop :=
  PrimNode.prim <$> vector_at prim_nodes i = Some v.

Definition each_index_emitted_once (prim_nodes : list PrimNode.t)
  (root_prims : list Prim) : Prop :=
  ∃ order : list Z,
    order ≡ₚ seqZ 0 (vector_size prim_nodes)
    ∧ Forall2 (slot_value prim_nodes) order (Prims_values root_prims).

(** ** Sample collaborators and inputs *)

Definition double_quote : string := String (Ascii.ascii_of_nat 34) "".

Definition sample_schema_name (T : PrimType) : string :=
  match T with
  | Xform => "Xform" | GeomMesh => "Mesh" | GeomPoints => "Points"
  | GeomSphere => "Sphere" | GeomCube => "Cube" | GeomCone => "Cone"
  | GeomCapsule => "Capsule" | GeomCylinder => "Cylinder"
  | GeomBasisCurves => "BasisCurves" | GeomSubset => "GeomSubset"
  | SphereLight => "SphereLight" | DomeLight => "DomeLight"
  | DiskLight => "DiskLight" | DistantLight => "DistantLight"
  | CylinderLight => "CylinderLight" | Material => "Material"
  | Shader => "Shader" | GeomCamera => "Camera" | Model => "Model"
  | Scope => "Scope" | GPrim => "GPrim" | SkelRoot => "SkelRoot"
  | Skeleton => "Skeleton" | SkelAnimation => "SkelAnimation"
  | BlendShape => "BlendShape"
  end.

(** Collaborators for the sample runs: plain diagnostics, a per-schema
    reconstructor that keeps the properties, an identity path pass. *)
Definition sample_collaborators : Collaborators := {|
  error_text s := "[error] " +:+ s +:+ endl;
  error_text_tag tag s := "[error] " +:+ tag +:+ " " +:+ s +:+ endl;
  warn_text s := "[warn] " +:+ s +:+ endl;
  quote s := double_quote +:+ s +:+ double_quote;
  join sep l := foldr (λ s acc, s +:+ sep +:+ acc) "" l;
  ListEditQual_to_string q :=
    match q with
    | ResetToExplicit => "" | Append => "append" | Add => "add"
    | Delete => "delete" | Prepend => "prepend"
    end;
  TYPE_ID_DICT := 47;
  TypeTraits_type_name := sample_schema_name;
  schema_name_constant := sample_schema_name;
  prim_ReconstructPrim T properties references prim warn :=
    (true,
     TypedPrim.mk (TypedPrim.name prim) (TypedPrim.spec prim)
       (TypedPrim.meta prim) (TypedPrim.prim_type_name prim) properties,
     warn, "");
  get_parent_prim_path p :=
    Path.mk (Path.is_valid p) true true "/" "" "/";
  SetElementType s subset :=
    let 'GeomSubsetData.mk a b c _ e f g := subset in
    inr (GeomSubsetData.mk a b c (Some s) e f g);
  SetFamilyType s subset :=
    let 'GeomSubsetData.mk a b c d _ f g := subset in
    inr (GeomSubsetData.mk a b c d (Some s) f g);
  compute_absolute_prim_path_and_assign_prim_id stage := stage
|}.

(** The element name [name] as the parser hands it over. *)
Definition element_path (name : string) : Path.t :=
  Path.mk true false false name "" name.

(** The arguments of the callback for [def typeName "name" {...}]. *)
Definition prim_args (typeName name : string) (primIdx parentPrimIdx : Z)
  (variants : VariantSetList) : PrimArgs.t :=
  PrimArgs.mk (Path.mk true true false ("/" +:+ name) "" ("/" +:+ name)) Def
    typeName (element_path name) primIdx parentPrimIdx StdMap.empty
    StdMap.empty variants.

Definition variant_of (primIndices : list Z) : VariantContent.t :=
  VariantContent.mk StdMap.empty StdMap.empty primIndices.

(** [def Xform "A" {}] *)
Definition run_single : ParserRun.t :=
  ParserRun.mk
    [ PrimIdxAssignEvent (-1);
      PrimEvent (prim_args "Xform" "A" 0 (-1) StdMap.empty) ]
    true "" "".

(** [def Wobble "X" {}] *)
Definition run_unknown_type : ParserRun.t :=
  ParserRun.mk
    [ PrimIdxAssignEvent (-1);
      PrimEvent (prim_args "Wobble" "X" 0 (-1) StdMap.empty) ]
    true "" "".

(** An Xform "A" with variant set "v" = {"a", "b"} and, under "a", a child
    Xform "C" (variant splicing). *)
Definition run_variant_splicing : ParserRun.t :=
  ParserRun.mk
    [ PrimIdxAssignEvent (-1);
      PrimIdxAssignEvent 0;
      PrimEvent (prim_args "Xform" "C" 1 0 StdMap.empty);
      PrimEvent
        (prim_args "Xform" "A" 0 (-1)
           [("v", [("a", variant_of [1]); ("b", variant_of [])])]) ]
    true "" "".

(** A root Xform "A", then a root Xform "B" whose variants "a" and "b" both
    list the child "C" (duplicate variant child). *)
Definition run_duplicate_variant_child : ParserRun.t :=
  ParserRun.mk
    [ PrimIdxAssignEvent (-1);
      PrimEvent (prim_args "Xform" "A" 0 (-1) StdMap.empty);
      PrimIdxAssignEvent (-1);
      PrimIdxAssignEvent 1;
      PrimEvent (prim_args "Xform" "C" 2 1 StdMap.empty);
      PrimEvent
        (prim_args "Xform" "B" 1 (-1)
           [("v", [("a", variant_of [2]); ("b", variant_of [2])])]) ]
    true "" "".

(** Root Xforms "A" and "B"; "C" is reported as a child of "B" and is
    listed in variant "a" of "A". *)
Definition run_shared_child : ParserRun.t :=
  ParserRun.mk
    [ PrimIdxAssignEvent (-1);
      PrimIdxAssignEvent (-1);
      PrimIdxAssignEvent 1;
      PrimEvent (prim_args "Xform" "C" 2 1 StdMap.empty);
      PrimEvent
        (prim_args "Xform" "A" 0 (-1) [("v", [("a", variant_of [2])])]);
      PrimEvent (prim_args "Xform" "B" 1 (-1) StdMap.empty) ]
    true "" "".

(** The reader after [Read(state)] over a run, and [Impl.init] if the read
    does not return [true]. *)
Definition reader_after (run : ParserRun.t) (state : LoadState) : Impl.t :=
  match Read (H := sample_collaborators) run state Impl.init with
  | Some (true, st) => st
  | _ => Impl.init
  end.

(** The prim-construct callback arguments for a GeomSubset with the element
    name [S.x] (prim part [S], property part [x]) under the prim of slot
    0, without properties, metadata or variants. *)
Definition subset_args_with_property_part : PrimArgs.t :=
  PrimArgs.mk (Path.mk true true false "/M/S" "x" "/M/S.x") Def "GeomSubset"
    (Path.mk true false false "S" "x" "S.x") 1 0 StdMap.empty StdMap.empty
    StdMap.empty.

(** A fresh reader after the allocator has handed out slot 0 (a root prim)
    and slot 1 (a child of slot 0). *)
Definition reader_with_two_slots : Impl.t :=
  (PrimIdxAssign 0 (PrimIdxAssign (-1) Impl.init).2).2.

(** ** Notions used to state the properties *)

(** A sequence of calls of the prim-index allocator, one per parent index
    of [parents]: the indices returned and the reader after the calls. *)
Fixpoint assign_indices (parents : list Z) (st : Impl.t) : list Z * Impl.t :=
  match parents with
  | [] => ([], st)
  | parentPrimIdx :: rest =>
      let '(idx, st1) := PrimIdxAssign parentPrimIdx st in
      let '(idxs, st2) := assign_indices rest st1 in
      (idx :: idxs, st2)
  end.

(** The value types a raw metadata value can hold. *)
Inductive MetaType :=
| ty_bool | ty_string | ty_StringData | ty_token | ty_token_array
| ty_string_array | ty_dictionary | ty_ValueBlock | ty_Path | ty_Path_array
| ty_Reference | ty_Reference_array | ty_other.

Global Instance MetaType_eq_dec : EqDecision MetaType.
Proof. solve_decision. Defined.

Definition held_type (var : MetaVariable) : MetaType :=
  match MetaVar.held var with
  | held_bool _ => ty_bool
  | held_string _ => ty_string
  | held_StringData _ => ty_StringData
  | held_token _ => ty_token
  | held_token_array _ => ty_token_array
  | held_string_array _ => ty_string_array
  | held_dictionary _ => ty_dictionary
  | held_ValueBlock => ty_ValueBlock
  | held_Path _ => ty_Path
  | held_Path_array _ => ty_Path_array
  | held_Reference _ => ty_Reference
  | held_Reference_array _ => ty_Reference_array
  | held_other => ty_other
  end.

(** Modelled from the spec: the expected value type of each recognised
    metadata key other than [references] and [payload] (the fields of
    PrimMeta in the data model: "active (bool), hidden (bool), kind,
    sceneName (string), displayName (string), customData (nested
    dictionary), assetInfo (nested dictionary), variants (map), inherits
    (list of Path), specializes (list of Path), variantSets (list of
    string), apiSchemas (list of enumerated API names), comment
    (string)"). *)
Definition expected_type (key : string) : option MetaType :=
  if String.eqb key "active" then Some ty_bool
  else if String.eqb key "hidden" then Some ty_bool
  else if String.eqb key "kind" then Some ty_token
  else if String.eqb key "sceneName" then Some ty_string
  else if String.eqb key "displayName" then Some ty_string
  else if String.eqb key "customData" then Some ty_dictionary
  else if String.eqb key "assetInfo" then Some ty_dictionary
  else if String.eqb key "variants" then Some ty_dictionary
  else if String.eqb key "inherits" then Some ty_Path_array
  else if String.eqb key "specializes" then Some ty_Path_array
  else if String.eqb key "variantSets" then Some ty_string_array
  else if String.eqb key "apiSchemas" then Some ty_token_array
  else if String.eqb key "comment" then Some ty_string
  else None.

(** The value types that the decoder takes for a key: the expected type
    for the keys with a strict check; a blocked marker, a single value or
    a list for the list-valued keys.  [None] for the other keys. *)
Definition accepted_types (key : string) : option (list MetaType) :=
  if String.eqb key "active" then Some [ty_bool]
  else if String.eqb key "hidden" then Some [ty_bool]
  else if String.eqb key "kind" then Some [ty_token]
  else if String.eqb key "sceneName" then Some [ty_string]
  else if String.eqb key "displayName" then Some [ty_string]
  else if String.eqb key "customData" then Some [ty_dictionary]
  else if String.eqb key "assetInfo" then Some [ty_dictionary]
  else if String.eqb key "variants" then Some [ty_dictionary]
  else if String.eqb key "apiSchemas" then Some [ty_token_array]
  else if String.eqb key "inherits" then
    Some [ty_ValueBlock; ty_Path_array; ty_Path]
  else if String.eqb key "specializes" then
    Some [ty_ValueBlock; ty_Path_array; ty_Path]
  else if String.eqb key "variantSets" then
    Some [ty_ValueBlock; ty_StringData; ty_string; ty_string_array]
  else if String.eqb key "references" then
    Some [ty_ValueBlock; ty_Reference; ty_Reference_array]
  else if String.eqb key "payload" then
    Some [ty_ValueBlock; ty_Reference; ty_Reference_array]
  else None.

(** The maps of a node are well-formed [std::map]s. *)
Definition node_maps_ok (node : PrimNode.t) : Prop :=
  StdMap.ok (PrimNode.variantNodeMap node)
  ∧ Forall (λ variants, StdMap.ok variants) (PrimNode.variantNodeMap node).*2.

(** The number of occurrences of an index in a list of indices. *)
Definition occurrences (i : Z) (l : list Z) : nat :=
  length (filter (λ j, j = i) l).

(** The store is a forest as the callbacks of a well-formed parse leave
    it: every slot is listed once, in the top-level list when its [parent]
    is -1 and in the child list of its parent otherwise; a parent has a
    smaller index than its children; the variant children of a node are
    among its children; the maps are well-formed. *)
Definition store_is_forest (toplevel : list Z) (prim_nodes : list PrimNode.t)
  : Prop :=
  ∀ i node,
    vector_at prim_nodes i = Some node →
    (PrimNode.parent node = -1 ∨ 0 ≤ PrimNode.parent node < i)
    ∧ occurrences i toplevel
      = (if decide (PrimNode.parent node = -1) then 1%nat else 0%nat)
    ∧ (∀ r rnode,
         vector_at prim_nodes r = Some rnode →
         occurrences i (PrimNode.children rnode)
         = (if decide (PrimNode.parent node = r) then 1%nat else 0%nat))
    ∧ variant_children_of (PrimNode.variantNodeMap node)
        ⊆ PrimNode.children node
    ∧ node_maps_ok node.

(** The list-valued keys, which also take a single value or a blocked
    marker. *)
Definition list_valued_keys : list string :=
  ["inherits"; "specializes"; "variantSets"; "references"; "payload"].

(** The number of elements that a decoded [PrimMeta] holds for a
    list-valued key, if the field is set. *)
Definition list_field_size (key : string) (m : PrimMeta.t) : option nat :=
  if String.eqb key "inherits" then (λ f, length f.2) <$> PrimMeta.inherits m
  else if String.eqb key "specializes" then
    (λ f, length f.2) <$> PrimMeta.specializes m
  else if String.eqb key "variantSets" then
    (λ f, length f.2) <$> PrimMeta.variantSets m
  else if String.eqb key "references" then
    (λ f, length f.2) <$> PrimMeta.references m
  else if String.eqb key "payload" then
    (λ f, length f.2) <$> PrimMeta.payload m
  else None.

(** A single [Path] value and a blocked marker, as metadata values. *)
Definition sample_path_value : MetaVariable :=
  MkMetaVariable "path" 0 (held_Path (element_path "Base")).

Definition sample_blocked_value : MetaVariable :=
  MkMetaVariable "None" 0 held_ValueBlock.

Definition sample_int_value : MetaVariable :=
  MkMetaVariable "int" 0 held_other.

(** [built_by rec i p]: the construction [rec] of the Prim of index [i],
    into a non-null destination, returns [true] with the Prim [p]. *)
Definition built_by (rec : Z → option Prim → outcome (string + Prim))
  (i : Z) (p : Prim) : Prop :=
  rec i (Some dummy_Prim) = Returns (inr p).

(** An output variant carries the metadata and properties of its
    VariantNode, and its [primChildren] are the Prims built from the
    indices that the VariantNode records, in order. *)
Definition Variant_built_from
  (rec : Z → option Prim → outcome (string + Prim))
  (x : string * VariantNode.t) (y : string * Variant) : Prop :=
  x.1 = y.1
  ∧ VariantOps.metas y.2 = VariantNode.metas x.2
  ∧ VariantOps.properties y.2 = VariantNode.props x.2
  ∧ Forall2 (built_by rec) (VariantNode.primChildren x.2)
      (VariantOps.primChildren y.2).

Definition VariantSet_built_from
  (rec : Z → option Prim → outcome (string + Prim))
  (x : string * StdMap.t VariantNode.t) (y : string * VariantSet) : Prop :=
  x.1 = y.1
  ∧ Forall2 (Variant_built_from rec) x.2 (VariantSetOps.variantSet y.2).

(** The reconstruction of an index with a budget. *)
Definition construct (budget : nat) (prim_nodes : list PrimNode.t)
  : Z → option Prim → outcome (string + Prim) :=
  λ i d, ConstructPrimTreeRec budget i prim_nodes d.

(** The store, the root node and the root Prim of the variant-splicing
    sample. *)
Definition splicing_nodes : list PrimNode.t :=
  Impl._prim_nodes (reader_after run_variant_splicing LoadState_Toplevel).

Definition splicing_root_node : PrimNode.t :=
  default PrimNode.default (vector_at splicing_nodes 0).

Definition splicing_root_prim : Prim :=
  match ConstructPrimTreeRec 2 0 splicing_nodes (Some dummy_Prim) with
  | Returns (inr prim) => prim
  | _ => dummy_Prim
  end.

(** The reader after [ReconstructStage] on the reader that [Read] leaves
    for a run. *)
Definition reconstructed (run : ParserRun.t) : Impl.t :=
  match
    ReconstructStage (H := sample_collaborators) 3
      (reader_after run LoadState_Toplevel)
  with
  | Returns (_, st) => st
  | Diverge => Impl.init
  end.

(** The store and the first root Prim of the duplicate-variant-child
    sample. *)
Definition duplicate_nodes : list PrimNode.t :=
  Impl._prim_nodes
    (reader_after run_duplicate_variant_child LoadState_Toplevel).

Definition duplicate_first_root : Prim :=
  match ConstructPrimTreeRec 3 0 duplicate_nodes (Some dummy_Prim) with
  | Returns (inr prim) => prim
  | _ => dummy_Prim
  end.

(** A root Xform "A", then a root Xform "B" with the child "D", whose
    variants "a" and "b" both list its child "C": the duplicate variant
    child is two levels below the top level. *)
Definition run_nested_duplicate_variant_child : ParserRun.t :=
  ParserRun.mk
    [ PrimIdxAssignEvent (-1);
      PrimEvent (prim_args "Xform" "A" 0 (-1) StdMap.empty);
      PrimIdxAssignEvent (-1);
      PrimIdxAssignEvent 1;
      PrimIdxAssignEvent 2;
      PrimEvent (prim_args "Xform" "C" 3 2 StdMap.empty);
      PrimEvent
        (prim_args "Xform" "D" 2 1
           [("v", [("a", variant_of [3]); ("b", variant_of [3])])]);
      PrimEvent (prim_args "Xform" "B" 1 (-1) StdMap.empty) ]
    true "" "".

(** The reader, the store and the first root Prim of the sample with the
    duplicate variant child below the top level. *)
Definition nested_duplicate_reader : Impl.t :=
  reader_after run_nested_duplicate_variant_child LoadState_Toplevel.

Definition nested_duplicate_nodes : list PrimNode.t :=
  Impl._prim_nodes nested_duplicate_reader.

Definition nested_duplicate_first_root : Prim :=
  match ConstructPrimTreeRec 5 0 nested_duplicate_nodes (Some dummy_Prim) with
  | Returns (inr prim) => prim
  | _ => dummy_Prim
  end.

(** [meets_error prim_nodes idx]: the construction of the Prim of the index
    [idx] is directed to one of the errors of [ConstructPrimTreeRec]: [idx]
    is outside the store, or its node lists a variant child twice, or one
    of the indices that the construction descends into (a variant child of
    the node, or a child that is no variant child) is directed to one. *)
Inductive meets_error (prim_nodes : list PrimNode.t) : Z → Prop :=
| meets_out_of_range idx :
    vector_at prim_nodes idx = None → meets_error prim_nodes idx
| meets_duplicate_variant_child idx node :
    vector_at prim_nodes idx = Some node →
    ¬ NoDup (variant_children_of (PrimNode.variantNodeMap node)) →
    meets_error prim_nodes idx
| meets_error_in_variant_child idx node c :
    vector_at prim_nodes idx = Some node →
    c ∈ variant_children_of (PrimNode.variantNodeMap node) →
    meets_error prim_nodes c →
    meets_error prim_nodes idx
| meets_error_in_child idx node c :
    vector_at prim_nodes idx = Some node →
    c ∈ ordinary_children_of node →
    meets_error prim_nodes c →
    meets_error prim_nodes idx.

(** The occurrences in [l] of the parent of the slot [i], zero for a
    root. *)
Definition parent_occurrences (prim_nodes : list PrimNode.t) (i : Z)
  (l : list Z) : nat :=
  match vector_at prim_nodes i with
  | Some node =>
      if decide (PrimNode.parent node = -1) then 0%nat
      else occurrences (PrimNode.parent node) l
  | None => 0%nat
  end.

(** [order] lists the indices whose Prims are built for the Prim of the
    index [r]: each of them was built, and a slot [i] occurs in it once if
    it is [r], and once more for every occurrence of its parent. *)
Definition visit_order (prim_nodes : list PrimNode.t) (r : Z)
  (order : list Z) : Prop :=
  (∀ j, j ∈ order → ∃ budget p, built_by (construct budget prim_nodes) j p)
  ∧ ∀ i,
      is_Some (vector_at prim_nodes i) →
      occurrences i order
      = ((if decide (r = i) then 1 else 0)
         + parent_occurrences prim_nodes i order)%nat.

(** The ordering contract: the children and the variant children of a
    slot have larger indices than the slot. *)
Definition store_is_ordered (prim_nodes : list PrimNode.t) : Prop :=
  ∀ i node,
    vector_at prim_nodes i = Some node →
    Forall (λ c, i < c) (PrimNode.children node)
    ∧ Forall (λ c, i < c)
        (variant_children_of (PrimNode.variantNodeMap node)).

(** [st'] differs from [st] at most in the diagnostic strings [_err] and
    [_warn]. *)
Definition same_but_diagnostics (st st' : Impl.t) : Prop :=
  ∃ e w, st' = Impl.set_warn w (Impl.set_err e st).

(** ** Notions used to state further properties of the reader *)

(** The value of an [expected], if it holds one. *)
Definition expected_value {T} (r : expected T) : option T :=
  match r with Expected v => Some v | Unexpected _ => None end.

(** [st'] is [st] with text appended to the error string. *)
Definition extends_err (st st' : Impl.t) : Prop :=
  ∃ text, st' = Impl.set_err (Impl._err st +:+ text) st.

(** The metadata keys that [ReconstructPrimMeta] has a branch for. *)
Definition recognized_keys : list string :=
  [ "active"; "hidden"; "sceneName"; "displayName"; "kind"; "customData";
    "assetInfo"; "variants"; "inherits"; "specializes"; "variantSets";
    "apiSchemas"; "references"; "payload"; "comment" ].

(** Whether [ReconstructPrimMeta] returns [true] for the map that holds
    the one entry [key = var] with the qualifier [q]. *)
Definition entry_accepted `{Collaborators} (key : string) (q : ListEditQual)
  (var : MetaVariable) : bool :=
  (ReconstructPrimMeta [(key, (q, var))] PrimMeta.default Impl.init).1.1.

(** The string that a value of a [variants] dictionary holds, plain or
    triple-quoted. *)
Definition string_value (v : MetaVariable) : option string :=
  match MetaVar.get_string v with
  | Some s => Some s
  | None => MetaVar.get_StringData v
  end.

(** [n'] is the slot [n], possibly marked as declared inside a variant. *)
Definition marked_or_same (n n' : PrimNode.t) : Prop :=
  n' = n ∨ n' = PrimNode.set_parent_is_variant true n.

(** [st'] differs from [st] at most in the diagnostic strings and in
    [parent_is_variant] marks set in slots of the PrimNode store. *)
Definition same_but_variant_marks (st st' : Impl.t) : Prop :=
  ∃ e w nodes',
    st' = Impl.set_warn w (Impl.set_err e (Impl.set_prim_nodes nodes' st))
    ∧ Forall2 marked_or_same (Impl._prim_nodes st) nodes'.

(** The child list of the slot [j] of a store; empty outside it. *)
Definition slot_children (prim_nodes : list PrimNode.t) (j : Z) : list Z :=
  default [] (PrimNode.children <$> vector_at prim_nodes j).

(** The slot [c] of the store exists and is marked as declared inside a
    variant. *)
Definition marked_in_variant (prim_nodes : list PrimNode.t) (c : Z) : Prop :=
  PrimNode.parent_is_variant <$> vector_at prim_nodes c = Some true.

(** [c] is a slot of a store of [size] slots that [st] marks as declared
    inside a variant. *)
Definition recorded (size : Z) (st : Impl.t) (c : Z) : Prop :=
  0 ≤ c < size ∧ marked_in_variant (Impl._prim_nodes st) c.

(** ** The C API: [src/c-tinyusd.cc]

    The tables of the value types and of the Prim types, and the string
    and buffer handles. *)

(** The enumerators of [CTinyUSDValueType] (c-tinyusd.h) that the
    switches of c-tinyusd.cc name, in their order. *)
Inductive CTinyUSDValueType :=
| C_TINYUSD_VALUE_BOOL
| C_TINYUSD_VALUE_TOKEN
| C_TINYUSD_VALUE_STRING
| C_TINYUSD_VALUE_HALF
| C_TINYUSD_VALUE_HALF2
| C_TINYUSD_VALUE_HALF3
| C_TINYUSD_VALUE_HALF4
| C_TINYUSD_VALUE_INT
| C_TINYUSD_VALUE_INT2
| C_TINYUSD_VALUE_INT3
| C_TINYUSD_VALUE_INT4
| C_TINYUSD_VALUE_UINT
| C_TINYUSD_VALUE_UINT2
| C_TINYUSD_VALUE_UINT3
| C_TINYUSD_VALUE_UINT4
| C_TINYUSD_VALUE_INT64
| C_TINYUSD_VALUE_UINT64
| C_TINYUSD_VALUE_FLOAT
| C_TINYUSD_VALUE_FLOAT2
| C_TINYUSD_VALUE_FLOAT3
| C_TINYUSD_VALUE_FLOAT4
| C_TINYUSD_VALUE_DOUBLE
| C_TINYUSD_VALUE_DOUBLE2
| C_TINYUSD_VALUE_DOUBLE3
| C_TINYUSD_VALUE_DOUBLE4
| C_TINYUSD_VALUE_QUATH
| C_TINYUSD_VALUE_QUATF
| C_TINYUSD_VALUE_QUATD
| C_TINYUSD_VALUE_NORMAL3H
| C_TINYUSD_VALUE_NORMAL3F
| C_TINYUSD_VALUE_NORMAL3D
| C_TINYUSD_VALUE_VECTOR3H
| C_TINYUSD_VALUE_VECTOR3F
| C_TINYUSD_VALUE_VECTOR3D
| C_TINYUSD_VALUE_POINT3H
| C_TINYUSD_VALUE_POINT3F
| C_TINYUSD_VALUE_POINT3D
| C_TINYUSD_VALUE_TEXCOORD2H
| C_TINYUSD_VALUE_TEXCOORD2F
| C_TINYUSD_VALUE_TEXCOORD2D
| C_TINYUSD_VALUE_TEXCOORD3H
| C_TINYUSD_VALUE_TEXCOORD3F
| C_TINYUSD_VALUE_TEXCOORD3D
| C_TINYUSD_VALUE_COLOR3H
| C_TINYUSD_VALUE_COLOR3F
| C_TINYUSD_VALUE_COLOR3D
| C_TINYUSD_VALUE_COLOR4H
| C_TINYUSD_VALUE_COLOR4F
| C_TINYUSD_VALUE_COLOR4D
| C_TINYUSD_VALUE_MATRIX2D
| C_TINYUSD_VALUE_MATRIX3D
| C_TINYUSD_VALUE_MATRIX4D
| C_TINYUSD_VALUE_FRAME4D
| C_TINYUSD_VALUE_END.

Definition all_value_types : list CTinyUSDValueType :=
  [ C_TINYUSD_VALUE_BOOL; C_TINYUSD_VALUE_TOKEN; C_TINYUSD_VALUE_STRING;
    C_TINYUSD_VALUE_HALF; C_TINYUSD_VALUE_HALF2; C_TINYUSD_VALUE_HALF3;
    C_TINYUSD_VALUE_HALF4; C_TINYUSD_VALUE_INT; C_TINYUSD_VALUE_INT2;
    C_TINYUSD_VALUE_INT3; C_TINYUSD_VALUE_INT4; C_TINYUSD_VALUE_UINT;
    C_TINYUSD_VALUE_UINT2; C_TINYUSD_VALUE_UINT3; C_TINYUSD_VALUE_UINT4;
    C_TINYUSD_VALUE_INT64; C_TINYUSD_VALUE_UINT64; C_TINYUSD_VALUE_FLOAT;
    C_TINYUSD_VALUE_FLOAT2; C_TINYUSD_VALUE_FLOAT3; C_TINYUSD_VALUE_FLOAT4;
    C_TINYUSD_VALUE_DOUBLE; C_TINYUSD_VALUE_DOUBLE2; C_TINYUSD_VALUE_DOUBLE3;
    C_TINYUSD_VALUE_DOUBLE4; C_TINYUSD_VALUE_QUATH; C_TINYUSD_VALUE_QUATF;
    C_TINYUSD_VALUE_QUATD; C_TINYUSD_VALUE_NORMAL3H;
    C_TINYUSD_VALUE_NORMAL3F; C_TINYUSD_VALUE_NORMAL3D;
    C_TINYUSD_VALUE_VECTOR3H; C_TINYUSD_VALUE_VECTOR3F;
    C_TINYUSD_VALUE_VECTOR3D; C_TINYUSD_VALUE_POINT3H;
    C_TINYUSD_VALUE_POINT3F; C_TINYUSD_VALUE_POINT3D;
    C_TINYUSD_VALUE_TEXCOORD2H; C_TINYUSD_VALUE_TEXCOORD2F;
    C_TINYUSD_VALUE_TEXCOORD2D; C_TINYUSD_VALUE_TEXCOORD3H;
    C_TINYUSD_VALUE_TEXCOORD3F; C_TINYUSD_VALUE_TEXCOORD3D;
    C_TINYUSD_VALUE_COLOR3H; C_TINYUSD_VALUE_COLOR3F;
    C_TINYUSD_VALUE_COLOR3D; C_TINYUSD_VALUE_COLOR4H;
    C_TINYUSD_VALUE_COLOR4F; C_TINYUSD_VALUE_COLOR4D;
    C_TINYUSD_VALUE_MATRIX2D; C_TINYUSD_VALUE_MATRIX3D;
    C_TINYUSD_VALUE_MATRIX4D; C_TINYUSD_VALUE_FRAME4D; C_TINYUSD_VALUE_END ].

(** The sizes of the scalar types on the platforms the library is built
    for (8-bit bytes, 32-bit [int], IEEE 754 [float] and [double]). *)
Definition sizeof_uint16_t : Z := 2.
Definition sizeof_int : Z := 4.
Definition sizeof_uint32_t : Z := 4.
Definition sizeof_int64_t : Z := 8.
Definition sizeof_uint64_t : Z := 8.
Definition sizeof_float : Z := 4.
Definition sizeof_double : Z := 8.

(** The [switch] of [c_tinyusd_value_type_name]. *)
Definition value_type_tyname (e : CTinyUSDValueType) : string :=
  match e with
  | C_TINYUSD_VALUE_BOOL => "bool"
  | C_TINYUSD_VALUE_TOKEN => "token"
  | C_TINYUSD_VALUE_STRING => "string"
  | C_TINYUSD_VALUE_HALF => "half"
  | C_TINYUSD_VALUE_HALF2 => "half2"
  | C_TINYUSD_VALUE_HALF3 => "half3"
  | C_TINYUSD_VALUE_HALF4 => "half4"
  | C_TINYUSD_VALUE_INT => "int"
  | C_TINYUSD_VALUE_INT2 => "int2"
  | C_TINYUSD_VALUE_INT3 => "int3"
  | C_TINYUSD_VALUE_INT4 => "int4"
  | C_TINYUSD_VALUE_UINT => "uint"
  | C_TINYUSD_VALUE_UINT2 => "uint2"
  | C_TINYUSD_VALUE_UINT3 => "uint3"
  | C_TINYUSD_VALUE_UINT4 => "uint4"
  | C_TINYUSD_VALUE_INT64 => "int64"
  | C_TINYUSD_VALUE_UINT64 => "uint64"
  | C_TINYUSD_VALUE_FLOAT => "float"
  | C_TINYUSD_VALUE_FLOAT2 => "float2"
  | C_TINYUSD_VALUE_FLOAT3 => "float3"
  | C_TINYUSD_VALUE_FLOAT4 => "float4"
  | C_TINYUSD_VALUE_DOUBLE => "double"
  | C_TINYUSD_VALUE_DOUBLE2 => "double2"
  | C_TINYUSD_VALUE_DOUBLE3 => "double3"
  | C_TINYUSD_VALUE_DOUBLE4 => "double4"
  | C_TINYUSD_VALUE_QUATH => "quath"
  | C_TINYUSD_VALUE_QUATF => "quatf"
  | C_TINYUSD_VALUE_QUATD => "quatd"
  | C_TINYUSD_VALUE_NORMAL3H => "normal3h"
  | C_TINYUSD_VALUE_NORMAL3F => "normal3f"
  | C_TINYUSD_VALUE_NORMAL3D => "normal3d"
  | C_TINYUSD_VALUE_VECTOR3H => "vector3h"
  | C_TINYUSD_VALUE_VECTOR3F => "vector3f"
  | C_TINYUSD_VALUE_VECTOR3D => "vector3d"
  | C_TINYUSD_VALUE_POINT3H => "point3h"
  | C_TINYUSD_VALUE_POINT3F => "point3f"
  | C_TINYUSD_VALUE_POINT3D => "point3d"
  | C_TINYUSD_VALUE_TEXCOORD2H => "texCoord2h"
  | C_TINYUSD_VALUE_TEXCOORD2F => "texCoord2f"
  | C_TINYUSD_VALUE_TEXCOORD2D => "texCoord2d"
  | C_TINYUSD_VALUE_TEXCOORD3H => "texCoord3h"
  | C_TINYUSD_VALUE_TEXCOORD3F => "texCoord3f"
  | C_TINYUSD_VALUE_TEXCOORD3D => "texCoord3d"
  | C_TINYUSD_VALUE_COLOR3H => "color3h"
  | C_TINYUSD_VALUE_COLOR3F => "color3f"
  | C_TINYUSD_VALUE_COLOR3D => "color3d"
  | C_TINYUSD_VALUE_COLOR4H => "color4h"
  | C_TINYUSD_VALUE_COLOR4F => "color4f"
  | C_TINYUSD_VALUE_COLOR4D => "color4d"
  | C_TINYUSD_VALUE_MATRIX2D => "matrix2d"
  | C_TINYUSD_VALUE_MATRIX3D => "matrix2d"
  | C_TINYUSD_VALUE_MATRIX4D => "matrix2d"
  | C_TINYUSD_VALUE_FRAME4D => "frame4d"
  | C_TINYUSD_VALUE_END => "[invalid]"
  end.

(** The [switch] of [c_tinyusd_value_type_components]. *)
Definition value_type_components_case (e : CTinyUSDValueType) : Z :=
  match e with
  | C_TINYUSD_VALUE_BOOL => 1
  | C_TINYUSD_VALUE_TOKEN => 0
  | C_TINYUSD_VALUE_STRING => 0
  | C_TINYUSD_VALUE_HALF => 1
  | C_TINYUSD_VALUE_HALF2 => 2
  | C_TINYUSD_VALUE_HALF3 => 3
  | C_TINYUSD_VALUE_HALF4 => 4
  | C_TINYUSD_VALUE_INT => 1
  | C_TINYUSD_VALUE_INT2 => 2
  | C_TINYUSD_VALUE_INT3 => 3
  | C_TINYUSD_VALUE_INT4 => 4
  | C_TINYUSD_VALUE_UINT => 1
  | C_TINYUSD_VALUE_UINT2 => 2
  | C_TINYUSD_VALUE_UINT3 => 3
  | C_TINYUSD_VALUE_UINT4 => 4
  | C_TINYUSD_VALUE_INT64 => 1
  | C_TINYUSD_VALUE_UINT64 => 1
  | C_TINYUSD_VALUE_FLOAT => 1
  | C_TINYUSD_VALUE_FLOAT2 => 2
  | C_TINYUSD_VALUE_FLOAT3 => 3
  | C_TINYUSD_VALUE_FLOAT4 => 4
  | C_TINYUSD_VALUE_DOUBLE => 1
  | C_TINYUSD_VALUE_DOUBLE2 => 2
  | C_TINYUSD_VALUE_DOUBLE3 => 3
  | C_TINYUSD_VALUE_DOUBLE4 => 4
  | C_TINYUSD_VALUE_QUATH => 4
  | C_TINYUSD_VALUE_QUATF => 4
  | C_TINYUSD_VALUE_QUATD => 4
  | C_TINYUSD_VALUE_NORMAL3H => 3
  | C_TINYUSD_VALUE_NORMAL3F => 3
  | C_TINYUSD_VALUE_NORMAL3D => 3
  | C_TINYUSD_VALUE_VECTOR3H => 3
  | C_TINYUSD_VALUE_VECTOR3F => 3
  | C_TINYUSD_VALUE_VECTOR3D => 3
  | C_TINYUSD_VALUE_POINT3H => 3
  | C_TINYUSD_VALUE_POINT3F => 3
  | C_TINYUSD_VALUE_POINT3D => 3
  | C_TINYUSD_VALUE_TEXCOORD2H => 2
  | C_TINYUSD_VALUE_TEXCOORD2F => 2
  | C_TINYUSD_VALUE_TEXCOORD2D => 2
  | C_TINYUSD_VALUE_TEXCOORD3H => 3
  | C_TINYUSD_VALUE_TEXCOORD3F => 3
  | C_TINYUSD_VALUE_TEXCOORD3D => 3
  | C_TINYUSD_VALUE_COLOR3H => 3
  | C_TINYUSD_VALUE_COLOR3F => 3
  | C_TINYUSD_VALUE_COLOR3D => 3
  | C_TINYUSD_VALUE_COLOR4H => 4
  | C_TINYUSD_VALUE_COLOR4F => 4
  | C_TINYUSD_VALUE_COLOR4D => 4
  | C_TINYUSD_VALUE_MATRIX2D => 2 * 2
  | C_TINYUSD_VALUE_MATRIX3D => 3 * 3
  | C_TINYUSD_VALUE_MATRIX4D => 4 * 4
  | C_TINYUSD_VALUE_FRAME4D => 4 * 4
  | C_TINYUSD_VALUE_END => 0
  end.

(** The [switch] of [c_tinyusd_value_type_sizeof]. *)
Definition value_type_sizeof_case (e : CTinyUSDValueType) : Z :=
  match e with
  | C_TINYUSD_VALUE_BOOL => 1
  | C_TINYUSD_VALUE_TOKEN => 0
  | C_TINYUSD_VALUE_STRING => 0
  | C_TINYUSD_VALUE_HALF => sizeof_uint16_t
  | C_TINYUSD_VALUE_HALF2 => sizeof_uint16_t * 2
  | C_TINYUSD_VALUE_HALF3 => sizeof_uint16_t * 3
  | C_TINYUSD_VALUE_HALF4 => sizeof_uint16_t * 4
  | C_TINYUSD_VALUE_INT => sizeof_int
  | C_TINYUSD_VALUE_INT2 => sizeof_int * 2
  | C_TINYUSD_VALUE_INT3 => sizeof_int * 3
  | C_TINYUSD_VALUE_INT4 => sizeof_int * 4
  | C_TINYUSD_VALUE_UINT => sizeof_uint32_t
  | C_TINYUSD_VALUE_UINT2 => sizeof_uint32_t * 2
  | C_TINYUSD_VALUE_UINT3 => sizeof_uint32_t * 3
  | C_TINYUSD_VALUE_UINT4 => sizeof_uint32_t * 4
  | C_TINYUSD_VALUE_INT64 => sizeof_int64_t
  | C_TINYUSD_VALUE_UINT64 => sizeof_uint64_t
  | C_TINYUSD_VALUE_FLOAT => sizeof_float
  | C_TINYUSD_VALUE_FLOAT2 => sizeof_float * 2
  | C_TINYUSD_VALUE_FLOAT3 => sizeof_float * 3
  | C_TINYUSD_VALUE_FLOAT4 => sizeof_float * 4
  | C_TINYUSD_VALUE_DOUBLE => sizeof_double
  | C_TINYUSD_VALUE_DOUBLE2 => sizeof_double * 2
  | C_TINYUSD_VALUE_DOUBLE3 => sizeof_double * 3
  | C_TINYUSD_VALUE_DOUBLE4 => sizeof_double * 4
  | C_TINYUSD_VALUE_QUATH => sizeof_uint16_t * 4
  | C_TINYUSD_VALUE_QUATF => sizeof_float * 4
  | C_TINYUSD_VALUE_QUATD => sizeof_double * 4
  | C_TINYUSD_VALUE_NORMAL3H => sizeof_uint16_t * 3
  | C_TINYUSD_VALUE_NORMAL3F => sizeof_float * 3
  | C_TINYUSD_VALUE_NORMAL3D => sizeof_double * 3
  | C_TINYUSD_VALUE_VECTOR3H => sizeof_uint16_t * 3
  | C_TINYUSD_VALUE_VECTOR3F => sizeof_float * 3
  | C_TINYUSD_VALUE_VECTOR3D => sizeof_double * 3
  | C_TINYUSD_VALUE_POINT3H => sizeof_uint16_t * 3
  | C_TINYUSD_VALUE_POINT3F => sizeof_float * 3
  | C_TINYUSD_VALUE_POINT3D => sizeof_double * 3
  | C_TINYUSD_VALUE_TEXCOORD2H => sizeof_uint16_t * 2
  | C_TINYUSD_VALUE_TEXCOORD2F => sizeof_float * 2
  | C_TINYUSD_VALUE_TEXCOORD2D => sizeof_double * 2
  | C_TINYUSD_VALUE_TEXCOORD3H => sizeof_uint16_t * 3
  | C_TINYUSD_VALUE_TEXCOORD3F => sizeof_float * 3
  | C_TINYUSD_VALUE_TEXCOORD3D => sizeof_double * 3
  | C_TINYUSD_VALUE_COLOR3H => sizeof_uint16_t * 3
  | C_TINYUSD_VALUE_COLOR3F => sizeof_float * 3
  | C_TINYUSD_VALUE_COLOR3D => sizeof_double * 3
  | C_TINYUSD_VALUE_COLOR4H => sizeof_uint16_t * 4
  | C_TINYUSD_VALUE_COLOR4F => sizeof_float * 4
  | C_TINYUSD_VALUE_COLOR4D => sizeof_double * 4
  | C_TINYUSD_VALUE_MATRIX2D => sizeof_double * 2 * 2
  | C_TINYUSD_VALUE_MATRIX3D => sizeof_double * 3 * 3
  | C_TINYUSD_VALUE_MATRIX4D => sizeof_double * 4 * 4
  | C_TINYUSD_VALUE_FRAME4D => sizeof_double * 4 * 4
  | C_TINYUSD_VALUE_END => 0
  end.

(** The enumerators of [CTinyUSDPrimType] (c-tinyusd.h). *)
Inductive CTinyUSDPrimType :=
| C_TINYUSD_PRIM_UNKNOWN
| C_TINYUSD_PRIM_MODEL
| C_TINYUSD_PRIM_XFORM
| C_TINYUSD_PRIM_MESH
| C_TINYUSD_PRIM_GEOMSUBSET
| C_TINYUSD_PRIM_MATERIAL
| C_TINYUSD_PRIM_SHADER
| C_TINYUSD_PRIM_CAMERA
| C_TINYUSD_PRIM_SPHERE_LIGHT
| C_TINYUSD_PRIM_DISTANT_LIGHT
| C_TINYUSD_PRIM_RECT_LIGHT
| C_TINYUSD_PRIM_END.

(** What c-tinyusd.cc takes from headers that are not among the sources:
    the array bit and the numeric values of the value-type enumerators
    (c-tinyusd.h), and the schema-name constants (usdGeom.hh, usdShade.hh,
    usdLux.hh). *)
Class CTinyUSDHeader := {
  C_TINYUSD_VALUE_1D_BIT : Z;
  value_type_code : CTinyUSDValueType → Z;
  kGeomXform : string;
  kGeomMesh : string;
  kGeomSubset : string;
  kGeomCamera : string;
  kMaterial : string;
  kShader : string;
  kSphereLight : string;
  kDistantLight : string;
  kRectLight : string
}.

(** [strlen]: the number of characters before the first NUL. *)
Fixpoint strlen (s : string) : nat :=
  match s with
  | EmptyString => 0%nat
  | String c s' =>
      if Ascii.eqb c (Ascii.ascii_of_nat 0) then 0%nat else S (strlen s')
  end.

(** [strncpy(buf, s, n)] followed by a terminator at [buf[n]], for
    [n <= strlen(s)]: the first [n] characters of [s]. *)
Definition first_chars (n : nat) (s : string) : string :=
  String.substring 0 n s.

Section CApi.
Context `{CTinyUSDHeader}.

(** [static_cast<CTinyUSDValueType>(basety)] under a [switch]: the
    enumerator whose value is [basety], if there is one. *)
Definition value_type_of_code (basety : Z) : option CTinyUSDValueType :=
  List.find (λ e, Z.eqb (value_type_code e) basety) all_value_types.

(** [value_type & (~C_TINYUSD_VALUE_1D_BIT)] *)
Definition drop_array_bit (value_type : Z) : Z :=
  Z.land value_type (Z.lnot C_TINYUSD_VALUE_1D_BIT).

(** [value_type & C_TINYUSD_VALUE_1D_BIT], as a [bool] *)
Definition has_array_bit (value_type : Z) : bool :=
  negb (Z.eqb (Z.land value_type C_TINYUSD_VALUE_1D_BIT) 0).

Definition c_tinyusd_value_type_name (value_type : Z) : string :=
  let is_array := has_array_bit value_type in
  let basety := drop_array_bit value_type in
  let tyname :=
    match value_type_of_code basety with
    | Some e => value_type_tyname e
    | None => "[invalid]"
    end in
  let sz := strlen tyname in
  let sz := if bool_decide (31 < sz)%nat then 31%nat else sz in
  if is_array then
    let sz := if bool_decide (29 < sz)%nat then 29%nat else sz in
    first_chars sz tyname +:+ "[]"
  else first_chars sz tyname.

Definition c_tinyusd_value_type_components (value_type : Z) : Z :=
  match value_type_of_code (drop_array_bit value_type) with
  | Some e => value_type_components_case e
  | None => 0
  end.

Definition c_tinyusd_value_type_sizeof (value_type : Z) : Z :=
  match value_type_of_code (drop_array_bit value_type) with
  | Some e => value_type_sizeof_case e
  | None => 0
  end.

(** The name copied into the 32-byte buffer. *)
Definition prim_type_name_buffer (tyname : string) : string :=
  let sz := strlen tyname in
  let sz := if bool_decide (31 < sz)%nat then 31%nat else sz in
  first_chars sz tyname.

(** [c_tinyusd_prim_type_name]; [None] is [nullptr]. *)
Definition c_tinyusd_prim_type_name (prim_type : CTinyUSDPrimType)
  : option string :=
  match prim_type with
  | C_TINYUSD_PRIM_UNKNOWN => None
  | C_TINYUSD_PRIM_MODEL => Some (prim_type_name_buffer "")
  | C_TINYUSD_PRIM_XFORM => Some (prim_type_name_buffer kGeomXform)
  | C_TINYUSD_PRIM_MESH => Some (prim_type_name_buffer kGeomMesh)
  | C_TINYUSD_PRIM_GEOMSUBSET => Some (prim_type_name_buffer kGeomSubset)
  | C_TINYUSD_PRIM_MATERIAL => Some (prim_type_name_buffer kMaterial)
  | C_TINYUSD_PRIM_SHADER => Some (prim_type_name_buffer kShader)
  | C_TINYUSD_PRIM_CAMERA => Some (prim_type_name_buffer kGeomCamera)
  | C_TINYUSD_PRIM_SPHERE_LIGHT => Some (prim_type_name_buffer kSphereLight)
  | C_TINYUSD_PRIM_DISTANT_LIGHT =>
      Some (prim_type_name_buffer kDistantLight)
  | C_TINYUSD_PRIM_RECT_LIGHT => Some (prim_type_name_buffer kRectLight)
  | C_TINYUSD_PRIM_END => None
  end.

Definition c_tinyusd_prim_type_from_string (type_name : string)
  : CTinyUSDPrimType :=
  if String.eqb type_name "Model" then C_TINYUSD_PRIM_MODEL
  else if String.eqb type_name kGeomXform then C_TINYUSD_PRIM_XFORM
  else if String.eqb type_name kGeomMesh then C_TINYUSD_PRIM_MESH
  else if String.eqb type_name kGeomSubset then C_TINYUSD_PRIM_GEOMSUBSET
  else if String.eqb type_name kGeomCamera then C_TINYUSD_PRIM_CAMERA
  else if String.eqb type_name kMaterial then C_TINYUSD_PRIM_MATERIAL
  else if String.eqb type_name kShader then C_TINYUSD_PRIM_SHADER
  else if String.eqb type_name kSphereLight then C_TINYUSD_PRIM_SPHERE_LIGHT
  else if String.eqb type_name kDistantLight
  then C_TINYUSD_PRIM_DISTANT_LIGHT
  else if String.eqb type_name kRectLight then C_TINYUSD_PRIM_RECT_LIGHT
  else C_TINYUSD_PRIM_UNKNOWN.

End CApi.

(** [c_tinyusd_string]: a handle whose [data] is null or points to a
    [std::string]. *)
Record c_tinyusd_string := mk_c_tinyusd_string {
  string_data : option string
}.

(** [CTinyUSDBuffer], as far as the copy functions write it: [data] is
    null or points to the bytes allocated for it. *)
Record CTinyUSDBuffer := mk_CTinyUSDBuffer {
  buffer_value_type : Z;
  buffer_ndim : Z;
  buffer_data : option string
}.

(** [std::string(str)] for a C string [str]: the characters before the
    terminator. *)
Definition std_string_of (str : string) : string :=
  first_chars (strlen str) str.

(** A pointer argument is [None] when it is null; a function returns its
    [int] result and the object behind the pointer. *)

Definition c_tinyusd_string_new (s : option c_tinyusd_string)
  (str : option string) : Z * option c_tinyusd_string :=
  match s with
  | None => (0, None)
  | Some _ =>
      match str with
      | Some p => (1, Some (mk_c_tinyusd_string (Some (std_string_of p))))
      | None => (1, Some (mk_c_tinyusd_string (Some "")))
      end
  end.

Definition c_tinyusd_string_size (s : option c_tinyusd_string) : Z :=
  match s with
  | None => 0
  | Some x =>
      match string_data x with
      | None => 0
      | Some p => Z.of_nat (String.length p)
      end
  end.

Definition c_tinyusd_string_replace (s : option c_tinyusd_string)
  (str : option string) : Z * option c_tinyusd_string :=
  match s with
  | None => (0, None)
  | Some x =>
      match str with
      | None => (0, Some x)
      | Some p =>
          match string_data x with
          | None => (0, Some x)
          | Some _ => (1, Some (mk_c_tinyusd_string (Some (std_string_of p))))
          end
      end
  end.

Definition c_tinyusd_string_free (s : option c_tinyusd_string)
  : Z * option c_tinyusd_string :=
  match s with
  | None => (0, None)
  | Some _ => (1, Some (mk_c_tinyusd_string None))
  end.

(** [c_tinyusd_string_str]: [None] is [nullptr]; otherwise the characters
    that [c_str()] points to. *)
Definition c_tinyusd_string_str (s : option c_tinyusd_string)
  : option string :=
  match s with
  | None => None
  | Some x => string_data x
  end.

Section CBuffers.
Context `{CTinyUSDHeader}.

(** [c_tinyusd_buffer_new_and_copy_string]; the outer [None] is
    [strlen(nullptr)]. *)
Definition c_tinyusd_buffer_new_and_copy_string
  (buf : option CTinyUSDBuffer) (str : option c_tinyusd_string)
  : option (Z * option CTinyUSDBuffer) :=
  match buf with
  | None => Some (0, None)
  | Some b =>
      match str with
      | None => Some (0, Some b)
      | Some _ =>
          let sz := c_tinyusd_string_size str in
          let value_type := value_type_code C_TINYUSD_VALUE_STRING in
          if Z.eqb sz 0 then
            Some (1, Some (mk_CTinyUSDBuffer value_type 0 None))
          else
            match c_tinyusd_string_str str with
            | None => None
            | Some s =>
                if negb (Z.eqb (Z.of_nat (strlen s)) sz) then
                  Some (0,
                        Some (mk_CTinyUSDBuffer value_type 0 (buffer_data b)))
                else
                  Some (1,
                        Some
                          (mk_CTinyUSDBuffer value_type 0
                             (Some (first_chars (Z.to_nat sz) s))))
            end
      end
  end.

End CBuffers.

(** A sample of c-tinyusd.h and of the schema headers: the value-type
    enumerators numbered from 1 in their order, the array bit [1 << 10] and
    the schema names of USD. *)
Definition sample_value_type_code (e : CTinyUSDValueType) : Z :=
  match e with
  | C_TINYUSD_VALUE_BOOL => 1
  | C_TINYUSD_VALUE_TOKEN => 2
  | C_TINYUSD_VALUE_STRING => 3
  | C_TINYUSD_VALUE_HALF => 4
  | C_TINYUSD_VALUE_HALF2 => 5
  | C_TINYUSD_VALUE_HALF3 => 6
  | C_TINYUSD_VALUE_HALF4 => 7
  | C_TINYUSD_VALUE_INT => 8
  | C_TINYUSD_VALUE_INT2 => 9
  | C_TINYUSD_VALUE_INT3 => 10
  | C_TINYUSD_VALUE_INT4 => 11
  | C_TINYUSD_VALUE_UINT => 12
  | C_TINYUSD_VALUE_UINT2 => 13
  | C_TINYUSD_VALUE_UINT3 => 14
  | C_TINYUSD_VALUE_UINT4 => 15
  | C_TINYUSD_VALUE_INT64 => 16
  | C_TINYUSD_VALUE_UINT64 => 17
  | C_TINYUSD_VALUE_FLOAT => 18
  | C_TINYUSD_VALUE_FLOAT2 => 19
  | C_TINYUSD_VALUE_FLOAT3 => 20
  | C_TINYUSD_VALUE_FLOAT4 => 21
  | C_TINYUSD_VALUE_DOUBLE => 22
  | C_TINYUSD_VALUE_DOUBLE2 => 23
  | C_TINYUSD_VALUE_DOUBLE3 => 24
  | C_TINYUSD_VALUE_DOUBLE4 => 25
  | C_TINYUSD_VALUE_QUATH => 26
  | C_TINYUSD_VALUE_QUATF => 27
  | C_TINYUSD_VALUE_QUATD => 28
  | C_TINYUSD_VALUE_NORMAL3H => 29
  | C_TINYUSD_VALUE_NORMAL3F => 30
  | C_TINYUSD_VALUE_NORMAL3D => 31
  | C_TINYUSD_VALUE_VECTOR3H => 32
  | C_TINYUSD_VALUE_VECTOR3F => 33
  | C_TINYUSD_VALUE_VECTOR3D => 34
  | C_TINYUSD_VALUE_POINT3H => 35
  | C_TINYUSD_VALUE_POINT3F => 36
  | C_TINYUSD_VALUE_POINT3D => 37
  | C_TINYUSD_VALUE_TEXCOORD2H => 38
  | C_TINYUSD_VALUE_TEXCOORD2F => 39
  | C_TINYUSD_VALUE_TEXCOORD2D => 40
  | C_TINYUSD_VALUE_TEXCOORD3H => 41
  | C_TINYUSD_VALUE_TEXCOORD3F => 42
  | C_TINYUSD_VALUE_TEXCOORD3D => 43
  | C_TINYUSD_VALUE_COLOR3H => 44
  | C_TINYUSD_VALUE_COLOR3F => 45
  | C_TINYUSD_VALUE_COLOR3D => 46
  | C_TINYUSD_VALUE_COLOR4H => 47
  | C_TINYUSD_VALUE_COLOR4F => 48
  | C_TINYUSD_VALUE_COLOR4D => 49
  | C_TINYUSD_VALUE_MATRIX2D => 50
  | C_TINYUSD_VALUE_MATRIX3D => 51
  | C_TINYUSD_VALUE_MATRIX4D => 52
  | C_TINYUSD_VALUE_FRAME4D => 53
  | C_TINYUSD_VALUE_END => 54
  end.

Definition sample_header : CTinyUSDHeader := {|
  C_TINYUSD_VALUE_1D_BIT := 2 ^ 10;
  value_type_code := sample_value_type_code;
  kGeomXform := "Xform";
  kGeomMesh := "Mesh";
  kGeomSubset := "GeomSubset";
  kGeomCamera := "Camera";
  kMaterial := "Material";
  kShader := "Shader";
  kSphereLight := "SphereLight";
  kDistantLight := "DistantLight";
  kRectLight := "RectLight"
|}.

(** The schema-name constants that [c_tinyusd_prim_type_from_string]
    compares its argument with, after ["Model"]. *)
Definition prim_type_constants `{CTinyUSDHeader} : list string :=
  [ kGeomXform; kGeomMesh; kGeomSubset; kGeomCamera; kMaterial; kShader;
    kSphereLight; kDistantLight; kRectLight ].

(** The prim types that have a schema-name constant. *)
Definition named_prim_types : list CTinyUSDPrimType :=
  [ C_TINYUSD_PRIM_XFORM; C_TINYUSD_PRIM_MESH; C_TINYUSD_PRIM_GEOMSUBSET;
    C_TINYUSD_PRIM_CAMERA; C_TINYUSD_PRIM_MATERIAL; C_TINYUSD_PRIM_SHADER;
    C_TINYUSD_PRIM_SPHERE_LIGHT; C_TINYUSD_PRIM_DISTANT_LIGHT;
    C_TINYUSD_PRIM_RECT_LIGHT ].

(** ** Sample inputs of the further properties *)

(** The reader that a callback leaves, and a fresh one if the callback
    runs into undefined behaviour. *)
Definition reader_left_by (r : option (expected bool * Impl.t)) : Impl.t :=
  match r with Some (_, st) => st | None => Impl.init end.

(** [def Xform "C" {}] in slot 1, a child of slot 0. *)
Definition child_args : PrimArgs.t := prim_args "Xform" "C" 1 0 StdMap.empty.

Definition reader_with_child : Impl.t :=
  reader_left_by
    (PrimConstruct (H := sample_collaborators) Xform child_args
       reader_with_two_slots).

(** [def Xform "A"] in slot 0 with the variant set "v" = {"a", "b"}, the
    Prim of slot 1 being declared inside "a". *)
Definition root_args : PrimArgs.t :=
  prim_args "Xform" "A" 0 (-1)
    [("v", [("a", variant_of [1]); ("b", variant_of [])])].

Definition reader_with_root : Impl.t :=
  reader_left_by
    (PrimConstruct (H := sample_collaborators) Xform root_args
       reader_with_child).

(** The same with a variant "b" that lists an index outside the store. *)
Definition root_args_bad_variant : PrimArgs.t :=
  prim_args "Xform" "A" 0 (-1)
    [("v", [("a", variant_of [1]); ("b", variant_of [7])])].

Definition reader_after_bad_variant : Impl.t :=
  reader_left_by
    (PrimConstruct (H := sample_collaborators) Xform root_args_bad_variant
       reader_with_child).

(** [def GeomSubset "S" {}] in slot 1, a child of slot 0. *)
Definition subset_args : PrimArgs.t :=
  prim_args "GeomSubset" "S" 1 0 StdMap.empty.

Definition reader_with_subset : Impl.t :=
  reader_left_by
    (PrimConstruct_GeomSubset (H := sample_collaborators) subset_args
       reader_with_two_slots).

(** [def Xform "A" {}] as the PrimSpec callback receives it. *)
Definition primspec_args : PrimArgs.t :=
  prim_args "Xform" "A" 0 (-1) StdMap.empty.

Definition reader_with_primspec : Impl.t :=
  reader_left_by (PrimSpecFunction primspec_args Impl.init).

(** A Prim header without a name. *)
Definition nameless_args : PrimArgs.t :=
  PrimArgs.mk (element_path "/") Def "Xform"
    (Path.mk true false false "" "" "") 0 (-1) StdMap.empty StdMap.empty
    StdMap.empty.

(** Stage metadata with an up axis and [playbackMode = "loop"]. *)
Definition sample_stage_metas : ParserStageMetas.t :=
  ParserStageMetas.mk "doc" (Some AxisY) "" [] "A" None None None None None
    None (Some "loop") StdMap.empty.

Definition sample_string_value : MetaVariable :=
  MkMetaVariable "string" 0 (held_string "x").

Definition sample_token_array (toks : list string) : MetaVariable :=
  MkMetaVariable "token[]" 0 (held_token_array toks).

(** The reader after [Read] over the variant-splicing sample, and after
    [ReconstructStage] on it. *)
Definition splicing_reader : Impl.t :=
  reader_after run_variant_splicing LoadState_Toplevel.

Definition splicing_stage_reader : Impl.t :=
  match ReconstructStage (H := sample_collaborators) 3 splicing_reader with
  | Returns (_, st) => st
  | Diverge => Impl.init
  end.

(** A metadata map with a key that the reader does not know, and one with
    an [active] entry of the wrong type. *)
Definition unknown_key_meta : PrimMetaMap :=
  [("foo", (ResetToExplicit, sample_int_value))].

Definition rejected_meta : PrimMetaMap :=
  [("active", (ResetToExplicit, sample_int_value))].

(** An [apiSchemas] entry with the qualifier [append]. *)
Definition appended_apiSchemas : PrimMetaMap :=
  [("apiSchemas", (Append, sample_token_array ["SkelBindingAPI"]))].

(** The error that the callback returns for [root_args_bad_variant]. *)
Definition bad_variant_error : string :=
  match
    PrimConstruct (H := sample_collaborators) Xform root_args_bad_variant
      reader_with_child
  with
  | Some (Unexpected e, _) => e
  | _ => ""
  end.

Definition reader_with_metas : Impl.t :=
  (StageMetaProcess (H := sample_collaborators) sample_stage_metas
     Impl.init).2.

(** ** Properties *)

Section Diagnostics.
Context `{Collaborators}.

(** C6 (the code departs from it): a message handed to [PushWarn] is
    appended to the error string [_err], which [GetError] returns, and the
    warning string that [GetWarning] returns is left as it was. *)
Theorem PushWarn_appends_to_error_string (s : string) (st : Impl.t) :
  GetWarning (PushWarn s st) = GetWarning st
  ∧ GetError (PushWarn s st) = GetError st +:+ s.
Proof. destruct st; split; reflexivity. Qed.

End Diagnostics.

Section Allocator.

Lemma vector_resize_succ {A} (dflt : A) (v : list A) :
  vector_resize dflt v (vector_size v + 1) = v ++ [dflt].
Proof.
  unfold vector_resize, vector_size.
  rewrite bool_decide_true by lia.
  replace (Z.to_nat (Z.of_nat (length v) + 1) - length v)%nat with 1%nat
    by lia.
  reflexivity.
Qed.

Lemma PrimIdxAssign_spec (parentPrimIdx : Z) (st : Impl.t) :
  PrimIdxAssign parentPrimIdx st
  = (vector_size (Impl._prim_nodes st),
     Impl.set_prim_nodes (Impl._prim_nodes st ++ [PrimNode.default]) st).
Proof. unfold PrimIdxAssign. by rewrite vector_resize_succ. Qed.

Lemma assign_indices_spec (parents : list Z) (st : Impl.t) :
  assign_indices parents st
  = (seqZ (vector_size (Impl._prim_nodes st)) (Z.of_nat (length parents)),
     Impl.set_prim_nodes
       (Impl._prim_nodes st ++ replicate (length parents) PrimNode.default)
       st).
Proof.
  revert st. induction parents as [|p parents IH]; intros st.
  - simpl. rewrite seqZ_nil by lia. rewrite app_nil_r. by destruct st.
  - cbn [assign_indices]. rewrite PrimIdxAssign_spec, IH.
    f_equal.
    + rewrite (seqZ_cons _ (Z.of_nat (length (p :: parents))))
        by (simpl; lia).
      f_equal. destruct st; simpl. unfold vector_size.
      rewrite length_app. simpl. f_equal; lia.
    + destruct st; simpl. by rewrite <- app_assoc.
Qed.

(** C7: a call of the prim-index allocator returns the current size of
    the PrimNode store and appends one default-initialised slot, whatever
    the parent index; a sequence of [n] calls on a fresh reader returns
    0, 1, ..., n-1, without repetition, and leaves a store of [n] default
    slots. *)
Theorem PrimIdxAssign_fresh_contiguous :
  (∀ parentPrimIdx st,
     PrimIdxAssign parentPrimIdx st
     = (vector_size (Impl._prim_nodes st),
        Impl.set_prim_nodes (Impl._prim_nodes st ++ [PrimNode.default]) st))
  ∧ (∀ parents st,
       (assign_indices parents st).1
       = seqZ (vector_size (Impl._prim_nodes st))
           (Z.of_nat (length parents))
       ∧ Impl._prim_nodes (assign_indices parents st).2
         = Impl._prim_nodes st
             ++ replicate (length parents) PrimNode.default)
  ∧ (∀ parents,
       (assign_indices parents Impl.init).1
       = seqZ 0 (Z.of_nat (length parents))
       ∧ NoDup (assign_indices parents Impl.init).1).
Proof.
  split; [exact PrimIdxAssign_spec|]. split.
  - intros parents st. rewrite assign_indices_spec. split; [done|].
    by destruct st.
  - intros parents. rewrite assign_indices_spec. split; [done|].
    apply NoDup_seqZ.
Qed.

End Allocator.

Section CallbackValidation.
Context `{Collaborators}.

(** The callback registered by the generic template
    [RegisterReconstructCallback<T>] tests the element name before it
    touches the reader: an invalid name ([is_valid()] false, which is how
    [Path] reports an empty or malformed name), an absolute or root path,
    or a name with a property part makes it return an error, and the
    reader, with its PrimNode store, is left as it was. *)
Lemma PrimConstruct_rejects_bad_name (T : PrimType) (a : PrimArgs.t)
  (st : Impl.t) :
  Path.is_valid (PrimArgs.prim_name a) = false
  ∨ Path.is_absolute_path (PrimArgs.prim_name a) = true
  ∨ Path.is_root_path (PrimArgs.prim_name a) = true
  ∨ Path.prop_part (PrimArgs.prim_name a) ≠ "" →
  ∃ msg, PrimConstruct T a st = Some (Unexpected msg, st).
Proof.
  intros Hbad. unfold PrimConstruct.
  destruct (Path.is_valid (PrimArgs.prim_name a)) eqn:Hvalid; simpl;
    [|eauto].
  destruct (Path.is_absolute_path (PrimArgs.prim_name a)) eqn:Habs; simpl;
    [eauto|].
  destruct (Path.is_root_path (PrimArgs.prim_name a)) eqn:Hroot; simpl;
    [eauto|].
  destruct (String.eqb_spec (Path.prop_part (PrimArgs.prim_name a)) "")
    as [Hprop|Hprop]; simpl; [|eauto].
  destruct Hbad as [?|[?|[?|?]]]; done.
Qed.

(** C10: the GeomSubset callback returns an error and leaves the reader
    as it was whenever it is invoked with [parentPrimIdx = -1]. *)
Theorem GeomSubset_rejected_at_top_level (a : PrimArgs.t) (st : Impl.t) :
  PrimArgs.parentPrimIdx a = -1 →
  ∃ msg,
    RegisterReconstructCallback GeomSubset a st = Some (Unexpected msg, st).
Proof.
  intros Hparent. cbn [RegisterReconstructCallback].
  unfold PrimConstruct_GeomSubset. rewrite Hparent.
  destruct (Path.is_valid _); simpl; eauto.
Qed.

End CallbackValidation.

Lemma PrimConstruct_rejects_bad_name_witness :
  (Path.is_valid (Path.mk true false false "A" "x" "A.x") = false
   ∨ Path.is_absolute_path (Path.mk true false false "A" "x" "A.x") = true
   ∨ Path.is_root_path (Path.mk true false false "A" "x" "A.x") = true
   ∨ Path.prop_part (Path.mk true false false "A" "x" "A.x") ≠ "")
  ∧ ∃ msg,
      PrimConstruct (H := sample_collaborators) Xform
        (PrimArgs.mk (element_path "/A") Def "Xform"
           (Path.mk true false false "A" "x" "A.x") 0 (-1) StdMap.empty
           StdMap.empty StdMap.empty)
        Impl.init
      = Some (Unexpected msg, Impl.init).
Proof.
  split.
  - right; right; right. simpl. discriminate.
  - apply (PrimConstruct_rejects_bad_name (H := sample_collaborators)).
    right; right; right. simpl. discriminate.
Defined.

(** C9 (the code departs from it): the callback registered for GeomSubset
    is an explicit specialisation that runs none of the name tests of the
    generic template.  Invoked for the element name [S.x], which the
    callback of any other schema type (here GeomMesh) refuses with the
    reader untouched, it returns [true], stores a GeomSubset named [S] in
    slot 1 and lists slot 1 among the children of slot 0. *)
Theorem GeomSubset_callback_stores_unvalidated_name :
  Path.prop_part (PrimArgs.prim_name subset_args_with_property_part) ≠ ""
  ∧ (∃ msg,
       RegisterReconstructCallback (H := sample_collaborators) GeomMesh
         subset_args_with_property_part reader_with_two_slots
       = Some (Unexpected msg, reader_with_two_slots))
  ∧ ∃ st',
      RegisterReconstructCallback (H := sample_collaborators) GeomSubset
        subset_args_with_property_part reader_with_two_slots
      = Some (Expected true, st')
      ∧ vector_at (Impl._prim_nodes reader_with_two_slots) 1
        = Some PrimNode.default
      ∧ PrimNode.prim <$> vector_at (Impl._prim_nodes st') 1
        = Some
            (Value_GeomSubset
               (GeomSubsetData.mk "S" Def PrimMeta.default None None None []))
      ∧ PrimNode.children <$> vector_at (Impl._prim_nodes st') 0 = Some [1].
Proof.
  split; [simpl; discriminate|]. split.
  - destruct (PrimConstruct_rejects_bad_name (H := sample_collaborators)
                GeomMesh subset_args_with_property_part
                reader_with_two_slots) as [msg Hmsg].
    + right; right; right. simpl. discriminate.
    + by exists msg.
  - eexists. split; [vm_compute; reflexivity|].
    split; [vm_compute; reflexivity|].
    split; vm_compute; reflexivity.
Qed.

Lemma GeomSubset_rejected_at_top_level_witness :
  PrimArgs.parentPrimIdx (prim_args "GeomSubset" "S" 0 (-1) StdMap.empty) = -1
  ∧ ∃ msg,
      RegisterReconstructCallback (H := sample_collaborators) GeomSubset
        (prim_args "GeomSubset" "S" 0 (-1) StdMap.empty) Impl.init
      = Some (Unexpected msg, Impl.init).
Proof.
  split.
  - reflexivity.
  - apply (GeomSubset_rejected_at_top_level (H := sample_collaborators)).
    reflexivity.
Defined.

Section Frames.
Context `{Collaborators}.

Lemma same_but_diagnostics_refl st : same_but_diagnostics st st.
Proof. exists (Impl._err st), (Impl._warn st). by destruct st. Qed.

Lemma same_but_diagnostics_trans st1 st2 st3 :
  same_but_diagnostics st1 st2 → same_but_diagnostics st2 st3 →
  same_but_diagnostics st1 st3.
Proof.
  intros (e1 & w1 & ->) (e2 & w2 & ->). exists e2, w2. by destruct st1.
Qed.

Lemma same_but_diagnostics_set_err e st :
  same_but_diagnostics st (Impl.set_err e st).
Proof. exists e, (Impl._warn st). by destruct st. Qed.

Lemma same_but_diagnostics_set_warn w st :
  same_but_diagnostics st (Impl.set_warn w st).
Proof. exists (Impl._err st), w. by destruct st. Qed.

Lemma PUSH_ERROR_diagnostics s st : same_but_diagnostics st (PUSH_ERROR s st).
Proof. apply same_but_diagnostics_set_err. Qed.

Lemma PUSH_ERROR_TAG_diagnostics tag s st :
  same_but_diagnostics st (PUSH_ERROR_TAG tag s st).
Proof. apply same_but_diagnostics_set_err. Qed.

Lemma PUSH_WARN_diagnostics s st : same_but_diagnostics st (PUSH_WARN s st).
Proof. apply same_but_diagnostics_set_err. Qed.

Lemma apiSchemas_loop_diagnostics toks apiSchemas st :
  same_but_diagnostics st (apiSchemas_loop toks apiSchemas st).2.
Proof.
  revert apiSchemas st. induction toks as [|tok toks IH]; intros apis st.
  - apply same_but_diagnostics_refl.
  - simpl. destruct (ApiSchemaHandler tok); [apply IH|].
    eapply same_but_diagnostics_trans; [apply PUSH_WARN_diagnostics|apply IH].
Qed.

Create HintDb diag.

Local Hint Resolve same_but_diagnostics_refl PUSH_ERROR_diagnostics
  PUSH_ERROR_TAG_diagnostics PUSH_WARN_diagnostics : diag.

Lemma ReconstructPrimMeta_entry_diagnostics key q var out st :
  same_but_diagnostics st (ReconstructPrimMeta_entry key q var out st).2.
Proof.
  unfold ReconstructPrimMeta_entry.
  repeat case_match; simpl; auto with diag.
  match goal with
  | E : apiSchemas_loop ?l ?a ?s = (_, ?s') |- same_but_diagnostics ?s ?s' =>
      replace s' with (apiSchemas_loop l a s).2 by (by rewrite E);
      apply apiSchemas_loop_diagnostics
  end.
Qed.

Lemma ReconstructPrimMeta_diagnostics in_meta out st :
  same_but_diagnostics st (ReconstructPrimMeta in_meta out st).2.
Proof.
  revert out st.
  induction in_meta as [|[key [q var]] in_meta IH]; intros out st.
  - apply same_but_diagnostics_refl.
  - simpl.
    pose proof (ReconstructPrimMeta_entry_diagnostics key q var out st) as Hd.
    destruct (ReconstructPrimMeta_entry key q var out st) as [[[] out'] st'];
      simpl in *; [|done].
    eapply same_but_diagnostics_trans; [exact Hd|apply IH].
Qed.

Lemma Impl_ReconstructPrim_diagnostics T properties references prim st :
  same_but_diagnostics st
    (Impl_ReconstructPrim T properties references prim st).2.
Proof.
  unfold Impl_ReconstructPrim.
  assert (∀ msg,
    same_but_diagnostics st
      (let '(ret, prim', warn', err) :=
         prim_ReconstructPrim T properties references prim (Impl._warn st) in
       if ret then (true, prim', Impl.set_warn warn' st)
       else (false, prim',
             PUSH_ERROR (msg err) (Impl.set_warn warn' st))).2) as Hgen.
  { intros msg.
    destruct (prim_ReconstructPrim _ _ _ _ _) as [[[[] prim'] warn'] err];
      simpl.
    - apply same_but_diagnostics_set_warn.
    - eapply same_but_diagnostics_trans;
        [apply same_but_diagnostics_set_warn|apply PUSH_ERROR_diagnostics]. }
  destruct T;
    first
      [ apply PUSH_WARN_diagnostics
      | apply (Hgen (λ err, "Failed to reconstruct Xform Prim: " +:+ err))
      | apply (Hgen (λ err, "Failed to reconstruct " +:+ TypeTraits_type_name _
                              +:+ " Prim: " +:+ err)) ].
Qed.

Lemma same_but_diagnostics_fields st st' :
  same_but_diagnostics st st' →
  Impl._stage st' = Impl._stage st
  ∧ Impl._toplevel_prims st' = Impl._toplevel_prims st
  ∧ Impl._prim_nodes st' = Impl._prim_nodes st
  ∧ Impl._toplevel_primspecs st' = Impl._toplevel_primspecs st
  ∧ Impl._primspec_nodes st' = Impl._primspec_nodes st
  ∧ Impl._primspec_invalidated st' = Impl._primspec_invalidated st
  ∧ Impl._config st' = Impl._config st.
Proof. intros (e & w & ->). by destruct st. Qed.

Lemma same_but_diagnostics_flag st st' :
  same_but_diagnostics st st' →
  Impl._primspec_invalidated st' = Impl._primspec_invalidated st.
Proof. intros Hd. apply same_but_diagnostics_fields in Hd. tauto. Qed.

Lemma same_but_diagnostics_prim_nodes st st' :
  same_but_diagnostics st st' → Impl._prim_nodes st' = Impl._prim_nodes st.
Proof. intros Hd. apply same_but_diagnostics_fields in Hd. tauto. Qed.

(** The callbacks never write [_primspec_invalidated]. *)

Lemma variant_primIndices_loop_flag primIndices primChildren st :
  Impl._primspec_invalidated
    (variant_primIndices_loop primIndices primChildren st).2
  = Impl._primspec_invalidated st.
Proof.
  revert primChildren st.
  induction primIndices as [|i l IH]; intros acc st; simpl; [done|].
  repeat case_match; simpl; try done.
  rewrite IH. by destruct st.
Qed.

Lemma variantNodes_loop_flag variant_name items variantNodes st :
  Impl._primspec_invalidated
    (variantNodes_loop variant_name items variantNodes st).2
  = Impl._primspec_invalidated st.
Proof.
  revert variantNodes st.
  induction items as [|[k item] items IH]; intros acc st; simpl; [done|].
  pose proof (ReconstructPrimMeta_diagnostics (VariantContent.metas item)
                PrimMeta.default st) as Hm.
  apply same_but_diagnostics_flag in Hm.
  destruct (ReconstructPrimMeta _ _ _) as [[[] metas] st1]; simpl in *;
    [|done].
  pose proof (variant_primIndices_loop_flag
                (VariantContent.primIndices item) [] st1) as Hl.
  destruct (variant_primIndices_loop _ _ _) as [[pc|e] st2]; simpl in *.
  - rewrite IH. congruence.
  - congruence.
Qed.

Lemma variantSets_loop_flag in_variants variantSets st :
  Impl._primspec_invalidated (variantSets_loop in_variants variantSets st).2
  = Impl._primspec_invalidated st.
Proof.
  revert variantSets st.
  induction in_variants as [|[k items] l IH]; intros acc st; simpl; [done|].
  pose proof (variantNodes_loop_flag k items StdMap.empty st) as Hl.
  destruct (variantNodes_loop _ _ _ _) as [[vn|e] st1]; simpl in *.
  - rewrite IH. congruence.
  - congruence.
Qed.

Lemma link_to_parent_flag primIdx parentPrimIdx st st' :
  link_to_parent primIdx parentPrimIdx st = Some st' →
  Impl._primspec_invalidated st' = Impl._primspec_invalidated st.
Proof.
  unfold link_to_parent. case_bool_decide; intros Hl; simplify_option_eq;
    by destruct st.
Qed.

Lemma PrimConstruct_flag T a st r st' :
  PrimConstruct T a st = Some (r, st') →
  Impl._primspec_invalidated st' = Impl._primspec_invalidated st.
Proof.
  unfold PrimConstruct.
  repeat (case_match; [intros; by simplify_eq|]).
  pose proof (ReconstructPrimMeta_diagnostics (PrimArgs.in_meta a)
                PrimMeta.default st) as Hm.
  apply same_but_diagnostics_flag in Hm.
  destruct (ReconstructPrimMeta _ _ _) as [[[] meta] st1]; simpl in Hm;
    [|intros; simplify_eq; done].
  match goal with
  | |- context [Impl_ReconstructPrim ?T ?p ?r ?q st1] =>
      pose proof (Impl_ReconstructPrim_diagnostics T p r q st1) as Hr;
      destruct (Impl_ReconstructPrim T p r q st1) as [[[] prim] st2]
  end; apply same_but_diagnostics_flag in Hr; simpl in Hr;
    [|intros; simplify_eq; congruence].
  pose proof (variantSets_loop_flag (PrimArgs.in_variants a) StdMap.empty st2)
    as Hv.
  destruct (variantSets_loop _ _ _) as [[vs|e] st3]; simpl in Hv;
    [|intros; simplify_eq; congruence].
  intros Hres. simplify_option_eq;
    match goal with
    | Hl : link_to_parent _ _ _ = Some _ |- _ =>
        apply link_to_parent_flag in Hl; rewrite Hl
    end;
    destruct st3; simpl in *; congruence.
Qed.

Lemma GeomSubset_properties_diagnostics properties subset st :
  match GeomSubset_properties properties subset st with
  | inl st' => same_but_diagnostics st st'
  | inr (_, st') => same_but_diagnostics st st'
  end.
Proof.
  revert subset st.
  induction properties as [|[key prop] l IH]; intros subset st; simpl.
  - apply same_but_diagnostics_refl.
  - assert (match GeomSubset_property key prop subset st with
            | inl st' => same_but_diagnostics st st'
            | inr (_, st') => same_but_diagnostics st st'
            end) as Hp.
    { unfold GeomSubset_property.
      repeat case_match; simplify_eq; auto with diag. }
    destruct (GeomSubset_property key prop subset st) as [st1|[s1 st1]];
      [done|].
    specialize (IH s1 st1).
    destruct (GeomSubset_properties l s1 st1) as [st2|[s2 st2]];
      eapply same_but_diagnostics_trans; eauto.
Qed.

Lemma PrimConstruct_GeomSubset_flag a st r st' :
  PrimConstruct_GeomSubset a st = Some (r, st') →
  Impl._primspec_invalidated st' = Impl._primspec_invalidated st.
Proof.
  unfold PrimConstruct_GeomSubset.
  repeat (case_match; [intros; by simplify_eq|]).
  pose proof (ReconstructPrimMeta_diagnostics (PrimArgs.in_meta a)
                PrimMeta.default st) as Hm.
  apply same_but_diagnostics_flag in Hm.
  destruct (ReconstructPrimMeta _ _ _) as [[[] meta] st1]; simpl in Hm;
    [|intros; simplify_eq; done].
  pose proof (GeomSubset_properties_diagnostics (PrimArgs.properties a)
                GeomSubsetData.default st1) as Hp.
  destruct (GeomSubset_properties _ _ _) as [st2|[subset st2]];
    apply same_but_diagnostics_flag in Hp;
    [intros; simplify_eq; congruence|].
  intros Hres. simplify_option_eq;
    match goal with
    | Hl : link_to_parent _ _ _ = Some _ |- _ =>
        apply link_to_parent_flag in Hl; rewrite Hl
    end;
    destruct st2; simpl in *; congruence.
Qed.

Lemma PrimSpecFunction_flag a st r st' :
  PrimSpecFunction a st = Some (r, st') →
  Impl._primspec_invalidated st' = Impl._primspec_invalidated st.
Proof.
  unfold PrimSpecFunction.
  repeat (case_match; [intros; by simplify_eq|]).
  intros Hres. simplify_option_eq.
  match goal with
  | Hl : link_primspec_to_parent _ _ _ = Some _ |- _ => revert Hl
  end.
  unfold link_primspec_to_parent. case_bool_decide; intros Hl;
    simplify_option_eq; by destruct st.
Qed.

Lemma StageMetaProcess_flag metas st :
  Impl._primspec_invalidated (StageMetaProcess metas st).2
  = Impl._primspec_invalidated st.
Proof.
  unfold StageMetaProcess. repeat case_match; by destruct st.
Qed.

Lemma prim_callback_flag state allow a st r st' :
  prim_callback state allow a st = Some (r, st') →
  Impl._primspec_invalidated st' = Impl._primspec_invalidated st.
Proof.
  unfold prim_callback, RegisterReconstructCallback.
  repeat case_match;
    eauto using PrimConstruct_flag, PrimConstruct_GeomSubset_flag,
      PrimSpecFunction_flag.
  intros; by simplify_eq.
Qed.

Lemma run_callbacks_flag state allow events st r st' :
  run_callbacks state allow events st = Some (r, st') →
  Impl._primspec_invalidated st' = Impl._primspec_invalidated st.
Proof.
  revert st. induction events as [|ev events IH]; intros st; simpl.
  - intros; by simplify_eq.
  - destruct ev as [metas|parent|a].
    + pose proof (StageMetaProcess_flag metas st) as Hs.
      destruct (StageMetaProcess metas st) as [[] st1]; simpl in Hs.
      * intros Hr. apply IH in Hr. congruence.
      * intros; simplify_eq. done.
    + intros Hr. apply IH in Hr. rewrite Hr. by destruct st.
    + destruct (prim_callback state allow a st) as [[res st1]|] eqn:Hcb;
        simpl; [|done].
      apply prim_callback_flag in Hcb.
      destruct res as [[]|e].
      * intros Hr. apply IH in Hr. congruence.
      * intros; simplify_eq. done.
      * intros; simplify_eq. done.
Qed.

Lemma Read_flag run state st ok st' :
  Read run state st = Some (ok, st') →
  Impl._primspec_invalidated st' = Impl._primspec_invalidated st.
Proof.
  unfold Read, Parse.
  destruct (run_callbacks _ _ _ _) as [[r st1]|] eqn:Hrun; simpl; [|done].
  apply run_callbacks_flag in Hrun.
  destruct r as [e|]; [|destruct (ParserRun.well_formed run)];
    intros Hr; simplify_eq; try done;
    case_match; rewrite <- Hrun; by destruct st1.
Qed.

(** C1 (the code departs from it): [_primspec_invalidated] is [true] in a
    fresh reader and neither [Read] nor any callback clears it, so after a
    [Read] that returned [true], whatever the load state, [GetAsLayer] with
    a non-null layer returns [false], leaves the layer as it was and only
    adds its diagnostic to the reader. *)
Theorem GetAsLayer_fails_after_Read (run : ParserRun.t) (state : LoadState)
  (st : Impl.t) (budget : nat) (layer : Layer.t) :
  Read run state Impl.init = Some (true, st) →
  ∃ st',
    GetAsLayer budget (Some layer) st = Returns (false, Some layer, st')
    ∧ same_but_diagnostics st st'.
Proof.
  intros Hread. apply Read_flag in Hread. simpl in Hread.
  unfold GetAsLayer. rewrite Hread.
  eexists; split; [reflexivity|apply PUSH_ERROR_diagnostics].
Qed.

End Frames.

Lemma GetAsLayer_fails_after_Read_witness :
  Read (H := sample_collaborators) run_single LoadState_Reference Impl.init
  = Some (true, reader_after run_single LoadState_Reference)
  ∧ ∃ st',
      GetAsLayer (H := sample_collaborators) 1 (Some (Layer.mk []))
        (reader_after run_single LoadState_Reference)
      = Returns (false, Some (Layer.mk []), st')
      ∧ same_but_diagnostics
          (reader_after run_single LoadState_Reference) st'.
Proof.
  split.
  - vm_compute. reflexivity.
  - apply (GetAsLayer_fails_after_Read (H := sample_collaborators)
             run_single LoadState_Reference).
    vm_compute. reflexivity.
Defined.

Section Vectors.
Context {A : Type}.
Implicit Types (v : list A) (f : A → A) (i j : Z).

Lemma vector_size_alter f n v : vector_size (alter f n v) = vector_size v.
Proof. unfold vector_size. by rewrite length_alter. Qed.

Lemma vector_update_Some v i f v' :
  vector_update v i f = Some v' →
  v' = alter f (Z.to_nat i) v ∧ 0 ≤ i < vector_size v.
Proof. unfold vector_update. case_bool_decide; naive_solver. Qed.

Lemma vector_at_Some v i x :
  vector_at v i = Some x ↔ 0 ≤ i < vector_size v ∧ v !! Z.to_nat i = Some x.
Proof. unfold vector_at. case_bool_decide; naive_solver. Qed.

Lemma vector_at_alter f v i j :
  0 ≤ i →
  vector_at (alter f (Z.to_nat i) v) j
  = (if decide (j = i) then f else id) <$> vector_at v j.
Proof.
  intros Hi. unfold vector_at. rewrite vector_size_alter.
  case_bool_decide as Hj; [|done].
  destruct (decide (j = i)) as [->|Hne].
  - by rewrite list_lookup_alter_eq.
  - rewrite list_lookup_alter_ne by lia. by rewrite option_fmap_id.
Qed.

Lemma vector_at_update v i f v' j :
  vector_update v i f = Some v' →
  vector_at v' j = (if decide (j = i) then f else id) <$> vector_at v j.
Proof.
  intros [-> Hi]%vector_update_Some. apply vector_at_alter. lia.
Qed.

Lemma vector_at_update_eq v i f v' :
  vector_update v i f = Some v' → vector_at v' i = f <$> vector_at v i.
Proof.
  intros Hu. rewrite (vector_at_update _ _ _ _ _ Hu). by rewrite decide_True.
Qed.

Lemma vector_update_is_Some v i f v' :
  vector_update v i f = Some v' → is_Some (vector_at v i).
Proof.
  intros [-> Hi]%vector_update_Some. unfold vector_at.
  rewrite bool_decide_true by done. apply lookup_lt_is_Some.
  unfold vector_size in Hi. lia.
Qed.

End Vectors.

Section UnknownPrimType.
Context `{Collaborators}.

Lemma link_to_parent_prim primIdx parentPrimIdx st st' j :
  link_to_parent primIdx parentPrimIdx st = Some st' →
  PrimNode.prim <$> vector_at (Impl._prim_nodes st') j
  = PrimNode.prim <$> vector_at (Impl._prim_nodes st) j
  ∧ PrimNode.typeName <$> vector_at (Impl._prim_nodes st') j
    = PrimNode.typeName <$> vector_at (Impl._prim_nodes st) j.
Proof.
  unfold link_to_parent. case_bool_decide.
  - intros Hl. simplify_eq. by destruct st.
  - destruct (vector_update _ _ _) as [nodes|] eqn:Hu; simpl; [|done].
    intros Hl. simplify_eq.
    replace (Impl._prim_nodes (Impl.set_prim_nodes nodes st)) with nodes
      by (by destruct st).
    rewrite (vector_at_update _ _ _ _ j Hu).
    destruct (vector_at _ j) as [[]|]; simpl; [|done].
    by case_decide.
Qed.

(** C8: when no registered typed callback matches the declared type name
    and unknown Prim types are allowed, the callback that fires is the one
    of [Model]; if it succeeds, the slot of the Prim holds a [Model] whose
    [prim_type_name] is the declared type name (also kept in the slot's
    [typeName]). *)
Theorem unknown_type_stored_as_Model (a : PrimArgs.t) (st st' : Impl.t) :
  matching_callback (PrimArgs.primTypeName a) = None →
  prim_callback LoadState_Toplevel true a st = Some (Expected true, st') →
  ∃ node model,
    vector_at (Impl._prim_nodes st') (PrimArgs.primIdx a) = Some node
    ∧ PrimNode.prim node = Value_prim Model model
    ∧ TypedPrim.prim_type_name model = PrimArgs.primTypeName a
    ∧ PrimNode.typeName node = PrimArgs.primTypeName a.
Proof.
  intros Hnone. unfold prim_callback. rewrite bool_decide_true by done.
  rewrite Hnone. cbn [RegisterReconstructCallback]. unfold PrimConstruct.
  repeat (case_match; [intros; by simplify_eq|]).
  destruct (ReconstructPrimMeta _ _ _) as [[[] meta] st1];
    [|intros; by simplify_eq].
  match goal with
  | |- context [Impl_ReconstructPrim ?T ?p ?r ?q st1] =>
      destruct (Impl_ReconstructPrim T p r q st1) as [[[] prim] st2]
  end; [|intros; by simplify_eq].
  destruct (variantSets_loop _ _ _) as [[vs|e] st3];
    [|intros; by simplify_eq].
  intros Hres.
  destruct (vector_update (ensure_slot _ _ _) _ _) as [n1|] eqn:Hu1;
    simpl in Hres; [|done].
  destruct (vector_update n1 _ _) as [n2|] eqn:Hu2; simpl in Hres; [|done].
  destruct (vector_update n2 _ _) as [n3|] eqn:Hu3; simpl in Hres; [|done].
  destruct (link_to_parent _ _ _) as [st4|] eqn:Hl; simpl in Hres; [|done].
  simplify_eq.
  pose proof (vector_update_is_Some _ _ _ _ Hu1) as [n0 Hn0].
  pose proof (vector_at_update_eq _ _ _ _ Hu1) as Hat1.
  pose proof (vector_at_update_eq _ _ _ _ Hu2) as Hat2.
  pose proof (vector_at_update_eq _ _ _ _ Hu3) as Hat3.
  rewrite Hn0 in Hat1. rewrite Hat1 in Hat2. rewrite Hat2 in Hat3.
  simpl in Hat3.
  destruct (link_to_parent_prim _ _ _ _ (PrimArgs.primIdx a) Hl)
    as [Hprim Hty].
  replace (Impl._prim_nodes (Impl.set_prim_nodes n3 st3)) with n3
    in Hprim, Hty by (by destruct st3).
  rewrite Hat3 in Hprim, Hty.
  destruct (vector_at (Impl._prim_nodes st') (PrimArgs.primIdx a))
    as [node|]; [|done].
  simpl in Hprim, Hty. simplify_eq.
  exists node. destruct n0; simpl in *. eexists. split; [done|].
  split; [by rewrite <- Hprim|]. split; [|done].
  by destruct prim.
Qed.

End UnknownPrimType.

Lemma unknown_type_stored_as_Model_witness :
  matching_callback (H := sample_collaborators)
    (PrimArgs.primTypeName (prim_args "Wobble" "X" 0 (-1) StdMap.empty))
  = None
  ∧ prim_callback (H := sample_collaborators) LoadState_Toplevel true
      (prim_args "Wobble" "X" 0 (-1) StdMap.empty)
      (PrimIdxAssign (-1) Impl.init).2
    = Some (Expected true, reader_after run_unknown_type LoadState_Toplevel)
  ∧ ∃ node model,
      vector_at
        (Impl._prim_nodes (reader_after run_unknown_type LoadState_Toplevel))
        (PrimArgs.primIdx (prim_args "Wobble" "X" 0 (-1) StdMap.empty))
      = Some node
      ∧ PrimNode.prim node = Value_prim Model model
      ∧ TypedPrim.prim_type_name model = "Wobble"
      ∧ PrimNode.typeName node = "Wobble".
Proof.
  split; [vm_compute; reflexivity|]. split; [vm_compute; reflexivity|].
  apply (unknown_type_stored_as_Model (H := sample_collaborators)
           (prim_args "Wobble" "X" 0 (-1) StdMap.empty)
           (PrimIdxAssign (-1) Impl.init).2).
  - vm_compute. reflexivity.
  - vm_compute. reflexivity.
Defined.

(** C5, as stated, fails: the value of [inherits] is expected to be a list
    of paths, a single [Path] is a value of another type, and
    [ReconstructPrimMeta] returns [true] for it (the value is promoted to a
    one-element list). *)
Lemma ReconstructPrimMeta_takes_single_inherits :
  expected_type "inherits" = Some ty_Path_array
  ∧ held_type sample_path_value ≠ ty_Path_array
  ∧ (ReconstructPrimMeta (H := sample_collaborators)
       [("inherits", (Prepend, sample_path_value))] PrimMeta.default
       Impl.init).1.1 = true.
Proof. split; [reflexivity|]. split; [discriminate|reflexivity]. Qed.

Section MetaTypeCheck.
Context `{Collaborators}.

Lemma ReconstructPrimMeta_entry_rejects key q var tys out st :
  accepted_types key = Some tys →
  held_type var ∉ tys →
  (ReconstructPrimMeta_entry key q var out st).1.1 = false.
Proof.
  unfold accepted_types. intros Hacc Hty.
  repeat
    match type of Hacc with
    | (if String.eqb key ?l then _ else _) = _ =>
        destruct (String.eqb_spec key l) as [->|?]
    end;
    simplify_eq; unfold ReconstructPrimMeta_entry; simpl;
    destruct var as [tyname tyid []]; simpl in *;
    repeat case_match; simpl; try done; set_solver.
Qed.

Lemma ReconstructPrimMeta_entry_accepts key q var tys out st :
  key ∈ list_valued_keys →
  accepted_types key = Some tys →
  held_type var ∈ tys →
  (ReconstructPrimMeta_entry key q var out st).1.1 = true
  ∧ (held_type var = ty_ValueBlock →
     list_field_size key (ReconstructPrimMeta_entry key q var out st).1.2
     = Some 0%nat).
Proof.
  unfold list_valued_keys. intros Hkey Hacc Hty.
  repeat (apply elem_of_cons in Hkey as [->|Hkey]);
    [..|by apply elem_of_nil in Hkey];
    vm_compute in Hacc; simplify_eq;
    unfold ReconstructPrimMeta_entry; simpl;
    destruct var as [tyname tyid []]; simpl in *;
    try (exfalso; set_solver); split; try done; by destruct out.
Qed.

(** C5 (amended): for every key with a value check ([active], [hidden],
    [kind], [sceneName], [displayName], [customData], [assetInfo],
    [variants], [apiSchemas], and the list-valued [inherits],
    [specializes], [variantSets], [references], [payload]), a raw
    metadata map with an entry of that key whose value is of none of the
    accepted types makes [ReconstructPrimMeta] return [false]; the
    list-valued keys take, besides a list, a single value or a blocked
    marker, and a blocked marker yields the empty list. *)
Theorem ReconstructPrimMeta_type_check (key : string) (q : ListEditQual)
  (var : MetaVariable) (tys : list MetaType) :
  accepted_types key = Some tys →
  (held_type var ∉ tys →
   ∀ in_meta out st,
     (key, (q, var)) ∈ in_meta →
     (ReconstructPrimMeta in_meta out st).1.1 = false)
  ∧ (key ∈ list_valued_keys →
     held_type var ∈ tys →
     ∀ out st,
       (ReconstructPrimMeta [(key, (q, var))] out st).1.1 = true
       ∧ (held_type var = ty_ValueBlock →
          list_field_size key
            (ReconstructPrimMeta [(key, (q, var))] out st).1.2
          = Some 0%nat)).
Proof.
  intros Hacc. split.
  - intros Hty in_meta.
    induction in_meta as [|[k [q' v]] in_meta IH]; intros out st Hin.
    + by apply elem_of_nil in Hin.
    + simpl. apply elem_of_cons in Hin as [Heq|Hin].
      * simplify_eq.
        pose proof (ReconstructPrimMeta_entry_rejects k q' v tys out st
                      Hacc Hty) as Hrej.
        destruct (ReconstructPrimMeta_entry k q' v out st) as [[[] ?] ?];
          simpl in *; done.
      * destruct (ReconstructPrimMeta_entry k q' v out st) as [[[] ?] ?];
          simpl; [by apply IH|done].
  - intros Hkey Hty out st. simpl.
    pose proof (ReconstructPrimMeta_entry_accepts key q var tys out st
                  Hkey Hacc Hty) as [Hok Hsize].
    destruct (ReconstructPrimMeta_entry key q var out st) as [[[] ?] ?];
      simpl in *; done.
Qed.

End MetaTypeCheck.

Lemma ReconstructPrimMeta_type_check_witness :
  accepted_types "inherits"
  = Some [ty_ValueBlock; ty_Path_array; ty_Path]
  ∧ ((held_type sample_int_value
        ∉ [ty_ValueBlock; ty_Path_array; ty_Path])
     ∧ ("inherits", (Prepend, sample_int_value))
         ∈ [("inherits", (Prepend, sample_int_value))]
     ∧ (ReconstructPrimMeta (H := sample_collaborators)
          [("inherits", (Prepend, sample_int_value))] PrimMeta.default
          Impl.init).1.1 = false)
  ∧ ("inherits" ∈ list_valued_keys
     ∧ held_type sample_blocked_value
         ∈ [ty_ValueBlock; ty_Path_array; ty_Path]
     ∧ (ReconstructPrimMeta (H := sample_collaborators)
          [("inherits", (Prepend, sample_blocked_value))] PrimMeta.default
          Impl.init).1.1 = true
     ∧ list_field_size "inherits"
         (ReconstructPrimMeta (H := sample_collaborators)
            [("inherits", (Prepend, sample_blocked_value))] PrimMeta.default
            Impl.init).1.2
       = Some 0%nat).
Proof.
  assert (held_type sample_int_value
            ∉ [ty_ValueBlock; ty_Path_array; ty_Path]) as Hnot.
  { intros Hin. repeat (apply elem_of_cons in Hin as [Hin|Hin]; [done|]).
    by apply elem_of_nil in Hin. }
  assert (("inherits", (Prepend, sample_int_value))
            ∈ [("inherits", (Prepend, sample_int_value))]) as Hin.
  { apply elem_of_cons; by left. }
  assert ("inherits" ∈ list_valued_keys) as Hkey.
  { apply elem_of_cons; by left. }
  assert (held_type sample_blocked_value
            ∈ [ty_ValueBlock; ty_Path_array; ty_Path]) as Hblocked.
  { apply elem_of_cons; by left. }
  split; [reflexivity|]. split.
  - split; [exact Hnot|]. split; [exact Hin|].
    exact (proj1
             (ReconstructPrimMeta_type_check (H := sample_collaborators)
                "inherits" Prepend sample_int_value _ eq_refl)
             Hnot _ PrimMeta.default Impl.init Hin).
  - split; [exact Hkey|]. split; [exact Hblocked|].
    destruct (proj2
                (ReconstructPrimMeta_type_check (H := sample_collaborators)
                   "inherits" Prepend sample_blocked_value _ eq_refl)
                Hkey Hblocked PrimMeta.default Impl.init) as [Hok Hsize].
    split; [exact Hok|]. exact (Hsize eq_refl).
Defined.

(** ** Well-formed maps *)

Section StdMapFacts.
Context {V : Type}.
Implicit Types (m l : StdMap.t V) (k : string) (v : V).

Lemma below_app k ks1 ks2 :
  StdMap.below k (ks1 ++ ks2) = StdMap.below k ks1 && StdMap.below k ks2.
Proof.
  induction ks1 as [|k1 ks1 IH]; simpl; [done|].
  destruct (String.compare k k1); simpl; [done|exact IH|done].
Qed.

Lemma ascending_app ks1 ks2 :
  StdMap.ascending (ks1 ++ ks2) = true →
  StdMap.ascending ks1 = true ∧ StdMap.ascending ks2 = true
  ∧ ∀ k1, k1 ∈ ks1 → StdMap.below k1 ks2 = true.
Proof.
  induction ks1 as [|k ks1 IH]; simpl.
  - intros Hasc. repeat split; [done|]. intros k1 Hin.
    by apply elem_of_nil in Hin.
  - rewrite below_app. intros Hasc.
    apply andb_prop in Hasc as [Hb Hasc]. apply andb_prop in Hb as [Hb1 Hb2].
    destruct (IH Hasc) as (Ha1 & Ha2 & Hall).
    rewrite Hb1, Ha1. repeat split; [done|].
    intros k1 [->|Hin]%elem_of_cons; auto.
Qed.

Lemma emplace_last k v m :
  (∀ k', k' ∈ m.*1 → String.compare k' k = Lt) →
  StdMap.emplace k v m = m ++ [(k, v)].
Proof.
  induction m as [|[k' v'] m IH]; simpl; intros Hall; [done|].
  rewrite String.compare_antisym, (Hall k') by (apply elem_of_cons; by left).
  simpl. f_equal. apply IH. intros k'' Hin. apply Hall.
  apply elem_of_cons. by right.
Qed.

Lemma foldl_emplace_ascending m l :
  StdMap.ascending ((m ++ l).*1) = true →
  foldl (λ acc kv, StdMap.emplace kv.1 kv.2 acc) m l = m ++ l.
Proof.
  revert m. induction l as [|[k v] l IH]; intros m Hasc; simpl.
  - by rewrite app_nil_r.
  - rewrite emplace_last.
    + rewrite IH; rewrite <- app_assoc; done.
    + intros k' Hin. rewrite fmap_app in Hasc.
      apply ascending_app in Hasc as (_ & _ & Hall).
      specialize (Hall k' Hin). simpl in Hall.
      by destruct (String.compare k' k).
Qed.

Lemma find_Some_elem_of k v m : StdMap.find k m = Some v → (k, v) ∈ m.
Proof.
  induction m as [|[k' v'] m IH]; simpl; [done|].
  destruct (String.eqb_spec k k') as [->|Hne].
  - intros; simplify_eq. apply elem_of_cons. by left.
  - intros Hf. apply elem_of_cons. right. by apply IH.
Qed.

End StdMapFacts.

Lemma find_Forall2 {V W} (R : V → W → Prop) k v (m : StdMap.t V)
  (m' : StdMap.t W) :
  Forall2 (λ x y, x.1 = y.1 ∧ R x.2 y.2) m m' →
  StdMap.find k m = Some v →
  ∃ w, StdMap.find k m' = Some w ∧ R v w.
Proof.
  induction 1 as [|[k1 v1] [k2 w2] m m' [Hk HR] _ IH]; simpl; [done|].
  simpl in Hk. subst k2.
  destruct (String.eqb k k1); [|exact IH].
  intros; simplify_eq. eauto.
Qed.

(** ** The loops of the reconstruction pass *)

Section ReconstructionLoops.
Variable rec : Z → option Prim → outcome (string + Prim).
Variable prim_nodes : list PrimNode.t.

Lemma variant_primChildren_loop_inv l visited acc visited' acc' :
  variant_primChildren_loop rec prim_nodes l visited acc
  = Returns (inr (visited', acc')) →
  ∃ ps,
    acc' = acc ++ ps
    ∧ Forall2 (built_by rec) l ps
    ∧ visited' = list_to_set l ∪ visited
    ∧ NoDup l
    ∧ (∀ v, v ∈ l → v ∉ visited)
    ∧ Forall (λ v, 0 ≤ v ≤ vector_size prim_nodes) l.
Proof.
  revert visited acc.
  induction l as [|vidx l IH]; intros visited acc; simpl.
  - intros; simplify_eq. exists []. rewrite app_nil_r.
    repeat split; [constructor|set_solver|constructor|set_solver|constructor].
  - case_bool_decide as Hvis; [done|].
    case_bool_decide as Hlo; simpl; [|done].
    case_bool_decide as Hhi; [|done].
    destruct (rec vidx (Some dummy_Prim)) as [[e|p]|] eqn:Hrec; [done| |done].
    intros Hloop. apply IH in Hloop
      as (ps & -> & Hbuilt & -> & Hnodup & Hfresh & Hrange).
    exists (p :: ps). rewrite <- app_assoc. repeat split.
    + by constructor.
    + set_solver.
    + constructor; [|done]. intros Hin. apply Hfresh in Hin. set_solver.
    + intros v [->|Hin]%elem_of_cons; [done|].
      apply Hfresh in Hin. set_solver.
    + constructor; [lia|done].
Qed.

Lemma variants_loop_inv name items visited vset visited' vset' :
  variants_loop rec prim_nodes name items visited vset
  = Returns (inr (visited', vset')) →
  let vc := items.*2 ≫= VariantNode.primChildren in
  ∃ out,
    Forall2 (Variant_built_from rec) items out
    ∧ VariantSetOps.variantSet vset'
      = foldl (λ acc kv, StdMap.emplace kv.1 kv.2 acc)
          (VariantSetOps.variantSet vset) out
    ∧ visited' = list_to_set vc ∪ visited
    ∧ NoDup vc
    ∧ (∀ v, v ∈ vc → v ∉ visited)
    ∧ Forall (λ v, 0 ≤ v ≤ vector_size prim_nodes) vc.
Proof.
  revert visited vset.
  induction items as [|[k vn] items IH]; intros visited vset; simpl.
  - intros; simplify_eq. exists [].
    repeat split; [constructor|set_solver|constructor|set_solver|constructor].
  - destruct (variant_primChildren_loop _ _ _ _ _) as [[e|[vis1 ps]]|]
      eqn:Hinner; [done| |done].
    apply variant_primChildren_loop_inv in Hinner
      as (ps' & -> & Hbuilt & -> & Hnodup & Hfresh & Hrange).
    intros Hloop. apply IH in Hloop
      as (out & Hout & Hset & -> & Hnodup' & Hfresh' & Hrange').
    exists ((k, MkVariant (VariantNode.metas vn) (VariantNode.props vn) ps')
              :: out).
    repeat split.
    + constructor; [|done]. repeat split; done.
    + by rewrite Hset.
    + rewrite list_to_set_app_L. set_solver.
    + apply NoDup_app. repeat split; [done| |done].
      intros v Hv Hv'. apply Hfresh' in Hv'. set_solver.
    + intros v [Hv|Hv]%elem_of_app; [by apply Hfresh|].
      apply Hfresh' in Hv. set_solver.
    + apply Forall_app. done.
Qed.

Lemma variants_loop_ok name items visited visited' vset' :
  StdMap.ok items →
  variants_loop rec prim_nodes name items visited VariantSetOps.default
  = Returns (inr (visited', vset')) →
  let vc := items.*2 ≫= VariantNode.primChildren in
  Forall2 (Variant_built_from rec) items (VariantSetOps.variantSet vset')
  ∧ visited' = list_to_set vc ∪ visited
  ∧ NoDup vc
  ∧ (∀ v, v ∈ vc → v ∉ visited)
  ∧ Forall (λ v, 0 ≤ v ≤ vector_size prim_nodes) vc.
Proof.
  intros Hok Hloop. apply variants_loop_inv in Hloop
    as (out & Hout & Hset & Hrest).
  split; [|exact Hrest].
  rewrite Hset. simpl. rewrite foldl_emplace_ascending; [done|].
  simpl. replace (out.*1) with (items.*1); [exact Hok|].
  symmetry. clear -Hout.
  induction Hout as [|x y ?? [Hk _] _ IH]; csimpl; [done|]. congruence.
Qed.

Lemma variantNodeMap_loop_NoDup variantNodeMap visited sets visited' sets' :
  variantNodeMap_loop rec prim_nodes variantNodeMap visited sets
  = Returns (inr (visited', sets')) →
  let vc := variant_children_of variantNodeMap in
  visited' = list_to_set vc ∪ visited
  ∧ NoDup vc
  ∧ (∀ v, v ∈ vc → v ∉ visited)
  ∧ Forall (λ v, 0 ≤ v ≤ vector_size prim_nodes) vc.
Proof.
  unfold variant_children_of. revert visited sets.
  induction variantNodeMap as [|[k variants] l IH]; intros visited sets;
    simpl.
  - intros; simplify_eq.
    repeat split; [set_solver|constructor|set_solver|constructor].
  - destruct (variants_loop _ _ _ _ _ _) as [[e|[vis1 vset]]|] eqn:Hinner;
      [done| |done].
    apply variants_loop_inv in Hinner
      as (vout & _ & _ & -> & Hnodup & Hfresh & Hrange).
    intros Hloop. apply IH in Hloop as (-> & Hnodup' & Hfresh' & Hrange').
    repeat split.
    + rewrite list_to_set_app_L. set_solver.
    + apply NoDup_app. repeat split; [done| |done].
      intros v Hv Hv'. apply Hfresh' in Hv'. set_solver.
    + intros v [Hv|Hv]%elem_of_app; [by apply Hfresh|].
      apply Hfresh' in Hv. set_solver.
    + apply Forall_app. done.
Qed.

Lemma variantNodeMap_loop_ok variantNodeMap visited' sets' :
  StdMap.ok variantNodeMap →
  Forall (λ variants, StdMap.ok variants) variantNodeMap.*2 →
  variantNodeMap_loop rec prim_nodes variantNodeMap ∅ StdMap.empty
  = Returns (inr (visited', sets')) →
  let vc := variant_children_of variantNodeMap in
  Forall2 (VariantSet_built_from rec) variantNodeMap sets'
  ∧ visited' = list_to_set vc
  ∧ NoDup vc
  ∧ Forall (λ v, 0 ≤ v ≤ vector_size prim_nodes) vc.
Proof.
  intros Hok Hoks Hloop.
  assert (∀ l visited sets,
    Forall (λ variants, StdMap.ok variants) l.*2 →
    variantNodeMap_loop rec prim_nodes l visited sets
    = Returns (inr (visited', sets')) →
    ∃ out,
      Forall2 (VariantSet_built_from rec) l out
      ∧ sets' = foldl (λ acc kv, StdMap.emplace kv.1 kv.2 acc) sets out
      ∧ visited' = list_to_set (variant_children_of l) ∪ visited
      ∧ NoDup (variant_children_of l)
      ∧ (∀ v, v ∈ variant_children_of l → v ∉ visited)
      ∧ Forall (λ v, 0 ≤ v ≤ vector_size prim_nodes)
          (variant_children_of l)) as Hgen.
  { clear. unfold variant_children_of.
    induction l as [|[k variants] l IH]; intros visited sets Hoks; simpl.
    - intros; simplify_eq. exists [].
      repeat split;
        [constructor|set_solver|constructor|set_solver|constructor].
    - apply Forall_cons in Hoks as [Hok Hoks].
      destruct (variants_loop _ _ _ _ _ _) as [[e|[vis1 vset]]|] eqn:Hinner;
        [done| |done].
      apply variants_loop_ok in Hinner
        as (Hvout & -> & Hnodup & Hfresh & Hrange); [|done].
      intros Hloop. apply IH in Hloop
        as (out & Hout & -> & -> & Hnodup' & Hfresh' & Hrange'); [|done].
      exists ((k, vset) :: out). repeat split.
      + constructor; [|done]. split; done.
      + rewrite list_to_set_app_L. set_solver.
      + apply NoDup_app. repeat split; [done| |done].
        intros v Hv Hv'. apply Hfresh' in Hv'. set_solver.
      + intros v [Hv|Hv]%elem_of_app; [by apply Hfresh|].
        apply Hfresh' in Hv. set_solver.
      + apply Forall_app. done. }
  apply Hgen in Hloop as (out & Hout & -> & -> & Hnodup & _ & Hrange);
    [|done].
  repeat split; [|set_solver|done|done].
  rewrite foldl_emplace_ascending; [done|].
  simpl. replace (out.*1) with (variantNodeMap.*1); [exact Hok|].
  symmetry. clear -Hout.
  induction Hout as [|x y ?? [Hk _] _ IH]; csimpl; [done|]. congruence.
Qed.

Lemma children_loop_inv children visited prim prim' :
  children_loop rec children visited prim = Returns (inr prim') →
  ∃ cs,
    prim'
    = MkPrim (PrimOps.data prim) (PrimOps.prim_type_name prim)
        (PrimOps.variantSets prim) (PrimOps.children prim ++ cs)
    ∧ Forall2 (built_by rec)
        (filter (λ cidx, int64_of_size_t cidx ∉ visited) children) cs.
Proof.
  revert prim. induction children as [|cidx l IH]; intros prim; simpl.
  - intros [= <-]. exists []. rewrite app_nil_r.
    split; [by destruct prim|constructor].
  - case_bool_decide as Hvis.
    + intros Hloop. apply IH in Hloop as (cs & -> & Hbuilt).
      exists cs. split; [done|]. by rewrite filter_cons_False by tauto.
    + destruct (rec cidx (Some dummy_Prim)) as [[e|p]|] eqn:Hrec;
        [done| |done].
      intros Hloop. apply IH in Hloop as (cs & -> & Hbuilt).
      exists (p :: cs). split.
      * destruct prim; simpl. by rewrite <- app_assoc.
      * rewrite filter_cons_True by done. by constructor.
Qed.

End ReconstructionLoops.

(** ** The reconstruction pass *)

Lemma Prim_values_unfold d t sets cs :
  Prim_values (MkPrim d t sets cs)
  = d :: variantSets_values sets ++ Prims_values cs.
Proof.
  assert (∀ ps : list Prim,
    (fix prims (ps : list Prim) : list Value :=
       match ps with
       | [] => []
       | q :: ps' => Prim_values q ++ prims ps'
       end) ps = Prims_values ps) as Hprims.
  { induction ps as [|q ps IH]; [done|].
    unfold Prims_values. rewrite bind_cons. by rewrite IH. }
  cbn [Prim_values]. f_equal. rewrite Hprims. f_equal.
  unfold variantSets_values.
  induction sets as [|[k [n m]] sets IH]; [done|].
  csimpl. rewrite IH. f_equal.
  unfold VariantSet_values. simpl.
  induction m as [|[k' [ms ps pcs]] m IHm]; [done|].
  csimpl. rewrite IHm. by f_equal.
Qed.

Lemma occurrences_cons (x y : Z) (l : list Z) :
  occurrences x (y :: l)
  = ((if decide (y = x) then 1 else 0) + occurrences x l)%nat.
Proof.
  unfold occurrences. case_decide.
  - by rewrite filter_cons_True.
  - by rewrite filter_cons_False.
Qed.

Lemma occurrences_app (x : Z) (l k : list Z) :
  occurrences x (l ++ k) = (occurrences x l + occurrences x k)%nat.
Proof. unfold occurrences. by rewrite filter_app, length_app. Qed.

Lemma occurrences_not_elem_of (x : Z) (l : list Z) :
  x ∉ l → occurrences x l = 0%nat.
Proof.
  induction l as [|y l IH]; [done|].
  intros [Hne Hnot]%not_elem_of_cons. rewrite occurrences_cons.
  rewrite decide_False by done. by rewrite IH.
Qed.

Lemma occurrences_pos (x : Z) (l : list Z) :
  x ∈ l → (0 < occurrences x l)%nat.
Proof.
  induction l as [|y l IH]; [by intros ?%elem_of_nil|].
  rewrite occurrences_cons. intros [->|Hin]%elem_of_cons.
  - rewrite decide_True by done. lia.
  - specialize (IH Hin). lia.
Qed.

Lemma occurrences_NoDup (x : Z) (l : list Z) :
  NoDup l → x ∈ l → occurrences x l = 1%nat.
Proof.
  induction 1 as [|y l Hnotin Hnodup IH]; intros Hin.
  - by apply elem_of_nil in Hin.
  - rewrite occurrences_cons. apply elem_of_cons in Hin as [->|Hin].
    + rewrite decide_True by done. by rewrite occurrences_not_elem_of.
    + rewrite decide_False; [by rewrite IH|]. by intros ->.
Qed.

Section NodeReconstruction.
Variable budget : nat.
Variable prim_nodes : list PrimNode.t.

(** What a successful [ConstructPrimTreeRec] has done at a node. *)
Lemma ConstructPrimTreeRec_inv (idx : Z) (dest : option Prim) (prim : Prim) :
  ConstructPrimTreeRec (S budget) idx prim_nodes dest = Returns (inr prim) →
  ∃ node,
    vector_at prim_nodes idx = Some node
    ∧ NoDup (variant_children_of (PrimNode.variantNodeMap node))
    ∧ Forall (λ v, 0 ≤ v ≤ vector_size prim_nodes)
        (variant_children_of (PrimNode.variantNodeMap node))
    ∧ (node_maps_ok node →
       ∃ sets cs,
         prim = MkPrim (PrimNode.prim node) (PrimNode.typeName node) sets cs
         ∧ Forall2 (VariantSet_built_from (construct budget prim_nodes))
             (PrimNode.variantNodeMap node) sets
         ∧ Forall2 (built_by (construct budget prim_nodes))
             (ordinary_children_of node) cs).
Proof.
  cbn [ConstructPrimTreeRec]. unfold ConstructPrimTreeRec_body.
  destruct dest as [d|]; [|done].
  destruct (vector_at prim_nodes idx) as [node|]; [|done].
  intros Hres. exists node. split; [done|].
  fold (construct budget prim_nodes) in Hres.
  destruct (variantNodeMap_loop _ _ _ _ _) as [[e|[visited sets]]|] eqn:Hsets;
    [done| |done].
  pose proof (variantNodeMap_loop_NoDup _ _ _ _ _ _ _ Hsets)
    as (_ & Hnodup & _ & Hrange).
  split; [done|]. split; [done|]. intros [Hok Hoks].
  apply variantNodeMap_loop_ok in Hsets as (Hbuilt & -> & _ & _);
    [|done..].
  apply children_loop_inv in Hres as (cs & -> & Hcs).
  exists sets, cs. repeat split; [done|].
  unfold ordinary_children_of.
  erewrite list_filter_iff; [exact Hcs|].
  intros c. simpl. by rewrite elem_of_list_to_set.
Qed.

(** The three ways in which the construction of a Prim is refused. *)

Lemma ConstructPrimTreeRec_null_destination (idx : Z) :
  ConstructPrimTreeRec (S budget) idx prim_nodes None
  = Returns (inl ("`destPrim` is nullptr." +:+ endl)).
Proof. reflexivity. Qed.

Lemma ConstructPrimTreeRec_out_of_range (idx : Z) (dest : Prim) :
  vector_size prim_nodes ≤ idx →
  ConstructPrimTreeRec (S budget) idx prim_nodes (Some dest)
  = Returns (inl ("primIndex exceeds prim_nodes.size()" +:+ endl)).
Proof.
  intros Hidx. cbn [ConstructPrimTreeRec]. unfold ConstructPrimTreeRec_body.
  unfold vector_at. by rewrite bool_decide_false by lia.
Qed.

Lemma ConstructPrimTreeRec_duplicate_variant_child (idx : Z)
  (dest : option Prim) (node : PrimNode.t) (prim : Prim) :
  vector_at prim_nodes idx = Some node →
  ¬ NoDup (variant_children_of (PrimNode.variantNodeMap node)) →
  ConstructPrimTreeRec (S budget) idx prim_nodes dest ≠ Returns (inr prim).
Proof.
  intros Hnode Hdup Hres.
  apply ConstructPrimTreeRec_inv in Hres as (node' & Hnode' & Hnodup & _).
  rewrite Hnode in Hnode'. by simplify_eq.
Qed.

End NodeReconstruction.

(** ** Termination of the reconstruction on an ordered store *)

Section ReturningLoops.
Variable rec : Z → option Prim → outcome (string + Prim).
Variable prim_nodes : list PrimNode.t.
Variable reached : Z → Prop.
Hypothesis rec_returns : ∀ c d, reached c → rec c d ≠ Diverge.

Lemma variant_primChildren_loop_returns l :
  Forall reached l →
  ∀ visited acc,
    variant_primChildren_loop rec prim_nodes l visited acc ≠ Diverge.
Proof.
  induction 1 as [|c l Hc _ IH]; intros visited acc; simpl; [done|].
  case_bool_decide; [done|].
  destruct (_ && _); [|done].
  pose proof (rec_returns c (Some dummy_Prim) Hc) as Hret.
  destruct (rec c _) as [[e|p]|]; [done|apply IH|done].
Qed.

Lemma variants_loop_returns name items :
  Forall reached (items.*2 ≫= VariantNode.primChildren) →
  ∀ visited vset,
    variants_loop rec prim_nodes name items visited vset ≠ Diverge.
Proof.
  induction items as [|[k vn] items IH]; intros Hall visited vset; simpl;
    [done|].
  rewrite fmap_cons, bind_cons in Hall.
  apply Forall_app in Hall as [Hvn Hall].
  pose proof (variant_primChildren_loop_returns _ Hvn visited []) as Hret.
  destruct (variant_primChildren_loop _ _ _ _ _) as [[e|[ix pc]]|];
    [done| |done].
  by apply IH.
Qed.

Lemma variantNodeMap_loop_returns variantNodeMap :
  Forall reached (variant_children_of variantNodeMap) →
  ∀ visited sets,
    variantNodeMap_loop rec prim_nodes variantNodeMap visited sets ≠ Diverge.
Proof.
  unfold variant_children_of.
  induction variantNodeMap as [|[k variants] rest IH];
    intros Hall visited sets; simpl; [done|].
  rewrite fmap_cons, bind_cons in Hall.
  apply Forall_app in Hall as [Hvs Hall].
  pose proof (variants_loop_returns k _ Hvs visited VariantSetOps.default)
    as Hret.
  destruct (variants_loop _ _ _ _ _ _) as [[e|[ix vset]]|]; [done| |done].
  by apply IH.
Qed.

Lemma children_loop_returns children :
  Forall reached children →
  ∀ visited prim, children_loop rec children visited prim ≠ Diverge.
Proof.
  induction 1 as [|c l Hc _ IH]; intros visited prim; simpl; [done|].
  case_bool_decide; [apply IH|].
  pose proof (rec_returns c (Some dummy_Prim) Hc) as Hret.
  destruct (rec c _) as [[e|p]|]; [done|apply IH|done].
Qed.

End ReturningLoops.

Section Termination.
Variable prim_nodes : list PrimNode.t.
Hypothesis prim_nodes_ordered : store_is_ordered prim_nodes.

(** On an ordered store the construction of the Prim of the slot [idx]
    returns, with [true] or with [false], once the budget exceeds the
    number of slots from [idx] on. *)
Lemma ConstructPrimTreeRec_returns (budget : nat) :
  ∀ idx dest,
    (Z.to_nat (vector_size prim_nodes - idx) < budget)%nat →
    ConstructPrimTreeRec budget idx prim_nodes dest ≠ Diverge.
Proof.
  induction budget as [|budget IH]; intros idx dest Hb; [lia|].
  cbn [ConstructPrimTreeRec]. unfold ConstructPrimTreeRec_body.
  destruct dest; [|done].
  destruct (vector_at prim_nodes idx) as [node|] eqn:Hnode; [|done].
  destruct (prim_nodes_ordered idx node Hnode) as [Hch Hvc].
  apply vector_at_Some in Hnode as [Hidx _].
  assert (∀ c d,
            idx < c → ConstructPrimTreeRec budget c prim_nodes d ≠ Diverge)
    as Hrec.
  { intros c d Hc. apply IH. lia. }
  pose proof (variantNodeMap_loop_returns _ prim_nodes _ Hrec _ Hvc ∅
                StdMap.empty) as Hsets.
  destruct (variantNodeMap_loop _ _ _ _ _) as [[e|[visited sets]]|];
    [done| |done].
  by apply (children_loop_returns _ _ Hrec).
Qed.

(** A variant child listed twice makes the construction return [false]. *)
Lemma ConstructPrimTreeRec_duplicate_variant_child_fails (budget : nat)
  (idx : Z) (dest : option Prim) (node : PrimNode.t) :
  (Z.to_nat (vector_size prim_nodes - idx) ≤ budget)%nat →
  vector_at prim_nodes idx = Some node →
  ¬ NoDup (variant_children_of (PrimNode.variantNodeMap node)) →
  ∃ e,
    ConstructPrimTreeRec (S budget) idx prim_nodes dest = Returns (inl e).
Proof.
  intros Hb Hnode Hdup.
  pose proof (ConstructPrimTreeRec_returns (S budget) idx dest) as Hret.
  pose proof (ConstructPrimTreeRec_duplicate_variant_child budget prim_nodes
                idx dest node) as Hfail.
  destruct (ConstructPrimTreeRec _ _ _ _) as [[e|p]|].
  - by exists e.
  - by destruct (Hfail p).
  - destruct Hret; [lia|done].
Qed.

End Termination.

Section StageTermination.
Context `{Collaborators}.

Lemma ReconstructStage_loop_returns (budget : nat) (toplevel : list Z) :
  ∀ st,
    store_is_ordered (Impl._prim_nodes st) →
    Forall (λ idx, 0 ≤ idx) toplevel →
    (Z.to_nat (vector_size (Impl._prim_nodes st)) < budget)%nat →
    ReconstructStage_loop budget toplevel st ≠ Diverge.
Proof.
  induction toplevel as [|idx toplevel IH]; intros st Hord Hall Hb; simpl;
    [done|].
  apply Forall_cons in Hall as [Hidx Hall].
  pose proof (ConstructPrimTreeRec_returns _ Hord budget idx
                (Some dummy_Prim)) as Hret.
  destruct (ConstructPrimTreeRec _ _ _ _) as [[e|p]|]; [done| |].
  - apply IH; by destruct st.
  - destruct Hret; [lia|done].
Qed.

(** [ReconstructStage] returns on an ordered store. *)
Lemma ReconstructStage_returns (st : Impl.t) :
  store_is_ordered (Impl._prim_nodes st) →
  Forall (λ idx, 0 ≤ idx) (Impl._toplevel_prims st) →
  ReconstructStage (S (Z.to_nat (vector_size (Impl._prim_nodes st)))) st
  ≠ Diverge.
Proof.
  intros Hord Hall. unfold ReconstructStage.
  pose proof (ReconstructStage_loop_returns
                (S (Z.to_nat (vector_size (Impl._prim_nodes st))))
                (Impl._toplevel_prims st)
                (Impl.set_stage (Stage.set_root_prims [] (Impl._stage st)) st))
    as Hret.
  destruct st as [stage err warn top nodes ? ? ? ?]; simpl in *.
  destruct (ReconstructStage_loop _ _ _) as [[[] st1]|]; [done..|].
  destruct Hret; [done|done|lia|done].
Qed.

End StageTermination.

Lemma elem_of_variant_children_of variantNodeMap vs variants v vn c :
  StdMap.find vs variantNodeMap = Some variants →
  StdMap.find v variants = Some vn →
  c ∈ VariantNode.primChildren vn →
  c ∈ variant_children_of variantNodeMap.
Proof.
  intros Hvs%find_Some_elem_of Hv%find_Some_elem_of Hc.
  unfold variant_children_of.
  apply list_elem_of_bind. exists variants. split.
  - apply list_elem_of_bind. exists vn. split; [done|].
    apply list_elem_of_fmap. by exists (v, vn).
  - apply list_elem_of_fmap. by exists (vs, variants).
Qed.

Lemma int64_of_size_t_small (z : Z) :
  0 ≤ z < 2 ^ 63 → int64_of_size_t z = z.
Proof.
  intros Hz. unfold int64_of_size_t. rewrite Z.mod_small; lia.
Qed.

(** C4: when the construction of a node succeeds, a child index that one
    of its variants records occurs once among the variant children of the
    node, the Prim built from it sits in the [primChildren] of the
    corresponding output variant, and it is not among the indices from
    which the ordinary children of the output Prim are built. *)
Theorem variant_child_emitted_in_variant_only (budget : nat)
  (prim_nodes : list PrimNode.t) (idx : Z) (node : PrimNode.t) (prim : Prim)
  (vs v : string) (variants : StdMap.t VariantNode.t) (vn : VariantNode.t)
  (c : Z) :
  vector_size prim_nodes ≤ 2 ^ 63 →
  vector_at prim_nodes idx = Some node →
  node_maps_ok node →
  ConstructPrimTreeRec (S budget) idx prim_nodes (Some dummy_Prim)
  = Returns (inr prim) →
  StdMap.find vs (PrimNode.variantNodeMap node) = Some variants →
  StdMap.find v variants = Some vn →
  c ∈ VariantNode.primChildren vn →
  occurrences c (variant_children_of (PrimNode.variantNodeMap node)) = 1%nat
  ∧ (∃ vset variant,
       StdMap.find vs (PrimOps.variantSets prim) = Some vset
       ∧ StdMap.find v (VariantSetOps.variantSet vset) = Some variant
       ∧ Forall2 (built_by (construct budget prim_nodes))
           (VariantNode.primChildren vn) (VariantOps.primChildren variant))
  ∧ (c ∉ ordinary_children_of node)
  ∧ Forall2 (built_by (construct budget prim_nodes))
      (ordinary_children_of node) (PrimOps.children prim).
Proof.
  intros Hsize Hnode Hok Hres Hvs Hv Hc.
  apply ConstructPrimTreeRec_inv in Hres as (node' & Hnode' & Hinv).
  rewrite Hnode in Hnode'. simplify_eq.
  destruct Hinv as (Hnodup & Hrange & Hinv).
  destruct (Hinv Hok) as (sets & cs & -> & Hsets & Hcs).
  pose proof (elem_of_variant_children_of _ _ _ _ _ _ Hvs Hv Hc) as Hin.
  split; [by apply occurrences_NoDup|]. split; [|split; [|done]].
  - destruct (find_Forall2
                (λ x y, Forall2 (Variant_built_from (construct budget prim_nodes))
                          x (VariantSetOps.variantSet y))
                vs variants _ sets Hsets Hvs) as (vset & Hvset & Hvars).
    destruct (find_Forall2
                (λ x y,
                   VariantOps.metas y = VariantNode.metas x
                   ∧ VariantOps.properties y = VariantNode.props x
                   ∧ Forall2 (built_by (construct budget prim_nodes))
                       (VariantNode.primChildren x) (VariantOps.primChildren y))
                v vn _ _ Hvars Hv) as (variant & Hvariant & _ & _ & Hprims).
    eauto.
  - unfold ordinary_children_of. rewrite list_elem_of_filter.
    intros [Hnot _]. apply Hnot.
    rewrite Forall_forall in Hrange. specialize (Hrange c Hin).
    assert (c ≠ vector_size prim_nodes) as Hne.
    { intros ->.
      assert (∃ p, built_by (construct budget prim_nodes)
                     (vector_size prim_nodes) p) as [p Hp].
      { destruct (find_Forall2
                    (λ x y, Forall2 (Variant_built_from
                                       (construct budget prim_nodes))
                              x (VariantSetOps.variantSet y))
                    vs variants _ sets Hsets Hvs) as (vset & _ & Hvars).
        destruct (find_Forall2
                    (λ x y,
                       VariantOps.metas y = VariantNode.metas x
                       ∧ VariantOps.properties y = VariantNode.props x
                       ∧ Forall2 (built_by (construct budget prim_nodes))
                           (VariantNode.primChildren x)
                           (VariantOps.primChildren y))
                    v vn _ _ Hvars Hv) as (variant & _ & _ & _ & Hprims).
        apply list_elem_of_lookup in Hc as [n Hn].
        destruct (Forall2_lookup_l _ _ _ _ _ Hprims Hn) as (p & _ & Hp).
        eauto. }
      unfold built_by, construct in Hp. destruct budget as [|b]; [done|].
      apply ConstructPrimTreeRec_inv in Hp as (n' & Hn' & _).
      apply vector_at_Some in Hn'. lia. }
    rewrite int64_of_size_t_small by lia. done.
Qed.

Lemma variant_child_emitted_in_variant_only_witness :
  vector_size splicing_nodes ≤ 2 ^ 63
  ∧ vector_at splicing_nodes 0 = Some splicing_root_node
  ∧ node_maps_ok splicing_root_node
  ∧ ConstructPrimTreeRec 2 0 splicing_nodes (Some dummy_Prim)
    = Returns (inr splicing_root_prim)
  ∧ StdMap.find "v" (PrimNode.variantNodeMap splicing_root_node)
    = Some [("a", VariantNode.mk PrimMeta.default StdMap.empty [1]);
            ("b", VariantNode.mk PrimMeta.default StdMap.empty [])]
  ∧ StdMap.find "a"
      [("a", VariantNode.mk PrimMeta.default StdMap.empty [1]);
       ("b", VariantNode.mk PrimMeta.default StdMap.empty [])]
    = Some (VariantNode.mk PrimMeta.default StdMap.empty [1])
  ∧ 1 ∈ VariantNode.primChildren
          (VariantNode.mk PrimMeta.default StdMap.empty [1])
  ∧ occurrences 1
      (variant_children_of (PrimNode.variantNodeMap splicing_root_node))
    = 1%nat
  ∧ (1 ∉ ordinary_children_of splicing_root_node)
  ∧ PrimOps.children splicing_root_prim = [].
Proof.
  assert (vector_size splicing_nodes ≤ 2 ^ 63) as Hsize.
  { vm_compute. discriminate. }
  assert (vector_at splicing_nodes 0 = Some splicing_root_node) as Hnode.
  { vm_compute. reflexivity. }
  assert (node_maps_ok splicing_root_node) as Hok.
  { split; [vm_compute; reflexivity|]. vm_compute. repeat constructor. }
  assert (ConstructPrimTreeRec 2 0 splicing_nodes (Some dummy_Prim)
          = Returns (inr splicing_root_prim)) as Hres.
  { vm_compute. reflexivity. }
  assert (StdMap.find "v" (PrimNode.variantNodeMap splicing_root_node)
          = Some [("a", VariantNode.mk PrimMeta.default StdMap.empty [1]);
                  ("b", VariantNode.mk PrimMeta.default StdMap.empty [])])
    as Hvs.
  { vm_compute. reflexivity. }
  assert (StdMap.find "a"
            [("a", VariantNode.mk PrimMeta.default StdMap.empty [1]);
             ("b", VariantNode.mk PrimMeta.default StdMap.empty [])]
          = Some (VariantNode.mk PrimMeta.default StdMap.empty [1])) as Hv.
  { vm_compute. reflexivity. }
  assert (1 ∈ VariantNode.primChildren
                (VariantNode.mk PrimMeta.default StdMap.empty [1])) as Hc.
  { simpl. apply elem_of_cons. by left. }
  destruct (variant_child_emitted_in_variant_only 1 splicing_nodes 0
              splicing_root_node splicing_root_prim "v" "a" _ _ 1
              Hsize Hnode Hok Hres Hvs Hv Hc)
    as (Honce & _ & Hnot & Hchildren).
  repeat (split; [assumption|]).
  vm_compute. reflexivity.
Defined.

(** C2, as stated, fails: on the duplicate-variant-child sample
    [ReconstructStage] returns [false], and the Stage still holds the root
    Prim built from the first top-level entry. *)
Lemma ReconstructStage_failure_leaves_roots :
  ReconstructStage (H := sample_collaborators) 3
    (reader_after run_duplicate_variant_child LoadState_Toplevel)
  = Returns (false, reconstructed run_duplicate_variant_child)
  ∧ Stage.root_prims
      (Impl._stage (reconstructed run_duplicate_variant_child))
    = [duplicate_first_root]
  ∧ Stage.root_prims
      (Impl._stage (reconstructed run_duplicate_variant_child))
    ≠ [].
Proof.
  split; [vm_compute; reflexivity|]. split; [vm_compute; reflexivity|].
  vm_compute. discriminate.
Qed.

Section StageReconstruction.
Context `{Collaborators}.

Lemma ReconstructStage_loop_failure (budget : nat) (toplevel : list Z) :
  ∀ (st : Impl.t) (k : nat) (idx : Z) (e : string) (built : list Prim),
    toplevel !! k = Some idx →
    Forall2 (built_by (construct budget (Impl._prim_nodes st)))
      (take k toplevel) built →
    construct budget (Impl._prim_nodes st) idx (Some dummy_Prim)
    = Returns (inl e) →
    ReconstructStage_loop budget toplevel st
    = Returns
        (false,
         Impl.set_err e
           (Impl.set_stage
              (Stage.set_root_prims
                 (Stage.root_prims (Impl._stage st) ++ built)
                 (Impl._stage st)) st)).
Proof.
  induction toplevel as [|i toplevel IH]; intros st k idx e built Hk;
    [done|].
  destruct k as [|k]; simpl in Hk.
  - simplify_eq. intros Hbuilt Hfail. apply Forall2_nil_inv_l in Hbuilt.
    subst built. simpl. unfold construct in Hfail. rewrite Hfail.
    rewrite app_nil_r. by destruct st as [[] ?].
  - intros Hbuilt Hfail. simpl in Hbuilt.
    apply Forall2_cons_inv_l in Hbuilt as (p & built' & Hp & Hbuilt & ->).
    simpl. unfold built_by, construct in Hp. rewrite Hp.
    erewrite (IH _ k idx e built' Hk).
    + destruct st as [[] ?]; simpl. by rewrite <- app_assoc.
    + by destruct st.
    + by destruct st.
Qed.

Lemma ReconstructStage_loop_success (budget : nat) (toplevel : list Z) :
  ∀ (st st' : Impl.t),
    ReconstructStage_loop budget toplevel st = Returns (true, st') →
    ∃ built,
      Forall2 (built_by (construct budget (Impl._prim_nodes st))) toplevel
        built
      ∧ st'
        = Impl.set_stage
            (Stage.set_root_prims
               (Stage.root_prims (Impl._stage st) ++ built) (Impl._stage st))
            st.
Proof.
  induction toplevel as [|i toplevel IH]; intros st st'; simpl.
  - intros; simplify_eq. exists []. split; [constructor|].
    rewrite app_nil_r. by destruct st' as [[] ?].
  - destruct (ConstructPrimTreeRec budget i _ _) as [[e|p]|] eqn:Hp;
      [done| |done].
    intros Hloop. apply IH in Hloop as (built & Hbuilt & ->).
    exists (p :: built). split.
    + constructor; [done|]. by destruct st.
    + destruct st as [[] ?]; simpl. by rewrite <- app_assoc.
Qed.

(** When the construction of the Prim of a top-level entry returns
    [false] after the entries before it were built, [ReconstructStage]
    returns [false] with the error text in the error string; the Prim of
    the failing entry is not added, and the Stage holds the root Prims
    built from the entries before it. *)
Lemma ReconstructStage_top_level_failure (budget : nat)
  (st : Impl.t) (k : nat) (idx : Z) (e : string) (built : list Prim) :
  Impl._toplevel_prims st !! k = Some idx →
  Forall2 (built_by (construct budget (Impl._prim_nodes st)))
    (take k (Impl._toplevel_prims st)) built →
  ConstructPrimTreeRec budget idx (Impl._prim_nodes st) (Some dummy_Prim)
  = Returns (inl e) →
  ReconstructStage budget st
  = Returns
      (false,
       Impl.set_err e
         (Impl.set_stage (Stage.set_root_prims built (Impl._stage st)) st)).
Proof.
  intros Hk Hbuilt Hfail. unfold ReconstructStage.
  erewrite (ReconstructStage_loop_failure budget _ _ k idx e built).
  - by destruct st as [[] ?].
  - by destruct st as [[] ?].
  - by destruct st as [[] ?].
  - by destruct st as [[] ?].
Qed.

End StageReconstruction.

Section DescentLoops.
Variable rec : Z → option Prim → outcome (string + Prim).
Variable prim_nodes : list PrimNode.t.

Lemma Forall2_built_by_Forall (l : list Z) (ps : list Prim) :
  Forall2 (built_by rec) l ps → Forall (λ c, ∃ p, built_by rec c p) l.
Proof. induction 1; constructor; eauto. Qed.

Lemma variants_loop_descends name items visited vset visited' vset' :
  variants_loop rec prim_nodes name items visited vset
  = Returns (inr (visited', vset')) →
  Forall (λ c, ∃ p, built_by rec c p)
    (items.*2 ≫= VariantNode.primChildren).
Proof.
  revert visited vset.
  induction items as [|[k vn] items IH]; intros visited vset; simpl;
    [constructor|].
  destruct (variant_primChildren_loop _ _ _ _ _) as [[e|[indices ps]]|]
    eqn:Hvc; [done| |done].
  intros Hloop. apply IH in Hloop.
  apply variant_primChildren_loop_inv in Hvc as (ps' & _ & Hbuilt & _).
  apply Forall_app. split; [|done]. by eapply Forall2_built_by_Forall.
Qed.

Lemma variantNodeMap_loop_descends variantNodeMap visited sets visited' sets' :
  variantNodeMap_loop rec prim_nodes variantNodeMap visited sets
  = Returns (inr (visited', sets')) →
  Forall (λ c, ∃ p, built_by rec c p) (variant_children_of variantNodeMap).
Proof.
  unfold variant_children_of. revert visited sets.
  induction variantNodeMap as [|[k variants] m IH]; intros visited sets;
    simpl; [constructor|].
  destruct (variants_loop _ _ _ _ _ _) as [[e|[indices vset]]|] eqn:Hvs;
    [done| |done].
  intros Hloop. apply IH in Hloop.
  apply variants_loop_descends in Hvs.
  apply Forall_app. by split.
Qed.

End DescentLoops.

(** A successful construction has built the Prim of every index it
    descends into: the variant children of the node and its children that
    are no variant children. *)
Lemma ConstructPrimTreeRec_descends (budget : nat)
  (prim_nodes : list PrimNode.t) (idx : Z) (dest : option Prim)
  (prim : Prim) :
  ConstructPrimTreeRec (S budget) idx prim_nodes dest = Returns (inr prim) →
  ∃ node,
    vector_at prim_nodes idx = Some node
    ∧ NoDup (variant_children_of (PrimNode.variantNodeMap node))
    ∧ Forall (λ c, ∃ p, built_by (construct budget prim_nodes) c p)
        (variant_children_of (PrimNode.variantNodeMap node))
    ∧ Forall (λ c, ∃ p, built_by (construct budget prim_nodes) c p)
        (ordinary_children_of node).
Proof.
  cbn [ConstructPrimTreeRec]. unfold ConstructPrimTreeRec_body.
  destruct dest as [d|]; [|done].
  destruct (vector_at prim_nodes idx) as [node|]; [|done].
  intros Hres. exists node. split; [done|].
  fold (construct budget prim_nodes) in Hres.
  destruct (variantNodeMap_loop _ _ _ _ _) as [[e|[visited sets]]|] eqn:Hsets;
    [done| |done].
  pose proof (variantNodeMap_loop_NoDup _ _ _ _ _ _ _ Hsets)
    as (-> & Hnodup & _ & _).
  apply variantNodeMap_loop_descends in Hsets.
  split; [done|]. split; [done|].
  apply children_loop_inv in Hres as (cs & _ & Hcs).
  apply Forall2_built_by_Forall in Hcs.
  unfold ordinary_children_of.
  erewrite list_filter_iff; [exact Hcs|].
  intros c. simpl. rewrite elem_of_union, elem_of_list_to_set.
  set_solver.
Qed.

(** The construction of an index that is directed to an error succeeds for
    no budget. *)
Lemma meets_error_not_built (prim_nodes : list PrimNode.t) (idx : Z) :
  meets_error prim_nodes idx →
  ∀ budget prim,
    ConstructPrimTreeRec budget idx prim_nodes (Some dummy_Prim)
    ≠ Returns (inr prim).
Proof.
  induction 1 as [idx Hnone|idx node Hnode Hdup|idx node c Hnode Hc _ IH
                 |idx node c Hnode Hc _ IH]; intros [|budget] prim; try done.
  - cbn [ConstructPrimTreeRec]. unfold ConstructPrimTreeRec_body.
    by rewrite Hnone.
  - by apply (ConstructPrimTreeRec_duplicate_variant_child budget prim_nodes
                idx _ node).
  - intros Hres.
    apply ConstructPrimTreeRec_descends in Hres
      as (node' & Hnode' & _ & Hvc & _).
    rewrite Hnode in Hnode'. simplify_eq.
    rewrite Forall_forall in Hvc. destruct (Hvc c Hc) as [p Hp].
    by apply (IH budget p).
  - intros Hres.
    apply ConstructPrimTreeRec_descends in Hres
      as (node' & Hnode' & _ & _ & Hch).
    rewrite Hnode in Hnode'. simplify_eq.
    rewrite Forall_forall in Hch. destruct (Hch c Hc) as [p Hp].
    by apply (IH budget p).
Qed.

Section ErrorsAbortThePass.
Context `{Collaborators}.

(** A loop over the top-level entries that returns [false] has stopped at
    an entry whose construction returned [false], with the Prims of the
    entries before it added to the root Prims. *)
Lemma ReconstructStage_loop_stops (budget : nat) (toplevel : list Z) :
  ∀ (st st' : Impl.t),
    ReconstructStage_loop budget toplevel st = Returns (false, st') →
    ∃ k idx e built,
      toplevel !! k = Some idx
      ∧ Forall2 (built_by (construct budget (Impl._prim_nodes st)))
          (take k toplevel) built
      ∧ construct budget (Impl._prim_nodes st) idx (Some dummy_Prim)
        = Returns (inl e)
      ∧ st'
        = Impl.set_err e
            (Impl.set_stage
               (Stage.set_root_prims
                  (Stage.root_prims (Impl._stage st) ++ built)
                  (Impl._stage st)) st).
Proof.
  induction toplevel as [|i toplevel IH]; intros st st'; simpl; [done|].
  destruct (ConstructPrimTreeRec budget i _ _) as [[e|p]|] eqn:Hp;
    [| |done].
  - intros; simplify_eq. exists 0%nat, i, e, []. simpl.
    split; [done|]. split; [constructor|]. split; [done|].
    rewrite app_nil_r. by destruct st as [[] ?].
  - intros Hloop. apply IH in Hloop as (k & idx & e & built & Hk & Hbuilt
                                          & Hfail & ->).
    exists (S k), idx, e, (p :: built). simpl.
    split; [done|]. split.
    { constructor; [done|]. by destruct st. }
    split; [by destruct st|].
    destruct st as [[] ?]; simpl. by rewrite <- app_assoc.
Qed.

(** With a top-level entry that is directed to an error, the loop over the
    top-level entries does not return [true]. *)
Lemma ReconstructStage_loop_meets_error (budget : nat) (toplevel : list Z)
  (idx : Z) :
  ∀ (st st' : Impl.t),
    idx ∈ toplevel →
    meets_error (Impl._prim_nodes st) idx →
    ReconstructStage_loop budget toplevel st ≠ Returns (true, st').
Proof.
  intros st st' Hidx Herr Hloop.
  apply ReconstructStage_loop_success in Hloop as (built & Hbuilt & _).
  apply list_elem_of_lookup in Hidx as [k Hk].
  destruct (Forall2_lookup_l _ _ _ _ _ Hbuilt Hk) as (p & _ & Hp).
  by apply (meets_error_not_built _ _ Herr budget p).
Qed.

(** C2 (amended): an out-of-range index or a variant child listed twice,
    met at any depth below a top-level entry, makes the pass fail:
    [ReconstructStage] returns [true] for no budget, and on a store in
    which the children and the variant children of a slot have larger
    indices than the slot (so that the recursion ends) it returns [false]
    with the error text of the failing construction in the error string.
    The partial result is kept: the Stage then holds the root Prims built
    from the top-level entries before the failing one.  A null destination,
    which [ReconstructStage] passes at no call, makes
    [ConstructPrimTreeRec] return [false] at once. *)
Theorem ReconstructStage_error_aborts_pass (budget : nat) (st : Impl.t)
  (idx : Z) :
  idx ∈ Impl._toplevel_prims st →
  meets_error (Impl._prim_nodes st) idx →
  (∀ st', ReconstructStage budget st ≠ Returns (true, st'))
  ∧ (store_is_ordered (Impl._prim_nodes st) →
     Forall (λ i, 0 ≤ i) (Impl._toplevel_prims st) →
     (Z.to_nat (vector_size (Impl._prim_nodes st)) < budget)%nat →
     ∃ k failing e built,
       Impl._toplevel_prims st !! k = Some failing
       ∧ Forall2 (built_by (construct budget (Impl._prim_nodes st)))
           (take k (Impl._toplevel_prims st)) built
       ∧ ConstructPrimTreeRec budget failing (Impl._prim_nodes st)
           (Some dummy_Prim)
         = Returns (inl e)
       ∧ ReconstructStage budget st
         = Returns
             (false,
              Impl.set_err e
                (Impl.set_stage
                   (Stage.set_root_prims built (Impl._stage st)) st)))
  ∧ (∀ b i,
       ConstructPrimTreeRec (S b) i (Impl._prim_nodes st) None
       = Returns (inl ("`destPrim` is nullptr." +:+ endl))).
Proof.
  intros Hidx Herr.
  pose (st0 := Impl.set_stage (Stage.set_root_prims [] (Impl._stage st)) st).
  assert (Impl._toplevel_prims st0 = Impl._toplevel_prims st) as Htop
    by (by destruct st).
  assert (Impl._prim_nodes st0 = Impl._prim_nodes st) as Hnodes
    by (by destruct st).
  assert (∀ st1, ReconstructStage_loop budget (Impl._toplevel_prims st0) st0
                 ≠ Returns (true, st1)) as Hnot.
  { intros st1. apply (ReconstructStage_loop_meets_error _ _ idx).
    - by rewrite Htop.
    - by rewrite Hnodes. }
  split; [|split; [|done]].
  - intros st'. unfold ReconstructStage. fold st0.
    destruct (ReconstructStage_loop _ _ _) as [[[] st1]|] eqn:Hloop;
      [|done..]. by destruct (Hnot st1).
  - intros Hord Hall Hb.
    pose proof (ReconstructStage_loop_returns budget
                  (Impl._toplevel_prims st0) st0) as Hret.
    rewrite Hnodes, Htop in Hret. specialize (Hret Hord Hall Hb).
    unfold ReconstructStage. fold st0.
    rewrite Htop in *.
    destruct (ReconstructStage_loop _ _ _) as [[[] st1]|] eqn:Hloop;
      [by destruct (Hnot st1)| |done].
    apply ReconstructStage_loop_stops in Hloop
      as (k & failing & e & built & Hk & Hbuilt & Hfail & ->).
    rewrite Hnodes in Hbuilt, Hfail.
    exists k, failing, e, built. repeat split; [done..|].
    by destruct st as [[] ?].
Qed.

End ErrorsAbortThePass.

Lemma ReconstructStage_error_aborts_pass_witness :
  1 ∈ Impl._toplevel_prims nested_duplicate_reader
  ∧ meets_error nested_duplicate_nodes 1
  ∧ store_is_ordered nested_duplicate_nodes
  ∧ ReconstructStage (H := sample_collaborators) 5 nested_duplicate_reader
    = Returns
        (false,
         Impl.set_err
           ("variant primIdx 3 is referenced multiple times." +:+ endl)
           (Impl.set_stage
              (Stage.set_root_prims [nested_duplicate_first_root]
                 (Impl._stage nested_duplicate_reader))
              nested_duplicate_reader))
  ∧ (∀ st',
       ReconstructStage (H := sample_collaborators) 5 nested_duplicate_reader
       ≠ Returns (true, st'))
  ∧ ∃ k failing e built,
      Impl._toplevel_prims nested_duplicate_reader !! k = Some failing
      ∧ Forall2 (built_by (construct 5 nested_duplicate_nodes))
          (take k (Impl._toplevel_prims nested_duplicate_reader)) built
      ∧ ConstructPrimTreeRec 5 failing nested_duplicate_nodes
          (Some dummy_Prim)
        = Returns (inl e)
      ∧ ReconstructStage (H := sample_collaborators) 5
          nested_duplicate_reader
        = Returns
            (false,
             Impl.set_err e
               (Impl.set_stage
                  (Stage.set_root_prims built
                     (Impl._stage nested_duplicate_reader))
                  nested_duplicate_reader)).
Proof.
  assert (1 ∈ Impl._toplevel_prims nested_duplicate_reader) as Hidx.
  { apply (bool_decide_unpack _). vm_compute. exact I. }
  assert (meets_error nested_duplicate_nodes 1) as Herr.
  { eapply (meets_error_in_child _ 1 _ 2).
    - vm_compute. reflexivity.
    - apply (bool_decide_unpack _). vm_compute. exact I.
    - eapply meets_duplicate_variant_child.
      + vm_compute. reflexivity.
      + apply (bool_decide_unpack _). vm_compute. exact I. }
  assert (store_is_ordered nested_duplicate_nodes) as Hord.
  { intros i node Hat. apply vector_at_Some in Hat as [Hrange Hlk].
    assert (vector_size nested_duplicate_nodes = 4) as Hsize
      by (vm_compute; reflexivity).
    assert (i = 0 ∨ i = 1 ∨ i = 2 ∨ i = 3) as [-> | [-> | [-> | ->]]] by lia;
      vm_compute in Hlk; injection Hlk as <-; simpl;
      split; repeat constructor. }
  assert (Forall (λ i, 0 ≤ i) (Impl._toplevel_prims nested_duplicate_reader))
    as Htop.
  { apply (bool_decide_unpack _). vm_compute. exact I. }
  assert (Z.to_nat (vector_size (Impl._prim_nodes nested_duplicate_reader))
          < 5)%nat as Hb.
  { vm_compute. lia. }
  repeat (split; [assumption|]).
  split; [vm_compute; reflexivity|].
  destruct (ReconstructStage_error_aborts_pass (H := sample_collaborators) 5
              nested_duplicate_reader 1 Hidx Herr) as (Hnot & Hret & _).
  split; [exact Hnot|]. exact (Hret Hord Htop Hb).
Defined.

(** ** Reconstruction of a forest *)

Lemma occurrences_filter (P : Z → Prop) `{∀ x, Decision (P x)} (i : Z)
  (l : list Z) :
  occurrences i (filter P l)
  = if decide (P i) then occurrences i l else 0%nat.
Proof.
  induction l as [|y l IH]; simpl.
  - by case_decide.
  - destruct (decide (P y)) as [Hy|Hy].
    + rewrite filter_cons_True by done. rewrite !occurrences_cons, IH.
      repeat case_decide; simplify_eq; try done; lia.
    + rewrite filter_cons_False by done. rewrite occurrences_cons, IH.
      repeat case_decide; simplify_eq; try done; lia.
Qed.

Lemma NoDup_occurrences (l : list Z) :
  (∀ x, x ∈ l → occurrences x l = 1%nat) → NoDup l.
Proof.
  induction l as [|y l IH]; intros Hocc; constructor.
  - intros Hin. specialize (Hocc y (list_elem_of_here _ _)) as Hy.
    rewrite occurrences_cons, decide_True in Hy by done.
    apply occurrences_pos in Hin. lia.
  - apply IH. intros x Hx.
    specialize (Hocc x (list_elem_of_further _ _ _ Hx)) as Hx'.
    rewrite occurrences_cons in Hx'. apply occurrences_pos in Hx as Hpos.
    case_decide; lia.
Qed.

Section Forest.
Variable prim_nodes : list PrimNode.t.

Lemma parent_occurrences_app i l k :
  parent_occurrences prim_nodes i (l ++ k)
  = (parent_occurrences prim_nodes i l + parent_occurrences prim_nodes i k)%nat.
Proof.
  unfold parent_occurrences. destruct (vector_at prim_nodes i); [|done].
  case_decide; [done|]. apply occurrences_app.
Qed.

Lemma built_by_valid budget j p :
  built_by (construct budget prim_nodes) j p →
  is_Some (vector_at prim_nodes j).
Proof.
  unfold built_by, construct. destruct budget as [|b]; [done|].
  intros (node & Hnode & _)%ConstructPrimTreeRec_inv. eauto.
Qed.

Lemma visit_orders_concat cl orders :
  Forall2 (visit_order prim_nodes) cl orders →
  (∀ j, j ∈ concat orders →
        ∃ budget p, built_by (construct budget prim_nodes) j p)
  ∧ ∀ i,
      is_Some (vector_at prim_nodes i) →
      occurrences i (concat orders)
      = (occurrences i cl + parent_occurrences prim_nodes i (concat orders))%nat.
Proof.
  induction 1 as [|c o cl orders [Hbuilt Hocc] _ [IHb IHo]]; simpl.
  - split; [by intros j ?%elem_of_nil|].
    intros i Hi. unfold parent_occurrences.
    destruct (vector_at prim_nodes i); [|done]. by case_decide.
  - split.
    + intros j [Hj|Hj]%elem_of_app; auto.
    + intros i Hi.
      rewrite occurrences_app, parent_occurrences_app, occurrences_cons.
      rewrite (Hocc i Hi), (IHo i Hi). lia.
Qed.

Section Orders.
Variable b : nat.
Hypothesis IH :
  ∀ r p,
    built_by (construct b prim_nodes) r p →
    ∃ order,
      Forall2 (slot_value prim_nodes) order (Prim_values p)
      ∧ visit_order prim_nodes r order.

Lemma built_orders l ps :
  Forall2 (built_by (construct b prim_nodes)) l ps →
  ∃ orders,
    Forall2 (visit_order prim_nodes) l orders
    ∧ Forall2 (slot_value prim_nodes) (concat orders) (Prims_values ps).
Proof.
  induction 1 as [|c p l ps Hc _ (orders & Ho & Hv)].
  - exists []. split; constructor.
  - destruct (IH c p Hc) as (o & Hvo & Hoo).
    exists (o :: orders). split; [by constructor|].
    cbn [concat]. unfold Prims_values in *. rewrite bind_cons.
    by apply Forall2_app.
Qed.

Lemma variants_orders variants outs :
  Forall2 (Variant_built_from (construct b prim_nodes)) variants outs →
  ∃ orders,
    Forall2 (visit_order prim_nodes)
      (variants.*2 ≫= VariantNode.primChildren) orders
    ∧ Forall2 (slot_value prim_nodes) (concat orders)
        (outs.*2 ≫= Variant_values).
Proof.
  induction 1 as [|x y variants outs (_ & _ & _ & Hprims) _
                    (orders & Ho & Hv)].
  - exists []. split; constructor.
  - destruct (built_orders _ _ Hprims) as (orders1 & Ho1 & Hv1).
    exists (orders1 ++ orders). csimpl. rewrite concat_app.
    split; by apply Forall2_app.
Qed.

Lemma variantSets_orders variantNodeMap sets :
  Forall2 (VariantSet_built_from (construct b prim_nodes)) variantNodeMap
    sets →
  ∃ orders,
    Forall2 (visit_order prim_nodes) (variant_children_of variantNodeMap)
      orders
    ∧ Forall2 (slot_value prim_nodes) (concat orders)
        (variantSets_values sets).
Proof.
  unfold variant_children_of, variantSets_values.
  induction 1 as [|x y variantNodeMap sets (_ & Hvars) _ (orders & Ho & Hv)].
  - exists []. split; constructor.
  - destruct (variants_orders _ _ Hvars) as (orders1 & Ho1 & Hv1).
    exists (orders1 ++ orders). csimpl. rewrite concat_app.
    split; by apply Forall2_app.
Qed.

End Orders.

Variable toplevel : list Z.
Hypothesis Hsize : vector_size prim_nodes ≤ 2 ^ 63.
Hypothesis Hforest : store_is_forest toplevel prim_nodes.

Lemma children_occurrences r node i :
  vector_at prim_nodes r = Some node →
  is_Some (vector_at prim_nodes i) →
  NoDup (variant_children_of (PrimNode.variantNodeMap node)) →
  occurrences i
    (variant_children_of (PrimNode.variantNodeMap node)
       ++ ordinary_children_of node)
  = occurrences i (PrimNode.children node).
Proof.
  intros Hnode [ni Hni] Hnodup.
  destruct (Hforest r node Hnode) as (_ & _ & _ & Hsub & _).
  destruct (Hforest i ni Hni) as (_ & _ & Hch & _ & _).
  specialize (Hch r node Hnode).
  apply vector_at_Some in Hni as [Hi _].
  rewrite occurrences_app. unfold ordinary_children_of.
  rewrite occurrences_filter.
  rewrite int64_of_size_t_small by lia.
  destruct (decide (i ∉ variant_children_of (PrimNode.variantNodeMap node)))
    as [Hin|Hin].
  - by rewrite occurrences_not_elem_of.
  - apply dec_stable in Hin. rewrite (occurrences_NoDup _ _ Hnodup Hin).
    apply Hsub in Hin. apply occurrences_pos in Hin.
    case_decide; lia.
Qed.

(** The construction of the Prim of [r] visits [r], and below it every
    slot as often as the parent of the slot. *)
Lemma construct_visit_order budget :
  ∀ r p,
    built_by (construct budget prim_nodes) r p →
    ∃ order,
      Forall2 (slot_value prim_nodes) order (Prim_values p)
      ∧ visit_order prim_nodes r order.
Proof.
  induction budget as [|b IH]; intros r p Hb; [done|].
  pose proof Hb as Hb'. unfold built_by, construct in Hb'.
  apply ConstructPrimTreeRec_inv in Hb'
    as (node & Hnode & Hnodup & Hrange & Hinv).
  destruct (Hforest r node Hnode) as (_ & _ & _ & _ & Hok).
  destruct (Hinv Hok) as (sets & cs & -> & Hsets & Hcs).
  destruct (variantSets_orders b IH _ _ Hsets) as (ov & Hov & Hvv).
  destruct (built_orders b IH _ _ Hcs) as (oc & Hoc & Hvc).
  exists (r :: concat ov ++ concat oc). split.
  - rewrite Prim_values_unfold. constructor.
    + unfold slot_value. by rewrite Hnode.
    + by apply Forall2_app.
  - assert (Forall2 (visit_order prim_nodes)
              (variant_children_of (PrimNode.variantNodeMap node)
                 ++ ordinary_children_of node) (ov ++ oc)) as Hall
      by (by apply Forall2_app).
    apply visit_orders_concat in Hall as [Hbuilt Hocc].
    rewrite concat_app in Hbuilt, Hocc. split.
    + intros j [->|Hj]%elem_of_cons; [|by apply Hbuilt].
      by exists (S b), (MkPrim (PrimNode.prim node) (PrimNode.typeName node)
                          sets cs).
    + intros i Hi. rewrite occurrences_cons, (Hocc i Hi).
      rewrite (children_occurrences r node i Hnode Hi Hnodup).
      destruct Hi as [ni Hni]. unfold parent_occurrences. rewrite Hni.
      destruct (Hforest i ni Hni) as (_ & _ & Hch & _ & _).
      rewrite (Hch r node Hnode).
      apply vector_at_Some in Hnode as [Hr _].
      rewrite occurrences_cons.
      repeat case_decide; simplify_eq; lia.
Qed.

(** Every slot of a forest is visited once from the top-level list. *)
Lemma toplevel_occurrences orders :
  Forall2 (visit_order prim_nodes) toplevel orders →
  ∀ i, is_Some (vector_at prim_nodes i) →
       occurrences i (concat orders) = 1%nat.
Proof.
  intros Hall. apply visit_orders_concat in Hall as [_ Hocc].
  assert (∀ n i, Z.to_nat i < n → is_Some (vector_at prim_nodes i) →
                 occurrences i (concat orders) = 1%nat)%nat as Hind.
  { induction n as [|n IHn]; intros i Hlt Hi; [lia|].
    rewrite (Hocc i Hi). destruct Hi as [ni Hni].
    unfold parent_occurrences. rewrite Hni.
    destruct (Hforest i ni Hni) as (Hpar & Htop & _).
    rewrite Htop. case_decide as Hroot; [done|].
    destruct Hpar as [?|Hpar]; [done|].
    rewrite IHn; [done|lia|].
    apply vector_at_Some in Hni as [Hi _].
    unfold vector_at. rewrite bool_decide_true by lia.
    apply lookup_lt_is_Some. unfold vector_size in Hi. lia. }
  intros i Hi. apply (Hind (S (Z.to_nat i))); [lia|done].
Qed.

Lemma toplevel_order_permutation orders :
  Forall2 (visit_order prim_nodes) toplevel orders →
  concat orders ≡ₚ seqZ 0 (vector_size prim_nodes).
Proof.
  intros Hall. pose proof (toplevel_occurrences orders Hall) as Hone.
  apply visit_orders_concat in Hall as [Hbuilt _].
  assert (∀ j, j ∈ concat orders → is_Some (vector_at prim_nodes j))
    as Hvalid.
  { intros j (budget & p & Hp)%Hbuilt. by eapply built_by_valid. }
  apply NoDup_Permutation.
  - apply NoDup_occurrences. auto.
  - apply NoDup_seqZ.
  - intros j. rewrite elem_of_seqZ. split.
    + intros [n Hn]%Hvalid. apply vector_at_Some in Hn. lia.
    + intros Hj.
      assert (is_Some (vector_at prim_nodes j)) as Hs.
      { unfold vector_at. rewrite bool_decide_true by lia.
        apply lookup_lt_is_Some. unfold vector_size in Hj. lia. }
      apply Hone in Hs.
      destruct (decide (j ∈ concat orders)) as [|Hnot]; [done|].
      apply occurrences_not_elem_of in Hnot. lia.
Qed.

End Forest.

(** C3, as stated, fails: in the shared-child sample the slot 2 is listed
    as a variant child of the slot 0 and as an ordinary child of the slot
    1; [ReconstructStage] returns [true] and the output tree holds four
    Prims for the three slots of the store. *)
Lemma shared_child_is_emitted_twice :
  ReconstructStage (H := sample_collaborators) 3
    (reader_after run_shared_child LoadState_Toplevel)
  = Returns (true, reconstructed run_shared_child)
  ∧ ¬ each_index_emitted_once
        (Impl._prim_nodes (reader_after run_shared_child LoadState_Toplevel))
        (Stage.root_prims (Impl._stage (reconstructed run_shared_child))).
Proof.
  split; [vm_compute; reflexivity|].
  intros (order & Hperm & Hvalues).
  apply Forall2_length in Hvalues. apply Permutation_length in Hperm.
  rewrite Hperm in Hvalues. vm_compute in Hvalues. discriminate.
Qed.

Section ForestReconstruction.
Context `{Collaborators}.

(** C3 (amended): when the store is a forest (every slot is listed once,
    in the top-level list or in the child list of its parent, parents
    precede their children, and the variant children of a node are among
    its children), a successful [ReconstructStage] emits every index of
    [0, N) exactly once in the output tree, and no node lists a variant
    child twice.  (The path pass that ends [ReconstructStage] is taken to
    keep the typed values of the tree.) *)
Theorem forest_indices_emitted_once (budget : nat) (st st' : Impl.t) :
  (∀ stage,
     Prims_values
       (Stage.root_prims (compute_absolute_prim_path_and_assign_prim_id stage))
     = Prims_values (Stage.root_prims stage)) →
  vector_size (Impl._prim_nodes st) ≤ 2 ^ 63 →
  store_is_forest (Impl._toplevel_prims st) (Impl._prim_nodes st) →
  ReconstructStage budget st = Returns (true, st') →
  each_index_emitted_once (Impl._prim_nodes st)
    (Stage.root_prims (Impl._stage st'))
  ∧ ∀ i node,
      vector_at (Impl._prim_nodes st) i = Some node →
      NoDup (variant_children_of (PrimNode.variantNodeMap node)).
Proof.
  intros Hpass Hsize Hforest. unfold ReconstructStage.
  destruct (ReconstructStage_loop _ _ _) as [[[] st1]|] eqn:Hloop;
    [|done..].
  intros [= <-].
  apply ReconstructStage_loop_success in Hloop as (built & Hbuilt & ->).
  replace (Impl._prim_nodes (Impl.set_stage _ st)) with (Impl._prim_nodes st)
    in Hbuilt by (by destruct st).
  replace (Impl._toplevel_prims (Impl.set_stage _ st))
    with (Impl._toplevel_prims st) in Hbuilt by (by destruct st).
  destruct (built_orders (Impl._prim_nodes st) budget
              (construct_visit_order (Impl._prim_nodes st)
                 (Impl._toplevel_prims st) Hsize Hforest budget)
              _ _ Hbuilt) as (orders & Horders & Hvalues).
  pose proof (toplevel_order_permutation _ _ Hforest _ Horders)
    as Hperm.
  split.
  - exists (concat orders). split; [done|].
    replace (Prims_values _) with (Prims_values built); [done|].
    destruct st as [[] ?]; simpl. by rewrite Hpass.
  - intros i node Hnode.
    assert (i ∈ concat orders) as Hin.
    { rewrite Hperm. apply elem_of_seqZ.
      apply vector_at_Some in Hnode. lia. }
    apply (visit_orders_concat _ _ _ Horders) in Hin as (b & p & Hp).
    unfold built_by, construct in Hp. destruct b as [|b]; [done|].
    apply ConstructPrimTreeRec_inv in Hp as (node' & Hnode' & Hnodup & _).
    rewrite Hnode in Hnode'. by simplify_eq.
Qed.

End ForestReconstruction.

Lemma forest_indices_emitted_once_witness :
  (∀ stage,
     Prims_values
       (Stage.root_prims
          (compute_absolute_prim_path_and_assign_prim_id
             (Collaborators := sample_collaborators) stage))
     = Prims_values (Stage.root_prims stage))
  ∧ vector_size splicing_nodes ≤ 2 ^ 63
  ∧ store_is_forest
      (Impl._toplevel_prims
         (reader_after run_variant_splicing LoadState_Toplevel))
      splicing_nodes
  ∧ ReconstructStage (H := sample_collaborators) 3
      (reader_after run_variant_splicing LoadState_Toplevel)
    = Returns (true, reconstructed run_variant_splicing)
  ∧ each_index_emitted_once splicing_nodes
      (Stage.root_prims (Impl._stage (reconstructed run_variant_splicing)))
  ∧ ∀ i node,
      vector_at splicing_nodes i = Some node →
      NoDup (variant_children_of (PrimNode.variantNodeMap node)).
Proof.
  assert (∀ stage,
            Prims_values
              (Stage.root_prims
                 (compute_absolute_prim_path_and_assign_prim_id
                    (Collaborators := sample_collaborators) stage))
            = Prims_values (Stage.root_prims stage)) as Hpass.
  { intros stage. reflexivity. }
  assert (vector_size splicing_nodes ≤ 2 ^ 63) as Hsize.
  { vm_compute. discriminate. }
  assert (ReconstructStage (H := sample_collaborators) 3
            (reader_after run_variant_splicing LoadState_Toplevel)
          = Returns (true, reconstructed run_variant_splicing)) as Hres.
  { vm_compute. reflexivity. }
  assert (store_is_forest
            (Impl._toplevel_prims
               (reader_after run_variant_splicing LoadState_Toplevel))
            splicing_nodes) as Hforest.
  {
    assert (vector_size splicing_nodes = 2) as Hlen
      by (vm_compute; reflexivity).
    assert (∀ i node,
              vector_at splicing_nodes i = Some node →
              (i = 0 ∧ vector_at splicing_nodes 0 = Some node)
              ∨ (i = 1 ∧ vector_at splicing_nodes 1 = Some node)) as Hcases.
    { intros i node Hnode. pose proof Hnode as [Hi _]%vector_at_Some.
      rewrite Hlen in Hi.
      assert (i = 0 ∨ i = 1) as [->| ->] by lia; auto. }
    intros i node Hnode.
    apply Hcases in Hnode as [[-> Hnode]|[-> Hnode]];
      vm_compute in Hnode; simplify_eq.
    - split; [by left|]. split; [vm_compute; reflexivity|]. split.
      + intros r rnode Hr.
        apply Hcases in Hr as [[-> Hr]|[-> Hr]]; vm_compute in Hr;
          simplify_eq; vm_compute; reflexivity.
      + split.
        * intros x Hx. vm_compute in Hx. vm_compute. exact Hx.
        * split; [vm_compute; reflexivity|]. vm_compute. repeat constructor.
    - split; [right; simpl; lia|]. split; [vm_compute; reflexivity|]. split.
      + intros r rnode Hr.
        apply Hcases in Hr as [[-> Hr]|[-> Hr]]; vm_compute in Hr;
          simplify_eq; vm_compute; reflexivity.
      + split.
        * intros x Hx. vm_compute in Hx. vm_compute. exact Hx.
        * split; [vm_compute; reflexivity|]. vm_compute. repeat constructor. }
  split; [exact Hpass|]. split; [exact Hsize|].
  split; [exact Hforest|]. split; [exact Hres|].
  exact (forest_indices_emitted_once (H := sample_collaborators) 3
           (reader_after run_variant_splicing LoadState_Toplevel)
           (reconstructed run_variant_splicing)
           Hpass Hsize Hforest Hres).
Defined.

(** ** Further properties of the reader *)

Section EnumTables.
Context `{Collaborators}.
Context {E : Type}.
Implicit Types (enums : list (E * string)) (tok : string) (e : E).

Lemma token_allowed_elem_of enums tok :
  token_allowed enums tok = true ↔ tok ∈ enums.*2.
Proof.
  induction enums as [|[e name] enums IH]; simpl.
  - split; [done|]. by intros ?%elem_of_nil.
  - rewrite orb_true_iff, IH, elem_of_cons.
    by destruct (String.eqb_spec tok name); naive_solver.
Qed.

Lemma enum_of_token_Some enums tok e :
  enum_of_token enums tok = Some e → (e, tok) ∈ enums.
Proof.
  induction enums as [|[e' name] enums IH]; simpl; [done|].
  destruct (String.eqb_spec tok name) as [->|Hne].
  - intros [= ->]. apply elem_of_cons. by left.
  - intros He. apply elem_of_cons. right. by apply IH.
Qed.

Lemma enum_of_token_None enums tok :
  enum_of_token enums tok = None ↔ tok ∉ enums.*2.
Proof.
  induction enums as [|[e' name] enums IH]; simpl.
  - split; [|done]. intros _ ?%elem_of_nil. done.
  - rewrite not_elem_of_cons.
    destruct (String.eqb_spec tok name) as [->|Hne]; [naive_solver|].
    rewrite IH. naive_solver.
Qed.

(** X1: [EnumHandler] returns a value exactly for the tokens of its
    table, and the value is one that the table lists with the token; any
    other token is refused, with the list of the allowed tokens when the
    table is not empty and as an invalid token when it is. *)
Theorem EnumHandler_returns_listed_value (prop_name tok : string) enums :
  match EnumHandler prop_name tok enums with
  | Expected e => (e, tok) ∈ enums
  | Unexpected msg =>
      (tok ∉ enums.*2)
      ∧ msg
        = match enums with
          | [] =>
              quote tok +:+ " is an invalid token for attribute `"
                +:+ prop_name +:+ "`"
          | _ =>
              "Allowed tokens are [" +:+ join ", " (quote <$> enums.*2)
                +:+ "] but got " +:+ quote tok +:+ "."
          end
  end.
Proof.
  unfold EnumHandler, CheckAllowedTokens.
  destruct enums as [|en enums].
  - simpl. split; [|done]. by intros ?%elem_of_nil.
  - destruct (token_allowed (en :: enums) tok) eqn:Hallowed.
    + destruct (enum_of_token (en :: enums) tok) as [e|] eqn:He.
      * by apply enum_of_token_Some.
      * apply enum_of_token_None in He.
        apply token_allowed_elem_of in Hallowed. done.
    + split; [|done]. intros Hin%token_allowed_elem_of. congruence.
Qed.

End EnumTables.

Lemma string_app_assoc (a b c : string) : (a +:+ b) +:+ c = a +:+ (b +:+ c).
Proof.
  induction a as [|x a IH]; [done|].
  change (String x ((a +:+ b) +:+ c) = String x (a +:+ (b +:+ c))).
  by rewrite IH.
Qed.

Lemma string_app_nil_r (a : string) : a +:+ "" = a.
Proof.
  induction a as [|x a IH]; [done|].
  change (String x (a +:+ "") = String x a). by rewrite IH.
Qed.

Section ErrorString.
Context `{Collaborators}.

Lemma extends_err_refl st : extends_err st st.
Proof. exists "". rewrite string_app_nil_r. by destruct st. Qed.

Lemma extends_err_trans st1 st2 st3 :
  extends_err st1 st2 → extends_err st2 st3 → extends_err st1 st3.
Proof.
  intros (t1 & ->) (t2 & ->). exists (t1 +:+ t2).
  destruct st1; simpl. by rewrite string_app_assoc.
Qed.

Lemma PushError_extends_err s st : extends_err st (PushError s st).
Proof. by exists s. Qed.

Lemma PUSH_ERROR_extends_err s st : extends_err st (PUSH_ERROR s st).
Proof. apply PushError_extends_err. Qed.

Lemma PUSH_ERROR_TAG_extends_err tag s st :
  extends_err st (PUSH_ERROR_TAG tag s st).
Proof. apply PushError_extends_err. Qed.

Lemma PUSH_WARN_extends_err s st : extends_err st (PUSH_WARN s st).
Proof. by exists (warn_text s). Qed.

Lemma apiSchemas_loop_extends_err toks apiSchemas st :
  extends_err st (apiSchemas_loop toks apiSchemas st).2.
Proof.
  revert apiSchemas st. induction toks as [|tok toks IH]; intros apis st.
  - apply extends_err_refl.
  - simpl. destruct (ApiSchemaHandler tok); [apply IH|].
    eapply extends_err_trans; [apply PUSH_WARN_extends_err|apply IH].
Qed.

Create HintDb errs.

Local Hint Resolve extends_err_refl PUSH_ERROR_extends_err
  PUSH_ERROR_TAG_extends_err PUSH_WARN_extends_err : errs.

Lemma ReconstructPrimMeta_entry_extends_err key q var out st :
  extends_err st (ReconstructPrimMeta_entry key q var out st).2.
Proof.
  unfold ReconstructPrimMeta_entry.
  repeat case_match; simpl; auto with errs.
  match goal with
  | E : apiSchemas_loop ?l ?a ?s = (_, ?s') |- extends_err ?s ?s' =>
      replace s' with (apiSchemas_loop l a s).2 by (by rewrite E);
      apply apiSchemas_loop_extends_err
  end.
Qed.

(** X2: [ReconstructPrimMeta] writes nothing of the reader but the error
    string, and it only appends to it: the warnings and the error it
    reports come after the text that was there. *)
Theorem ReconstructPrimMeta_only_appends_to_err (in_meta : PrimMetaMap)
  (out : PrimMeta.t) (st : Impl.t) :
  extends_err st (ReconstructPrimMeta in_meta out st).2.
Proof.
  revert out st.
  induction in_meta as [|[key [q var]] in_meta IH]; intros out st.
  - apply extends_err_refl.
  - simpl.
    pose proof (ReconstructPrimMeta_entry_extends_err key q var out st) as Hd.
    destruct (ReconstructPrimMeta_entry key q var out st) as [[[] out'] st'];
      simpl in *; [|done].
    eapply extends_err_trans; [exact Hd|apply IH].
Qed.

Lemma ReconstructPrimMeta_entry_result key q var out st out' st' :
  (ReconstructPrimMeta_entry key q var out st).1.1
  = (ReconstructPrimMeta_entry key q var out' st').1.1.
Proof.
  unfold ReconstructPrimMeta_entry.
  repeat case_match; simplify_eq; try done.
Qed.

Lemma ReconstructPrimMeta_entry_accepted key q var out st :
  (ReconstructPrimMeta_entry key q var out st).1.1 = entry_accepted key q var.
Proof.
  unfold entry_accepted. cbn [ReconstructPrimMeta].
  rewrite (ReconstructPrimMeta_entry_result key q var out st PrimMeta.default
             Impl.init).
  by destruct (ReconstructPrimMeta_entry key q var PrimMeta.default Impl.init)
    as [[[] ?] ?].
Qed.

Lemma ReconstructPrimMeta_result_entrywise in_meta out st :
  (ReconstructPrimMeta in_meta out st).1.1
  = forallb (λ kv, entry_accepted kv.1 kv.2.1 kv.2.2) in_meta.
Proof.
  revert out st.
  induction in_meta as [|[key [q var]] in_meta IH]; intros out st; [done|].
  simpl.
  pose proof (ReconstructPrimMeta_entry_accepted key q var out st) as Hacc.
  destruct (ReconstructPrimMeta_entry key q var out st) as [[[] out'] st'];
    simpl in Hacc; rewrite <- Hacc; simpl; [apply IH|done].
Qed.

(** X3: whether [ReconstructPrimMeta] returns [true] is decided entry by
    entry: it returns [true] exactly when every entry of the map is one
    that it accepts on its own, whatever the other entries, the fields
    already decoded and the reader. *)
Theorem ReconstructPrimMeta_accepts_entrywise (in_meta : PrimMetaMap)
  (out : PrimMeta.t) (st : Impl.t) :
  (ReconstructPrimMeta in_meta out st).1.1
  = forallb (λ kv, entry_accepted kv.1 kv.2.1 kv.2.2) in_meta.
Proof. apply ReconstructPrimMeta_result_entrywise. Qed.

End ErrorString.

Section MetadataDecoding.
Context `{Collaborators}.

Lemma ReconstructPrimMeta_entry_unknown_key key q var out st :
  key ∉ recognized_keys →
  ReconstructPrimMeta_entry key q var out st
  = (true, out, PUSH_WARN ("TODO: Prim metadataum : " +:+ key) st).
Proof.
  intros Hkey. unfold ReconstructPrimMeta_entry.
  repeat
    match goal with
    | |- context [String.eqb key ?k] =>
        destruct (String.eqb_spec key k) as [->|_];
          [exfalso; apply Hkey; unfold recognized_keys; set_solver|]
    end.
  done.
Qed.

(** X4: metadata keys outside the recognised ones are skipped: a map with
    such keys only makes [ReconstructPrimMeta] return [true] with the
    fields as they were, after one warning per key. *)
Theorem ReconstructPrimMeta_skips_unknown_keys (in_meta : PrimMetaMap)
  (out : PrimMeta.t) (st : Impl.t) :
  Forall (λ kv, kv.1 ∉ recognized_keys) in_meta →
  ReconstructPrimMeta in_meta out st
  = (true, out,
     foldl (λ s kv, PUSH_WARN ("TODO: Prim metadataum : " +:+ kv.1) s) st
       in_meta).
Proof.
  intros Hall. revert st.
  induction Hall as [|[key [q var]] in_meta Hkey _ IH]; intros st; [done|].
  simpl in *. rewrite ReconstructPrimMeta_entry_unknown_key by done.
  apply IH.
Qed.

(** X5: an [apiSchemas] value of type [token[]] with no list-edit
    qualifier or with [prepend] is accepted whatever its tokens: the
    field lists the API names of the tokens that [ApiSchemaHandler]
    knows, in their order and with an empty instance name, and a token it
    does not know only adds a warning. *)
Theorem apiSchemas_keeps_known_names (q : ListEditQual) (toks : list string)
  (tyid : Z) (out : PrimMeta.t) (st : Impl.t) :
  q = Prepend ∨ q = ResetToExplicit →
  ∃ st',
    ReconstructPrimMeta
      [("apiSchemas",
        (q, MkMetaVariable "token[]" tyid (held_token_array toks)))] out st
    = (true,
       PrimMeta.set_apiSchemas
         (mkAPISchemas q
            (omap
               (λ tok, (λ name, (name, "")) <$>
                         expected_value (ApiSchemaHandler tok)) toks))
         out, st')
    ∧ extends_err st st'.
Proof.
  intros Hq.
  assert (∀ toks apis st,
            apiSchemas_loop toks apis st
            = (mkAPISchemas (listOpQual apis)
                 (names apis
                    ++ omap
                         (λ tok, (λ name, (name, "")) <$>
                                   expected_value (ApiSchemaHandler tok))
                         toks),
               (apiSchemas_loop toks apis st).2)) as Hloop.
  { clear. induction toks as [|tok toks IH]; intros apis st; simpl.
    - rewrite app_nil_r. by destruct apis.
    - destruct (ApiSchemaHandler tok) as [name|e]; simpl.
      + rewrite IH. simpl. by rewrite <- app_assoc.
      + by rewrite IH. }
  exists (apiSchemas_loop toks (mkAPISchemas q []) st).2. split.
  - cbn [ReconstructPrimMeta]. unfold ReconstructPrimMeta_entry. simpl.
    replace (bool_decide (q ≠ Prepend) && bool_decide (q ≠ ResetToExplicit))
      with false.
    + by rewrite Hloop.
    + destruct Hq as [-> | ->]; done.
  - apply apiSchemas_loop_extends_err.
Qed.

(** X6: an [apiSchemas] entry with a list-edit qualifier other than
    [prepend] or none makes [ReconstructPrimMeta] return [false], whatever
    the other entries of the map are. *)
Theorem apiSchemas_rejects_other_qualifiers (in_meta : PrimMetaMap)
  (q : ListEditQual) (toks : list string) (tyid : Z) (out : PrimMeta.t)
  (st : Impl.t) :
  q ≠ Prepend → q ≠ ResetToExplicit →
  ("apiSchemas", (q, MkMetaVariable "token[]" tyid (held_token_array toks)))
    ∈ in_meta →
  (ReconstructPrimMeta in_meta out st).1.1 = false.
Proof.
  intros Hq1 Hq2 Hin. rewrite ReconstructPrimMeta_result_entrywise.
  apply not_true_is_false. intros Hall.
  rewrite forallb_forall in Hall.
  apply list_elem_of_In in Hin. specialize (Hall _ Hin). simpl in Hall.
  unfold entry_accepted in Hall. cbn [ReconstructPrimMeta] in Hall.
  unfold ReconstructPrimMeta_entry in Hall. simpl in Hall.
  rewrite !bool_decide_true in Hall by done. done.
Qed.

End MetadataDecoding.

Section StdMapKeys.
Context {V : Type}.
Implicit Types (m : StdMap.t V) (k : string).

Lemma below_not_elem_of k ks : StdMap.below k ks = true → k ∉ ks.
Proof.
  induction ks as [|k' ks IH]; simpl; [by intros _ ?%elem_of_nil|].
  destruct (String.compare k k') eqn:Hcmp; try done.
  intros Hb. apply not_elem_of_cons. split; [|by apply IH].
  intros ->. pose proof (String.compare_antisym k' k') as Ha.
  rewrite Hcmp in Ha. done.
Qed.

Lemma ascending_NoDup ks : StdMap.ascending ks = true → NoDup ks.
Proof.
  induction ks as [|k ks IH]; simpl; [constructor|].
  intros [Hb Ha]%andb_prop. constructor; [|by apply IH].
  by apply below_not_elem_of.
Qed.

Lemma find_None k m : StdMap.find k m = None ↔ k ∉ m.*1.
Proof.
  induction m as [|[k' v'] m IH]; simpl.
  - split; [|done]. by intros _ ?%elem_of_nil.
  - rewrite not_elem_of_cons.
    destruct (String.eqb_spec k k') as [->|Hne]; [naive_solver|].
    rewrite IH. naive_solver.
Qed.

End StdMapKeys.

Section Variants.
Context `{Collaborators}.

Lemma BuildVariants_loop_spec (dict : CustomDataType) :
  ∀ m : gmap string string,
    match BuildVariants_loop dict m with
    | Expected m' =>
        Forall (λ kv, is_Some (string_value kv.2)) dict
        ∧ (NoDup dict.*1 →
           ∀ k,
             m' !! k
             = match StdMap.find k dict with
               | Some v => string_value v
               | None => m !! k
               end)
    | Unexpected _ => Exists (λ kv, string_value kv.2 = None) dict
    end.
Proof.
  induction dict as [|[key item] dict IH]; intros m; simpl.
  - split; [constructor|done].
  - destruct (MetaVar.get_string item) as [pv|] eqn:Hpv.
    + specialize (IH (<[key:=pv]> m)).
      destruct (BuildVariants_loop dict _) as [m'|e].
      * destruct IH as [Hall Hlk]. split.
        { constructor; [|done]. unfold string_value. simpl. by rewrite Hpv. }
        intros [Hkey Hnd]%NoDup_cons k. rewrite (Hlk Hnd k).
        destruct (String.eqb_spec k key) as [->|Hne].
        -- apply find_None in Hkey. rewrite Hkey, lookup_insert_eq.
           unfold string_value. by rewrite Hpv.
        -- destruct (StdMap.find k dict); [done|].
           by rewrite lookup_insert_ne.
      * by apply Exists_cons_tl.
    + destruct (MetaVar.get_StringData item) as [pvs|] eqn:Hpvs.
      * specialize (IH (<[key:=pvs]> m)).
        destruct (BuildVariants_loop dict _) as [m'|e].
        -- destruct IH as [Hall Hlk]. split.
           { constructor; [|done]. unfold string_value. simpl.
             by rewrite Hpv, Hpvs. }
           intros [Hkey Hnd]%NoDup_cons k. rewrite (Hlk Hnd k).
           destruct (String.eqb_spec k key) as [->|Hne].
           ++ apply find_None in Hkey. rewrite Hkey, lookup_insert_eq.
              unfold string_value. by rewrite Hpv, Hpvs.
           ++ destruct (StdMap.find k dict); [done|].
              by rewrite lookup_insert_ne.
        -- by apply Exists_cons_tl.
      * apply Exists_cons_hd. unfold string_value. simpl.
        by rewrite Hpv, Hpvs.
Qed.

(** X7: [BuildVariants] turns a dictionary into the variant selection that
    maps every key to the string its value holds (plain or triple-quoted),
    and fails exactly when some value holds no string. *)
Theorem BuildVariants_selects_strings (dict : CustomDataType) :
  StdMap.ok dict →
  match BuildVariants dict with
  | Expected m =>
      Forall (λ kv, is_Some (string_value kv.2)) dict
      ∧ ∀ k, m !! k = StdMap.find k dict ≫= string_value
  | Unexpected _ => Exists (λ kv, string_value kv.2 = None) dict
  end.
Proof.
  intros Hok%ascending_NoDup. unfold BuildVariants.
  pose proof (BuildVariants_loop_spec dict ∅) as Hspec.
  destruct (BuildVariants_loop dict ∅) as [m|e]; [|done].
  destruct Hspec as [Hall Hlk]. split; [done|].
  intros k. rewrite (Hlk Hok k).
  destruct (StdMap.find k dict); [done|]. apply lookup_empty.
Qed.

End Variants.

Section MetadataFailure.
Context `{Collaborators}.

Lemma ReconstructPrimMeta_entry_failure key q var out st out' st' :
  ReconstructPrimMeta_entry key q var out st = (false, out', st') →
  out' = out
  ∧ ∃ msg,
      st' = PUSH_ERROR msg st ∨ st' = PUSH_ERROR_TAG kTag msg st.
Proof.
  unfold ReconstructPrimMeta_entry.
  repeat case_match; intros; simplify_eq; split; eauto.
Qed.

(** X8: [ReconstructPrimMeta] never fails silently: when it returns
    [false], the last thing it did was to push an error message, after
    which the error string ends with that message. *)
Theorem ReconstructPrimMeta_failure_pushes_error (in_meta : PrimMetaMap)
  (out out' : PrimMeta.t) (st st' : Impl.t) :
  ReconstructPrimMeta in_meta out st = (false, out', st') →
  ∃ st1 msg,
    extends_err st st1
    ∧ (st' = PUSH_ERROR msg st1 ∨ st' = PUSH_ERROR_TAG kTag msg st1).
Proof.
  revert out st.
  induction in_meta as [|[key [q var]] in_meta IH]; intros out st; simpl;
    [done|].
  pose proof (ReconstructPrimMeta_entry_extends_err key q var out st) as Hd.
  destruct (ReconstructPrimMeta_entry key q var out st) as [[[] out1] st1]
    eqn:Hentry; simpl in Hd.
  - intros (st2 & msg & Hext & Hpush)%IH. exists st2, msg. split; [|done].
    by eapply extends_err_trans.
  - intros [= <- <-].
    apply ReconstructPrimMeta_entry_failure in Hentry as [_ [msg Hpush]].
    exists st, msg. split; [apply extends_err_refl|done].
Qed.

End MetadataFailure.

Section VariantMarks.
Context `{Collaborators}.

Lemma marked_or_same_refl n : marked_or_same n n.
Proof. by left. Qed.

Lemma marked_or_same_trans n1 n2 n3 :
  marked_or_same n1 n2 → marked_or_same n2 n3 → marked_or_same n1 n3.
Proof.
  intros [->| ->] [->| ->]; [by left|by right|by right|].
  right. by destruct n1.
Qed.

Lemma Forall2_marked_or_same_refl nodes : Forall2 marked_or_same nodes nodes.
Proof. apply Forall2_same_length_lookup_2; [done|]. intros; simplify_eq. by left. Qed.

Lemma Forall2_marked_or_same_trans l1 l2 l3 :
  Forall2 marked_or_same l1 l2 → Forall2 marked_or_same l2 l3 →
  Forall2 marked_or_same l1 l3.
Proof.
  intros H12. revert l3.
  induction H12 as [|n1 n2 l1 l2 Hn _ IH]; intros l3 H23.
  - by apply Forall2_nil_inv_l in H23 as ->.
  - apply Forall2_cons_inv_l in H23 as (n3 & l3' & Hn' & H23 & ->).
    constructor; [by eapply marked_or_same_trans|by apply IH].
Qed.

Lemma same_but_variant_marks_refl st : same_but_variant_marks st st.
Proof.
  exists (Impl._err st), (Impl._warn st), (Impl._prim_nodes st).
  split; [by destruct st|apply Forall2_marked_or_same_refl].
Qed.

Lemma same_but_variant_marks_trans st1 st2 st3 :
  same_but_variant_marks st1 st2 → same_but_variant_marks st2 st3 →
  same_but_variant_marks st1 st3.
Proof.
  intros (e1 & w1 & n1 & -> & H1) (e2 & w2 & n2 & -> & H2).
  exists e2, w2, n2. split; [by destruct st1|].
  eapply Forall2_marked_or_same_trans; [exact H1|].
  by destruct st1.
Qed.

Lemma same_but_diagnostics_marks st st' :
  same_but_diagnostics st st' → same_but_variant_marks st st'.
Proof.
  intros (e & w & ->). exists e, w, (Impl._prim_nodes st).
  split; [by destruct st|apply Forall2_marked_or_same_refl].
Qed.

Lemma mark_slot_marks (i : nat) st :
  same_but_variant_marks st
    (Impl.set_prim_nodes
       (alter (PrimNode.set_parent_is_variant true) i (Impl._prim_nodes st))
       st).
Proof.
  exists (Impl._err st), (Impl._warn st),
    (alter (PrimNode.set_parent_is_variant true) i (Impl._prim_nodes st)).
  split; [by destruct st|].
  apply Forall2_same_length_lookup_2; [by rewrite length_alter|].
  intros j n n' Hn Hn'. destruct (decide (j = i)) as [->|Hne].
  - rewrite list_lookup_alter_eq, Hn in Hn'. simplify_eq/=. by right.
  - rewrite list_lookup_alter_ne, Hn in Hn' by done. simplify_eq. by left.
Qed.

Lemma variant_primIndices_loop_marks primIndices primChildren st :
  same_but_variant_marks st
    (variant_primIndices_loop primIndices primChildren st).2.
Proof.
  revert primChildren st.
  induction primIndices as [|i l IH]; intros acc st; simpl.
  - apply same_but_variant_marks_refl.
  - repeat case_match; simpl; try apply same_but_variant_marks_refl.
    eapply same_but_variant_marks_trans; [apply mark_slot_marks|apply IH].
Qed.

Lemma variantNodes_loop_marks variant_name items variantNodes st :
  same_but_variant_marks st
    (variantNodes_loop variant_name items variantNodes st).2.
Proof.
  revert variantNodes st.
  induction items as [|[k item] items IH]; intros acc st; simpl.
  - apply same_but_variant_marks_refl.
  - pose proof (ReconstructPrimMeta_diagnostics (VariantContent.metas item)
                  PrimMeta.default st) as Hm.
    apply same_but_diagnostics_marks in Hm.
    destruct (ReconstructPrimMeta _ _ _) as [[[] metas] st1]; simpl in *;
      [|done].
    pose proof (variant_primIndices_loop_marks
                  (VariantContent.primIndices item) [] st1) as Hl.
    destruct (variant_primIndices_loop _ _ _) as [[pc|e] st2]; simpl in *.
    + eapply same_but_variant_marks_trans; [exact Hm|].
      eapply same_but_variant_marks_trans; [exact Hl|apply IH].
    + by eapply same_but_variant_marks_trans.
Qed.

Lemma variantSets_loop_marks in_variants variantSets st :
  same_but_variant_marks st (variantSets_loop in_variants variantSets st).2.
Proof.
  revert variantSets st.
  induction in_variants as [|[k items] l IH]; intros acc st; simpl.
  - apply same_but_variant_marks_refl.
  - pose proof (variantNodes_loop_marks k items StdMap.empty st) as Hl.
    destruct (variantNodes_loop _ _ _ _) as [[vn|e] st1]; simpl in *.
    + eapply same_but_variant_marks_trans; [exact Hl|apply IH].
    + done.
Qed.

End VariantMarks.

Section TypedCallback.
Context `{Collaborators}.

(** The stages of a typed prim-construct callback that returns [true]. *)
Lemma PrimConstruct_success T a st st' :
  PrimConstruct T a st = Some (Expected true, st') →
  ∃ st2 st3 prim vs n1 n2 n3,
    0 ≤ PrimArgs.primIdx a
    ∧ same_but_diagnostics st st2
    ∧ variantSets_loop (PrimArgs.in_variants a) StdMap.empty st2
      = (Expected vs, st3)
    ∧ TypedPrim.name prim = Path.prim_part (PrimArgs.prim_name a)
    ∧ TypedPrim.spec prim = PrimArgs.spec a
    ∧ vector_update
        (ensure_slot PrimNode.default (PrimArgs.primIdx a)
           (Impl._prim_nodes st3))
        (PrimArgs.primIdx a)
        (λ n,
           PrimNode.set_variantNodeMap vs
             (PrimNode.set_typeName (PrimArgs.primTypeName a)
                (PrimNode.set_prim (Value_prim T prim) n)))
      = Some n1
    ∧ vector_update n1 (PrimArgs.primIdx a)
        (store_Model_typeName (PrimArgs.primTypeName a)) = Some n2
    ∧ vector_update n2 (PrimArgs.primIdx a)
        (PrimNode.set_parent (PrimArgs.parentPrimIdx a)) = Some n3
    ∧ link_to_parent (PrimArgs.primIdx a) (PrimArgs.parentPrimIdx a)
        (Impl.set_prim_nodes n3 st3) = Some st'.
Proof.
  unfold PrimConstruct.
  repeat (case_match; [intros; by simplify_eq|]).
  pose proof (ReconstructPrimMeta_diagnostics (PrimArgs.in_meta a)
                PrimMeta.default st) as Hm.
  destruct (ReconstructPrimMeta _ _ _) as [[[] meta] st1]; simpl in Hm;
    [|intros; by simplify_eq].
  match goal with
  | |- context [Impl_ReconstructPrim ?T ?p ?r ?q st1] =>
      pose proof (Impl_ReconstructPrim_diagnostics T p r q st1) as Hr;
      destruct (Impl_ReconstructPrim T p r q st1) as [[[] prim] st2]
  end; simpl in Hr; [|intros; by simplify_eq].
  destruct (variantSets_loop _ _ _) as [[vs|e] st3] eqn:Hvs;
    [|intros; by simplify_eq].
  intros Hres.
  destruct (vector_update (ensure_slot _ _ _) _ _) as [n1|] eqn:Hu1;
    simpl in Hres; [|done].
  destruct (vector_update n1 _ _) as [n2|] eqn:Hu2; simpl in Hres; [|done].
  destruct (vector_update n2 _ _) as [n3|] eqn:Hu3; simpl in Hres; [|done].
  destruct (link_to_parent _ _ _) as [st4|] eqn:Hl; simpl in Hres; [|done].
  simplify_eq.
  exists st2, st3,
    (TypedPrim.set_name (Path.prim_part (PrimArgs.prim_name a))
       (TypedPrim.set_spec (PrimArgs.spec a) prim)), vs, n1, n2, n3.
  split.
  { match goal with
    | Hlt : bool_decide (_ < 0) = false |- _ =>
        apply bool_decide_eq_false in Hlt; lia
    end. }
  split; [by eapply same_but_diagnostics_trans|].
  split; [done|]. split; [by destruct prim|]. split; [by destruct prim|].
  done.
Qed.

(** X9: a typed prim-construct callback that returns an error has not
    touched the scene graph: the top-level list and the PrimSpec side are
    as they were, and the PrimNode store has the same slots, of which some
    may have been marked as declared inside a variant (the variants that
    were converted before the failure); only the diagnostics differ. *)
Theorem PrimConstruct_failure_keeps_store (T : PrimType) (a : PrimArgs.t)
  (st st' : Impl.t) (e : string) :
  PrimConstruct T a st = Some (Unexpected e, st') →
  same_but_variant_marks st st'.
Proof.
  unfold PrimConstruct.
  repeat (case_match;
          [intros; simplify_eq; apply same_but_variant_marks_refl|]).
  pose proof (ReconstructPrimMeta_diagnostics (PrimArgs.in_meta a)
                PrimMeta.default st) as Hm.
  apply same_but_diagnostics_marks in Hm.
  destruct (ReconstructPrimMeta _ _ _) as [[[] meta] st1]; simpl in Hm;
    [|intros; by simplify_eq].
  match goal with
  | |- context [Impl_ReconstructPrim ?T ?p ?r ?q st1] =>
      pose proof (Impl_ReconstructPrim_diagnostics T p r q st1) as Hr;
      destruct (Impl_ReconstructPrim T p r q st1) as [[[] prim] st2]
  end; apply same_but_diagnostics_marks in Hr; simpl in Hr;
    [|intros; simplify_eq; by eapply same_but_variant_marks_trans].
  pose proof (variantSets_loop_marks (PrimArgs.in_variants a) StdMap.empty
                st2) as Hv.
  destruct (variantSets_loop _ _ _) as [[vs|e'] st3]; simpl in Hv.
  - intros Hres. by simplify_option_eq.
  - intros; simplify_eq.
    eapply same_but_variant_marks_trans; [exact Hm|].
    by eapply same_but_variant_marks_trans.
Qed.

End TypedCallback.

Section StoreFacts.
Context {A : Type}.
Implicit Types (v : list A) (i j : Z).

Lemma vector_update_size v i f v' :
  vector_update v i f = Some v' → vector_size v' = vector_size v.
Proof. intros [-> _]%vector_update_Some. apply vector_size_alter. Qed.

Lemma vector_resize_size (dflt : A) v n :
  0 ≤ n → vector_size (vector_resize dflt v n) = n.
Proof.
  intros Hn. unfold vector_resize, vector_size in *. case_bool_decide.
  - rewrite length_app, length_replicate. lia.
  - rewrite length_take. lia.
Qed.

Lemma ensure_slot_size (dflt : A) i v :
  0 ≤ i →
  vector_size (ensure_slot dflt i v) = Z.max (vector_size v) (i + 1).
Proof.
  intros Hi. unfold ensure_slot. case_bool_decide.
  - rewrite vector_resize_size by lia. lia.
  - lia.
Qed.

Lemma vector_at_ensure_slot (dflt : A) i v j :
  vector_at (ensure_slot dflt i v) j
  = match vector_at v j with
    | Some x => Some x
    | None =>
        if bool_decide (vector_size v ≤ j ≤ i) then Some dflt else None
    end.
Proof.
  unfold ensure_slot. case_bool_decide as Hgrow.
  - unfold vector_resize. rewrite bool_decide_true by lia.
    unfold vector_at, vector_size in *.
    rewrite length_app, length_replicate.
    destruct (decide (0 ≤ j < Z.of_nat (length v))) as [Hj|Hj].
    + rewrite !bool_decide_true by lia. rewrite lookup_app_l by lia.
      destruct (v !! Z.to_nat j) eqn:Hv; [done|].
      apply lookup_ge_None in Hv. lia.
    + rewrite (bool_decide_false (0 ≤ j < Z.of_nat (length v))) by done.
      destruct (decide (Z.of_nat (length v) ≤ j ≤ i)) as [Hn|Hn].
      * rewrite !bool_decide_true by lia. rewrite lookup_app_r by lia.
        apply lookup_replicate_2. lia.
      * rewrite !bool_decide_false by lia. done.
  - unfold vector_at, vector_size in *.
    case_bool_decide as Hj.
    + destruct (v !! Z.to_nat j) eqn:Hv; [done|].
      apply lookup_ge_None in Hv. lia.
    + rewrite bool_decide_false by lia. done.
Qed.

End StoreFacts.

Section TypedCallbackStore.
Context `{Collaborators}.

Lemma same_but_variant_marks_fields st st' :
  same_but_variant_marks st st' →
  Impl._stage st' = Impl._stage st
  ∧ Impl._toplevel_prims st' = Impl._toplevel_prims st
  ∧ Forall2 marked_or_same (Impl._prim_nodes st) (Impl._prim_nodes st')
  ∧ Impl._toplevel_primspecs st' = Impl._toplevel_primspecs st
  ∧ Impl._primspec_nodes st' = Impl._primspec_nodes st
  ∧ Impl._primspec_invalidated st' = Impl._primspec_invalidated st
  ∧ Impl._config st' = Impl._config st.
Proof. intros (e & w & nodes' & -> & Hall). by destruct st. Qed.

Lemma marked_or_same_vector_at nodes nodes' j :
  Forall2 marked_or_same nodes nodes' →
  match vector_at nodes j, vector_at nodes' j with
  | Some n, Some n' => marked_or_same n n'
  | None, None => True
  | _, _ => False
  end.
Proof.
  intros Hall. pose proof (Forall2_length _ _ _ Hall) as Hlen.
  unfold vector_at, vector_size. rewrite <- Hlen.
  case_bool_decide as Hj; [|done].
  destruct (nodes !! Z.to_nat j) as [n|] eqn:Hn.
  - destruct (Forall2_lookup_l _ _ _ _ _ Hall Hn) as (n' & -> & Hm). done.
  - apply lookup_ge_None in Hn. lia.
Qed.

Lemma marked_or_same_slot_children nodes nodes' j :
  Forall2 marked_or_same nodes nodes' →
  slot_children nodes' j = slot_children nodes j.
Proof.
  intros Hall. pose proof (marked_or_same_vector_at _ _ j Hall) as Hj.
  unfold slot_children.
  destruct (vector_at nodes j) as [n|], (vector_at nodes' j) as [n'|];
    try done.
  destruct Hj as [->| ->]; [done|]. by destruct n.
Qed.

Lemma vector_update_slot_children nodes i f nodes' j :
  vector_update nodes i f = Some nodes' →
  (∀ n, PrimNode.children (f n) = PrimNode.children n) →
  slot_children nodes' j = slot_children nodes j.
Proof.
  intros Hu Hf. unfold slot_children.
  rewrite (vector_at_update _ _ _ _ j Hu).
  destruct (vector_at nodes j) as [n|]; simpl; [|done].
  case_decide; simpl; [apply Hf|done].
Qed.

Lemma ensure_slot_slot_children i nodes j :
  slot_children (ensure_slot PrimNode.default i nodes) j
  = slot_children nodes j.
Proof.
  unfold slot_children. rewrite vector_at_ensure_slot.
  destruct (vector_at nodes j); [done|]. by case_bool_decide.
Qed.

Lemma store_Model_typeName_children ty n :
  PrimNode.children (store_Model_typeName ty n) = PrimNode.children n.
Proof.
  unfold store_Model_typeName. destruct (as_Model _); by destruct n.
Qed.

(** X10: a typed prim-construct callback that returns [true] has stored
    the Prim in the slot [primIdx], growing the store up to that slot if
    needed and never shrinking it: the slot holds a value of the schema
    type [T] that carries the element name and the specifier, and records
    the declared type name and the parent index. *)
Theorem PrimConstruct_stores_prim (T : PrimType) (a : PrimArgs.t)
  (st st' : Impl.t) :
  PrimConstruct T a st = Some (Expected true, st') →
  0 ≤ PrimArgs.primIdx a
  ∧ vector_size (Impl._prim_nodes st')
    = Z.max (vector_size (Impl._prim_nodes st)) (PrimArgs.primIdx a + 1)
  ∧ ∃ node prim,
      vector_at (Impl._prim_nodes st') (PrimArgs.primIdx a) = Some node
      ∧ PrimNode.prim node = Value_prim T prim
      ∧ TypedPrim.name prim = Path.prim_part (PrimArgs.prim_name a)
      ∧ TypedPrim.spec prim = PrimArgs.spec a
      ∧ PrimNode.typeName node = PrimArgs.primTypeName a
      ∧ PrimNode.parent node = PrimArgs.parentPrimIdx a.
Proof.
  intros (st2 & st3 & prim & vs & n1 & n2 & n3 & Hidx & Hd & Hvs & Hname
          & Hspec & Hu1 & Hu2 & Hu3 & Hl)%PrimConstruct_success.
  split; [done|].
  pose proof (variantSets_loop_marks (PrimArgs.in_variants a) StdMap.empty
                st2) as Hmarks.
  rewrite Hvs in Hmarks. simpl in Hmarks.
  apply same_but_variant_marks_fields in Hmarks as (_ & _ & Hall & _).
  apply same_but_diagnostics_prim_nodes in Hd. rewrite Hd in Hall.
  pose proof (Forall2_length _ _ _ Hall) as Hlen.
  pose proof (vector_update_is_Some _ _ _ _ Hu1) as [n0 Hn0].
  pose proof (vector_at_update_eq _ _ _ _ Hu1) as Hat1.
  pose proof (vector_at_update_eq _ _ _ _ Hu2) as Hat2.
  pose proof (vector_at_update_eq _ _ _ _ Hu3) as Hat3.
  rewrite Hn0 in Hat1. rewrite Hat1 in Hat2. rewrite Hat2 in Hat3.
  simpl in Hat3.
  assert (vector_size n3
          = Z.max (vector_size (Impl._prim_nodes st))
              (PrimArgs.primIdx a + 1)) as Hsize.
  { rewrite (vector_update_size _ _ _ _ Hu3), (vector_update_size _ _ _ _ Hu2),
      (vector_update_size _ _ _ _ Hu1), ensure_slot_size by done.
    unfold vector_size. by rewrite Hlen. }
  assert (∃ prim',
            PrimNode.prim
              (store_Model_typeName (PrimArgs.primTypeName a)
                 (PrimNode.set_variantNodeMap vs
                    (PrimNode.set_typeName (PrimArgs.primTypeName a)
                       (PrimNode.set_prim (Value_prim T prim) n0))))
            = Value_prim T prim'
            ∧ TypedPrim.name prim' = TypedPrim.name prim
            ∧ TypedPrim.spec prim' = TypedPrim.spec prim) as Hprim.
  { unfold store_Model_typeName. destruct n0, T; simpl; eauto.
    eexists. split; [done|]. by destruct prim. }
  destruct Hprim as (prim' & Hprim' & Hname' & Hspec').
  assert (PrimNode.typeName
            (store_Model_typeName (PrimArgs.primTypeName a)
               (PrimNode.set_variantNodeMap vs
                  (PrimNode.set_typeName (PrimArgs.primTypeName a)
                     (PrimNode.set_prim (Value_prim T prim) n0))))
          = PrimArgs.primTypeName a) as Hty.
  { unfold store_Model_typeName. destruct n0, T; done. }
  revert Hl. unfold link_to_parent. case_bool_decide as Hp.
  - intros [= <-].
    replace (Impl._prim_nodes
               (Impl.set_toplevel_prims _ (Impl.set_prim_nodes n3 st3)))
      with n3 by (by destruct st3).
    split; [done|]. eexists _, prim'. split; [exact Hat3|].
    repeat split; try congruence.
    + by destruct (store_Model_typeName _ _).
    + by destruct (store_Model_typeName _ _).
    + by destruct (store_Model_typeName _ _).
  - replace (Impl._prim_nodes (Impl.set_prim_nodes n3 st3)) with n3
      by (by destruct st3).
    destruct (vector_update n3 _ _) as [n4|] eqn:Hu4; simpl; [|done].
    intros [= <-].
    replace (Impl._prim_nodes
               (Impl.set_prim_nodes n4 (Impl.set_prim_nodes n3 st3)))
      with n4 by (by destruct st3).
    split; [by rewrite (vector_update_size _ _ _ _ Hu4)|].
    rewrite (vector_at_update _ _ _ _ (PrimArgs.primIdx a) Hu4), Hat3.
    simpl. eexists _, prim'. split; [done|].
    case_decide; simpl;
      repeat split; try congruence;
      by destruct (store_Model_typeName _ _).
Qed.

(** X11: a typed prim-construct callback that returns [true] links the
    Prim into the scene graph once: with [parentPrimIdx = -1] its index is
    appended to the top-level list and no child list changes; otherwise
    the top-level list is as it was and the index is appended to the child
    list of the slot of the parent, and to no other. *)
Theorem PrimConstruct_links_prim (T : PrimType) (a : PrimArgs.t)
  (st st' : Impl.t) :
  PrimConstruct T a st = Some (Expected true, st') →
  Impl._toplevel_prims st'
  = Impl._toplevel_prims st
      ++ (if decide (PrimArgs.parentPrimIdx a = -1)
          then [PrimArgs.primIdx a] else [])
  ∧ ∀ j,
      slot_children (Impl._prim_nodes st') j
      = slot_children (Impl._prim_nodes st) j
          ++ (if decide (PrimArgs.parentPrimIdx a ≠ -1
                         ∧ j = size_t_of_int64 (PrimArgs.parentPrimIdx a))
              then [PrimArgs.primIdx a] else []).
Proof.
  intros (st2 & st3 & prim & vs & n1 & n2 & n3 & Hidx & Hd & Hvs & Hname
          & Hspec & Hu1 & Hu2 & Hu3 & Hl)%PrimConstruct_success.
  pose proof (variantSets_loop_marks (PrimArgs.in_variants a) StdMap.empty
                st2) as Hmarks.
  rewrite Hvs in Hmarks. simpl in Hmarks.
  apply same_but_variant_marks_fields in Hmarks as (_ & Htop & Hall & _).
  apply same_but_diagnostics_fields in Hd as (_ & Htop2 & Hnodes2 & _).
  rewrite Hnodes2 in Hall. rewrite Htop2 in Htop.
  assert (∀ j, slot_children n3 j = slot_children (Impl._prim_nodes st) j)
    as Hchildren.
  { intros j.
    rewrite (vector_update_slot_children _ _ _ _ j Hu3)
      by (intros n; by destruct n).
    rewrite (vector_update_slot_children _ _ _ _ j Hu2)
      by (intros n; apply store_Model_typeName_children).
    rewrite (vector_update_slot_children _ _ _ _ j Hu1)
      by (intros n; by destruct n).
    rewrite ensure_slot_slot_children.
    by apply marked_or_same_slot_children. }
  revert Hl. unfold link_to_parent. case_bool_decide as Hp.
  - intros [= <-]. rewrite decide_True by done. split.
    + destruct st3; simpl in *. by rewrite Htop.
    + intros j. rewrite decide_False by tauto. rewrite app_nil_r.
      rewrite <- Hchildren. by destruct st3.
  - replace (Impl._prim_nodes (Impl.set_prim_nodes n3 st3)) with n3
      by (by destruct st3).
    destruct (vector_update n3 _ _) as [n4|] eqn:Hu4; simpl; [|done].
    intros [= <-]. rewrite decide_False by done. split.
    + rewrite app_nil_r. destruct st3; simpl in *. by rewrite Htop.
    + intros j.
      replace (Impl._prim_nodes
                 (Impl.set_prim_nodes n4 (Impl.set_prim_nodes n3 st3)))
        with n4 by (by destruct st3).
      rewrite <- Hchildren. unfold slot_children.
      rewrite (vector_at_update _ _ _ _ j Hu4).
      pose proof (vector_update_is_Some _ _ _ _ Hu4) as [pn Hpn].
      destruct (decide (j = size_t_of_int64 (PrimArgs.parentPrimIdx a)))
        as [->|Hne].
      * rewrite decide_True by done. rewrite Hpn. simpl. by destruct pn.
      * rewrite decide_False by tauto. rewrite app_nil_r.
        by destruct (vector_at n3 j).
Qed.

End TypedCallbackStore.

Section TypedCallbackSafety.
Context `{Collaborators}.

Lemma vector_update_in_range {A} (v : list A) (i : Z) (f : A → A) :
  0 ≤ i < vector_size v →
  vector_update v i f = Some (alter f (Z.to_nat i) v).
Proof. intros Hi. unfold vector_update. by rewrite bool_decide_true. Qed.

Lemma prim_nodes_set_prim_nodes nodes st :
  Impl._prim_nodes (Impl.set_prim_nodes nodes st) = nodes.
Proof. by destruct st. Qed.

(** X12: a typed prim-construct callback stays inside the PrimNode store
    (no access outside the vector) whenever the parent index is -1 or the
    index of a slot that the store has once the slot of the Prim itself
    exists. *)
Theorem PrimConstruct_stays_in_store (T : PrimType) (a : PrimArgs.t)
  (st : Impl.t) :
  PrimArgs.parentPrimIdx a < 2 ^ 63 →
  PrimArgs.parentPrimIdx a = -1
  ∨ 0 ≤ PrimArgs.parentPrimIdx a
      < Z.max (vector_size (Impl._prim_nodes st)) (PrimArgs.primIdx a + 1) →
  is_Some (PrimConstruct T a st).
Proof.
  intros Hint Hparent. unfold PrimConstruct.
  repeat (case_match; [done|]).
  destruct (ReconstructPrimMeta _ _ _) as [[[] meta] st1] eqn:Hmeta; [|done].
  pose proof (ReconstructPrimMeta_diagnostics (PrimArgs.in_meta a)
                PrimMeta.default st) as Hm.
  rewrite Hmeta in Hm. simpl in Hm.
  match goal with
  | |- context [Impl_ReconstructPrim ?T ?p ?r ?q st1] =>
      pose proof (Impl_ReconstructPrim_diagnostics T p r q st1) as Hr;
      destruct (Impl_ReconstructPrim T p r q st1) as [[[] prim] st2]
  end; simpl in Hr; [|done].
  pose proof (variantSets_loop_marks (PrimArgs.in_variants a) StdMap.empty
                st2) as Hmarks.
  destruct (variantSets_loop _ _ _) as [[vs|e] st3]; [|done].
  simpl in Hmarks.
  apply same_but_variant_marks_fields in Hmarks as (_ & _ & Hall & _).
  apply same_but_diagnostics_prim_nodes in Hm, Hr.
  rewrite Hr, Hm in Hall.
  pose proof (Forall2_length _ _ _ Hall) as Hlen.
  match goal with
  | Hlt : bool_decide (_ < 0) = false |- _ =>
      apply bool_decide_eq_false in Hlt
  end.
  assert (vector_size
            (ensure_slot PrimNode.default (PrimArgs.primIdx a)
               (Impl._prim_nodes st3))
          = Z.max (vector_size (Impl._prim_nodes st))
              (PrimArgs.primIdx a + 1)) as Hsize.
  { rewrite ensure_slot_size by lia. unfold vector_size. by rewrite Hlen. }
  rewrite vector_update_in_range by lia. simpl.
  rewrite vector_update_in_range
    by (unfold vector_size in *; rewrite length_alter; lia).
  simpl.
  rewrite vector_update_in_range
    by (unfold vector_size in *; rewrite !length_alter; lia).
  simpl. unfold link_to_parent. case_bool_decide as Hp; [done|].
  destruct Hparent as [?|Hparent]; [done|].
  rewrite prim_nodes_set_prim_nodes.
  rewrite vector_update_in_range; [done|].
  unfold size_t_of_int64. rewrite Z.mod_small by lia.
  unfold vector_size in *. rewrite !length_alter. lia.
Qed.

End TypedCallbackSafety.

Section VariantConversion.
Context `{Collaborators}.

Lemma marked_in_variant_preserved nodes nodes' c :
  Forall2 marked_or_same nodes nodes' →
  marked_in_variant nodes c → marked_in_variant nodes' c.
Proof.
  intros Hall. pose proof (marked_or_same_vector_at _ _ c Hall) as Hc.
  unfold marked_in_variant.
  destruct (vector_at nodes c) as [n|], (vector_at nodes' c) as [n'|];
    try done.
  destruct Hc as [->| ->]; [done|]. by destruct n.
Qed.

Lemma marked_in_variant_marks st st' c :
  same_but_variant_marks st st' →
  marked_in_variant (Impl._prim_nodes st) c →
  marked_in_variant (Impl._prim_nodes st') c.
Proof.
  intros (_ & _ & Hall & _)%same_but_variant_marks_fields.
  by apply marked_in_variant_preserved.
Qed.

Lemma same_but_variant_marks_size st st' :
  same_but_variant_marks st st' →
  vector_size (Impl._prim_nodes st') = vector_size (Impl._prim_nodes st).
Proof.
  intros (_ & _ & Hall & _)%same_but_variant_marks_fields.
  unfold vector_size. by rewrite (Forall2_length _ _ _ Hall).
Qed.

Lemma marked_in_variant_update nodes i f nodes' c :
  vector_update nodes i f = Some nodes' →
  (∀ n, PrimNode.parent_is_variant (f n) = PrimNode.parent_is_variant n) →
  marked_in_variant nodes c → marked_in_variant nodes' c.
Proof.
  intros Hu Hf. unfold marked_in_variant.
  rewrite (vector_at_update _ _ _ _ c Hu).
  destruct (vector_at nodes c) as [n|]; simpl; [|done].
  case_decide; simpl; [by rewrite Hf|done].
Qed.

Lemma emplace_elem_of {V} k (v : V) m kv :
  kv ∈ StdMap.emplace k v m → kv = (k, v) ∨ kv ∈ m.
Proof.
  induction m as [|[k' v'] m IH]; simpl.
  - intros ->%list_elem_of_singleton. by left.
  - destruct (String.compare k k').
    + by right.
    + intros [->|Hin]%elem_of_cons; [by left|by right].
    + intros [->|Hin]%elem_of_cons.
      * right. apply elem_of_cons. by left.
      * destruct (IH Hin) as [->|Hm]; [by left|].
        right. apply elem_of_cons. by right.
Qed.

Lemma variant_primIndices_loop_recorded primIndices :
  ∀ primChildren st pc st',
    variant_primIndices_loop primIndices primChildren st = (Expected pc, st') →
    Forall (recorded (vector_size (Impl._prim_nodes st)) st') primChildren →
    Forall (recorded (vector_size (Impl._prim_nodes st)) st') pc.
Proof.
  induction primIndices as [|i l IH]; intros acc st pc st'; simpl.
  - by intros [= <- <-].
  - case_bool_decide as Hneg; [done|].
    case_bool_decide as Hsize; [done|].
    intros Hloop Hacc.
    pose proof (variant_primIndices_loop_marks l (acc ++ [i])
                  (Impl.set_prim_nodes
                     (alter (PrimNode.set_parent_is_variant true)
                        (Z.to_nat i) (Impl._prim_nodes st)) st)) as Hmarks.
    rewrite Hloop in Hmarks. simpl in Hmarks.
    pose proof (IH _ _ _ _ Hloop) as Hpc.
    rewrite prim_nodes_set_prim_nodes, vector_size_alter in Hpc.
    apply Hpc. apply Forall_app. split; [done|].
    constructor; [|constructor]. split; [lia|].
    eapply marked_in_variant_marks; [exact Hmarks|].
    rewrite prim_nodes_set_prim_nodes. unfold marked_in_variant.
    rewrite vector_at_alter by lia. rewrite decide_True by done.
    destruct (vector_at (Impl._prim_nodes st) i) as [n|] eqn:Hn.
    + by destruct n.
    + unfold vector_at in Hn. rewrite bool_decide_true in Hn by lia.
      apply lookup_ge_None in Hn. unfold vector_size in *. lia.
Qed.

End VariantConversion.

Section VariantConversion2.
Context `{Collaborators}.

Lemma Forall_bind_emplace {V} (P : Z → Prop) (f : V → list Z) k v
  (m : StdMap.t V) :
  Forall P (f v) → Forall P (m.*2 ≫= f) →
  Forall P ((StdMap.emplace k v m).*2 ≫= f).
Proof.
  rewrite !Forall_forall. intros Hv Hm c.
  rewrite list_elem_of_bind. intros (v' & Hc & Hv').
  apply list_elem_of_fmap in Hv' as ([k' v''] & -> & Hin). simpl in Hc.
  apply emplace_elem_of in Hin as [[= -> ->]|Hin]; [by apply Hv|].
  apply Hm. apply list_elem_of_bind. exists v''. split; [done|].
  apply list_elem_of_fmap. by exists (k', v'').
Qed.

Lemma recorded_marks size st st' c :
  same_but_variant_marks st st' →
  recorded size st c → recorded size st' c.
Proof.
  intros Hmarks [Hc Hm]. split; [done|]. by eapply marked_in_variant_marks.
Qed.

Lemma variantNodes_loop_recorded variant_name items :
  ∀ variantNodes st vn st',
    variantNodes_loop variant_name items variantNodes st
    = (Expected vn, st') →
    Forall (recorded (vector_size (Impl._prim_nodes st)) st')
      (variantNodes.*2 ≫= VariantNode.primChildren) →
    Forall (recorded (vector_size (Impl._prim_nodes st)) st')
      (vn.*2 ≫= VariantNode.primChildren).
Proof.
  induction items as [|[k item] items IH]; intros acc st vn st'; simpl.
  - by intros [= <- <-].
  - pose proof (ReconstructPrimMeta_diagnostics (VariantContent.metas item)
                  PrimMeta.default st) as Hm.
    destruct (ReconstructPrimMeta _ _ _) as [[[] metas] st1]; simpl in Hm;
      [|done].
    apply same_but_diagnostics_prim_nodes in Hm.
    pose proof (variant_primIndices_loop_marks
                  (VariantContent.primIndices item) [] st1) as Hmarks.
    destruct (variant_primIndices_loop _ _ _) as [[pc|e] st2] eqn:Hpc;
      [|done].
    simpl in Hmarks. apply same_but_variant_marks_size in Hmarks as Hsize.
    intros Hloop Hacc.
    pose proof (variantNodes_loop_marks variant_name items
                  (StdMap.emplace k
                     (VariantNode.mk metas (VariantContent.props item) pc)
                     acc) st2) as Hrest.
    rewrite Hloop in Hrest. simpl in Hrest.
    rewrite <- Hm, <- Hsize. apply (IH _ _ _ _ Hloop).
    rewrite Hsize, Hm. apply Forall_bind_emplace; [|done]. simpl.
    apply variant_primIndices_loop_recorded in Hpc; [|constructor].
    rewrite Hm in Hpc. eapply Forall_impl; [exact Hpc|].
    intros c. by apply recorded_marks.
Qed.

Lemma variantSets_loop_recorded in_variants :
  ∀ variantSets st vs st',
    variantSets_loop in_variants variantSets st = (Expected vs, st') →
    Forall (recorded (vector_size (Impl._prim_nodes st)) st')
      (variant_children_of variantSets) →
    Forall (recorded (vector_size (Impl._prim_nodes st)) st')
      (variant_children_of vs).
Proof.
  unfold variant_children_of.
  induction in_variants as [|[k items] l IH]; intros acc st vs st'; simpl.
  - by intros [= <- <-].
  - pose proof (variantNodes_loop_marks k items StdMap.empty st) as Hmarks.
    destruct (variantNodes_loop _ _ _ _) as [[vn|e] st1] eqn:Hvn; [|done].
    simpl in Hmarks. apply same_but_variant_marks_size in Hmarks as Hsize.
    intros Hloop Hacc.
    pose proof (variantSets_loop_marks l (StdMap.emplace k vn acc) st1)
      as Hrest.
    rewrite Hloop in Hrest. simpl in Hrest.
    rewrite <- Hsize. apply (IH _ _ _ _ Hloop).
    rewrite Hsize. apply Forall_bind_emplace; [|done].
    apply variantNodes_loop_recorded in Hvn; [|constructor].
    eapply Forall_impl; [exact Hvn|].
    intros c. by apply recorded_marks.
Qed.

(** X13: the variant children that a typed prim-construct callback
    records for a Prim are Prims that were allocated before it ran: every
    index in the [variantNodeMap] of the stored slot is the index of a slot
    that the store had when the callback was invoked, and that slot is
    marked as declared inside a variant. *)
Theorem PrimConstruct_records_variant_children (T : PrimType)
  (a : PrimArgs.t) (st st' : Impl.t) :
  PrimConstruct T a st = Some (Expected true, st') →
  ∃ node,
    vector_at (Impl._prim_nodes st') (PrimArgs.primIdx a) = Some node
    ∧ ∀ c,
        c ∈ variant_children_of (PrimNode.variantNodeMap node) →
        0 ≤ c < vector_size (Impl._prim_nodes st)
        ∧ marked_in_variant (Impl._prim_nodes st') c.
Proof.
  intros (st2 & st3 & prim & vs & n1 & n2 & n3 & Hidx & Hd & Hvs & Hname
          & Hspec & Hu1 & Hu2 & Hu3 & Hl)%PrimConstruct_success.
  apply variantSets_loop_recorded in Hvs as Hrec; [|constructor].
  apply same_but_diagnostics_prim_nodes in Hd. rewrite Hd in Hrec.
  pose proof (vector_update_is_Some _ _ _ _ Hu1) as [n0 Hn0].
  pose proof (vector_at_update_eq _ _ _ _ Hu1) as Hat1.
  pose proof (vector_at_update_eq _ _ _ _ Hu2) as Hat2.
  pose proof (vector_at_update_eq _ _ _ _ Hu3) as Hat3.
  rewrite Hn0 in Hat1. rewrite Hat1 in Hat2. rewrite Hat2 in Hat3.
  simpl in Hat3.
  assert (∀ c,
            c ∈ variant_children_of vs →
            0 ≤ c < vector_size (Impl._prim_nodes st)
            ∧ marked_in_variant n3 c) as Hn3.
  { intros c Hc. rewrite Forall_forall in Hrec.
    destruct (Hrec c Hc) as [Hrange Hmark]. split; [done|].
    eapply marked_in_variant_update; [exact Hu3|by intros []|].
    eapply marked_in_variant_update;
      [exact Hu2
      |intros n; unfold store_Model_typeName; destruct (as_Model _);
       by destruct n|].
    eapply marked_in_variant_update; [exact Hu1|by intros []|].
    unfold marked_in_variant in *. rewrite vector_at_ensure_slot.
    by destruct (vector_at (Impl._prim_nodes st3) c). }
  assert (PrimNode.variantNodeMap
            (PrimNode.set_parent (PrimArgs.parentPrimIdx a)
               (store_Model_typeName (PrimArgs.primTypeName a)
                  (PrimNode.set_variantNodeMap vs
                     (PrimNode.set_typeName (PrimArgs.primTypeName a)
                        (PrimNode.set_prim (Value_prim T prim) n0)))))
          = vs) as Hmap.
  { unfold store_Model_typeName. destruct n0, T; done. }
  revert Hl. unfold link_to_parent. case_bool_decide as Hp.
  - intros [= <-].
    replace (Impl._prim_nodes
               (Impl.set_toplevel_prims _ (Impl.set_prim_nodes n3 st3)))
      with n3 by (by destruct st3).
    eexists. split; [exact Hat3|]. rewrite Hmap. exact Hn3.
  - rewrite prim_nodes_set_prim_nodes.
    destruct (vector_update n3 _ _) as [n4|] eqn:Hu4; simpl; [|done].
    intros [= <-]. rewrite prim_nodes_set_prim_nodes.
    rewrite (vector_at_update _ _ _ _ (PrimArgs.primIdx a) Hu4), Hat3.
    simpl. eexists. split; [done|].
    assert (∀ l n,
              PrimNode.variantNodeMap (PrimNode.set_children l n)
              = PrimNode.variantNodeMap n) as Hset by (by intros l []).
    intros c Hc.
    assert (c ∈ variant_children_of vs) as Hc'.
    { revert Hc. case_decide; simpl; [rewrite Hset|]; by rewrite Hmap. }
    clear Hc. rename Hc' into Hc. destruct (Hn3 c Hc) as [Hrange Hmark]. split; [done|].
    eapply marked_in_variant_update; [exact Hu4|by intros []|done].
Qed.

End VariantConversion2.

Section GeomSubsetCallback.
Context `{Collaborators}.

Lemma link_to_parent_toplevel primIdx parentPrimIdx st st' :
  link_to_parent primIdx parentPrimIdx st = Some st' →
  Impl._toplevel_prims st'
  = Impl._toplevel_prims st
      ++ (if decide (parentPrimIdx = -1) then [primIdx] else []).
Proof.
  unfold link_to_parent. case_bool_decide as Hp.
  - intros [= <-]. rewrite decide_True by done. by destruct st.
  - destruct (vector_update _ _ _) as [nodes|]; simpl; [|done].
    intros [= <-]. rewrite decide_False by done. rewrite app_nil_r.
    by destruct st.
Qed.

(** The stages of the GeomSubset callback when it gets past its tests of
    the parent. *)
Lemma PrimConstruct_GeomSubset_cases a st r st' :
  PrimConstruct_GeomSubset a st = Some (r, st') →
  (r ≠ Expected true ∧ same_but_diagnostics st st')
  ∨ (r = Expected true
     ∧ 0 ≤ PrimArgs.parentPrimIdx a
     ∧ ∃ meta st1 subset st2 n1 n2,
         ReconstructPrimMeta (PrimArgs.in_meta a) PrimMeta.default st
         = (true, meta, st1)
         ∧ GeomSubset_properties (PrimArgs.properties a)
             GeomSubsetData.default st1 = inr (subset, st2)
         ∧ same_but_diagnostics st st2
         ∧ vector_update
             (if bool_decide
                   (vector_size (Impl._prim_nodes st2)
                    ≤ size_t_of_int64 (PrimArgs.primIdx a))
              then
                vector_resize PrimNode.default (Impl._prim_nodes st2)
                  ((size_t_of_int64 (PrimArgs.primIdx a) + 1) mod 2 ^ 64)
              else Impl._prim_nodes st2)
             (size_t_of_int64 (PrimArgs.primIdx a))
             (PrimNode.set_prim
                (Value_GeomSubset
                   (GeomSubsetData.set_meta meta
                      (GeomSubsetData.set_spec (PrimArgs.spec a)
                         (GeomSubsetData.set_name
                            (Path.prim_part (PrimArgs.prim_name a))
                            subset)))))
           = Some n1
         ∧ vector_update n1 (size_t_of_int64 (PrimArgs.primIdx a))
             (PrimNode.set_parent (PrimArgs.parentPrimIdx a)) = Some n2
         ∧ link_to_parent (size_t_of_int64 (PrimArgs.primIdx a))
             (PrimArgs.parentPrimIdx a) (Impl.set_prim_nodes n2 st2)
           = Some st').
Proof.
  unfold PrimConstruct_GeomSubset.
  case_match;
    [intros; simplify_eq; left; split; [done|];
     apply same_but_diagnostics_refl|].
  case_bool_decide as Hneg;
    [intros; simplify_eq; left; split; [done|];
     apply same_but_diagnostics_refl|].
  case_match;
    [intros; simplify_eq; left; split; [done|];
     apply same_but_diagnostics_refl|].
  pose proof (ReconstructPrimMeta_diagnostics (PrimArgs.in_meta a)
                PrimMeta.default st) as Hm.
  destruct (ReconstructPrimMeta _ _ _) as [[[] meta] st1] eqn:Hmeta;
    simpl in Hm; [|intros; simplify_eq; left; by split].
  pose proof (GeomSubset_properties_diagnostics (PrimArgs.properties a)
                GeomSubsetData.default st1) as Hp.
  destruct (GeomSubset_properties _ _ _) as [st2|[subset st2]] eqn:Hprops.
  - intros; simplify_eq. left. split; [done|].
    by eapply same_but_diagnostics_trans.
  - intros Hres. right.
    match type of Hres with
    | context [vector_update ?v ?i ?f] =>
        destruct (vector_update v i f) as [n1|] eqn:Hu1
    end; simpl in Hres; [|done].
    destruct (vector_update n1 _ _) as [n2|] eqn:Hu2; simpl in Hres; [|done].
    destruct (link_to_parent _ _ _) as [st3|] eqn:Hl; simpl in Hres; [|done].
    simplify_eq. split; [done|]. split; [lia|].
    exists meta, st1, subset, st2, n1, n2. repeat split; try done.
    by eapply same_but_diagnostics_trans.
Qed.

(** X14: the GeomSubset callback never makes a root Prim and fails
    without a trace in the scene graph: the top-level list is as it was
    after every call, and a call that does not return [true] (an error, or
    [false] for a rejected property) has changed nothing of the reader
    but its diagnostics. *)
Theorem GeomSubset_never_top_level (a : PrimArgs.t) (st st' : Impl.t)
  (r : expected bool) :
  PrimConstruct_GeomSubset a st = Some (r, st') →
  Impl._toplevel_prims st' = Impl._toplevel_prims st
  ∧ (r ≠ Expected true → same_but_diagnostics st st').
Proof.
  intros [[Hr Hd]|(-> & Hparent & meta & st1 & subset & st2 & n1 & n2 & _ & _
                   & Hd & _ & _ & Hl)]%PrimConstruct_GeomSubset_cases.
  - split; [|done]. apply same_but_diagnostics_fields in Hd. tauto.
  - split; [|done]. apply link_to_parent_toplevel in Hl.
    rewrite decide_False, app_nil_r in Hl by lia. rewrite Hl.
    apply same_but_diagnostics_fields in Hd as (_ & Htop & _).
    rewrite <- Htop. by destruct st2.
Qed.

(** X15: when the GeomSubset callback returns [true], the slot of the Prim
    holds a GeomSubset with the element name, the specifier and the
    decoded metadata, records the parent index, which is not negative,
    and the index of the Prim has been appended to the child list of the
    slot of the parent. *)
Theorem GeomSubset_stores_subset (a : PrimArgs.t) (st st' : Impl.t) :
  PrimConstruct_GeomSubset a st = Some (Expected true, st') →
  0 ≤ PrimArgs.parentPrimIdx a
  ∧ ∃ node subset,
      vector_at (Impl._prim_nodes st')
        (size_t_of_int64 (PrimArgs.primIdx a)) = Some node
      ∧ PrimNode.prim node = Value_GeomSubset subset
      ∧ GeomSubsetData.name subset = Path.prim_part (PrimArgs.prim_name a)
      ∧ GeomSubsetData.spec subset = PrimArgs.spec a
      ∧ GeomSubsetData.meta subset
        = (ReconstructPrimMeta (PrimArgs.in_meta a) PrimMeta.default st).1.2
      ∧ PrimNode.parent node = PrimArgs.parentPrimIdx a
      ∧ ∃ pnode,
          vector_at (Impl._prim_nodes st')
            (size_t_of_int64 (PrimArgs.parentPrimIdx a)) = Some pnode
          ∧ last (PrimNode.children pnode)
            = Some (size_t_of_int64 (PrimArgs.primIdx a)).
Proof.
  intros [[Hr _]|(_ & Hparent & meta & st1 & subset & st2 & n1 & n2 & Hmeta
                  & _ & _ & Hu1 & Hu2 & Hl)]%PrimConstruct_GeomSubset_cases;
    [done|].
  split; [done|]. rewrite Hmeta. simpl.
  pose proof (vector_update_is_Some _ _ _ _ Hu1) as [n0 Hn0].
  pose proof (vector_at_update_eq _ _ _ _ Hu1) as Hat1.
  pose proof (vector_at_update_eq _ _ _ _ Hu2) as Hat2.
  rewrite Hn0 in Hat1. rewrite Hat1 in Hat2. simpl in Hat2.
  revert Hl. unfold link_to_parent. rewrite bool_decide_false by lia.
  rewrite prim_nodes_set_prim_nodes.
  destruct (vector_update n2 _ _) as [n3|] eqn:Hu3; simpl; [|done].
  intros [= <-]. rewrite prim_nodes_set_prim_nodes.
  pose proof (vector_update_is_Some _ _ _ _ Hu3) as [pn Hpn].
  rewrite !(vector_at_update _ _ _ _ _ Hu3), Hat2, Hpn. simpl.
  rewrite (decide_True
             (P := size_t_of_int64 (PrimArgs.parentPrimIdx a)
                   = size_t_of_int64 (PrimArgs.parentPrimIdx a))) by done.
  eexists _,
    (GeomSubsetData.set_meta meta
       (GeomSubsetData.set_spec (PrimArgs.spec a)
          (GeomSubsetData.set_name (Path.prim_part (PrimArgs.prim_name a))
             subset))).
  split; [done|]. split.
  { destruct (decide (_ = _)); simpl; by destruct n0. }
  split; [by destruct subset|]. split; [by destruct subset|].
  split; [by destruct subset|]. split.
  { destruct (decide (_ = _)); simpl; by destruct n0. }
  eexists. split; [done|]. destruct pn; simpl. apply last_snoc.
Qed.

End GeomSubsetCallback.

Section PrimSpecCallback.
Context `{Collaborators}.

(** X16: the PrimSpec callback tests its arguments before it touches the
    reader: an invalid name, an absolute or root path, a name with a
    property part, a negative index or an empty prim part makes it return
    an error, and the reader is left as it was. *)
Theorem PrimSpecFunction_rejects_bad_arguments (a : PrimArgs.t)
  (st : Impl.t) :
  Path.is_valid (PrimArgs.prim_name a) = false
  ∨ Path.is_absolute_path (PrimArgs.prim_name a) = true
  ∨ Path.is_root_path (PrimArgs.prim_name a) = true
  ∨ Path.prop_part (PrimArgs.prim_name a) ≠ ""
  ∨ PrimArgs.primIdx a < 0
  ∨ Path.prim_part (PrimArgs.prim_name a) = "" →
  ∃ msg, PrimSpecFunction a st = Some (Unexpected msg, st).
Proof.
  intros Hbad. unfold PrimSpecFunction.
  destruct (Path.is_valid (PrimArgs.prim_name a)) eqn:Hvalid; simpl;
    [|eauto].
  destruct (Path.is_absolute_path (PrimArgs.prim_name a)) eqn:Habs; simpl;
    [eauto|].
  destruct (Path.is_root_path (PrimArgs.prim_name a)) eqn:Hroot; simpl;
    [eauto|].
  destruct (String.eqb_spec (Path.prop_part (PrimArgs.prim_name a)) "")
    as [Hprop|Hprop]; simpl; [|eauto].
  case_bool_decide as Hidx; [eauto|].
  destruct (String.eqb_spec (Path.prim_part (PrimArgs.prim_name a)) "")
    as [Hprim|Hprim]; [eauto|].
  destruct Hbad as [?|[?|[?|[?|[?|?]]]]]; done.
Qed.

(** X17: when the PrimSpec callback returns a value, the value is [true]:
    the slot of the Prim in the PrimSpec store then holds a PrimSpec with
    the element name, the specifier and the declared type name and no
    children, and records the parent index; the index has been appended
    to the top-level PrimSpec list when the parent index is -1; the
    PrimNode side of the reader and the Stage are as they were. *)
Theorem PrimSpecFunction_stores_primspec (a : PrimArgs.t) (st st' : Impl.t)
  (r : bool) :
  PrimSpecFunction a st = Some (Expected r, st') →
  r = true
  ∧ vector_at (Impl._primspec_nodes st') (PrimArgs.primIdx a)
    ≫= (λ node, Some (PrimSpecNode.primSpec node, PrimSpecNode.parent node))
    = Some
        (MkPrimSpec (Path.prim_part (PrimArgs.prim_name a)) (PrimArgs.spec a)
           (PrimArgs.primTypeName a) [],
         PrimArgs.parentPrimIdx a)
  ∧ Impl._toplevel_primspecs st'
    = Impl._toplevel_primspecs st
        ++ (if decide (PrimArgs.parentPrimIdx a = -1)
            then [PrimArgs.primIdx a] else [])
  ∧ Impl._prim_nodes st' = Impl._prim_nodes st
  ∧ Impl._toplevel_prims st' = Impl._toplevel_prims st
  ∧ Impl._stage st' = Impl._stage st.
Proof.
  unfold PrimSpecFunction.
  repeat (case_match; [intros; by simplify_eq|]).
  intros Hres.
  destruct (vector_update (ensure_slot _ _ _) _ _) as [n1|] eqn:Hu1;
    simpl in Hres; [|done].
  destruct (vector_update n1 _ _) as [n2|] eqn:Hu2; simpl in Hres; [|done].
  destruct (link_primspec_to_parent _ _ _) as [st1|] eqn:Hl; simpl in Hres;
    [|done].
  simplify_eq. split; [done|].
  pose proof (vector_update_is_Some _ _ _ _ Hu1) as [n0 Hn0].
  pose proof (vector_at_update_eq _ _ _ _ Hu1) as Hat1.
  pose proof (vector_at_update_eq _ _ _ _ Hu2) as Hat2.
  rewrite Hn0 in Hat1. rewrite Hat1 in Hat2. simpl in Hat2.
  revert Hl. unfold link_primspec_to_parent.
  destruct (decide (PrimArgs.parentPrimIdx a = -1)) as [Hp|Hp].
  - rewrite bool_decide_true by done. intros [= <-].
    destruct st; simpl in *. rewrite Hat2. simpl.
    repeat split; by destruct n0.
  - rewrite bool_decide_false by done.
    match goal with
    | |- context [vector_update ?v ?i ?f] =>
        destruct (vector_update v i f) as [n3|] eqn:Hu3
    end; simpl; [|done].
    intros [= <-]. rewrite app_nil_r.
    destruct st; simpl in *.
    rewrite (vector_at_update _ _ _ _ (PrimArgs.primIdx a) Hu3), Hat2.
    simpl. repeat split; try done.
    destruct (decide (_ = _)); simpl; by destruct n0.
Qed.

End PrimSpecCallback.

Section StageMetadata.
Context `{Collaborators}.

(** X18: the stage-metadata callback accepts a metadata block exactly when
    its [playbackMode], if it has one, is [none] or [loop]; whatever the
    outcome, it writes the metadata of the Stage and, on failure, the
    error string, and nothing else: the root Prims, both stores and both
    top-level lists are as they were. *)
Theorem StageMetaProcess_accepts_playback_modes
  (metas : ParserStageMetas.t) (st : Impl.t) :
  ((StageMetaProcess metas st).1 = true
   ↔ ParserStageMetas.playbackMode metas = None
     ∨ ParserStageMetas.playbackMode metas = Some "none"
     ∨ ParserStageMetas.playbackMode metas = Some "loop")
  ∧ ∃ m e,
      (StageMetaProcess metas st).2
      = Impl.set_err e (Impl.set_stage (Stage.set_metas m (Impl._stage st)) st).
Proof.
  unfold StageMetaProcess.
  destruct (ParserStageMetas.playbackMode metas) as [tok|].
  - destruct (String.eqb_spec tok "none") as [->|Hnone]; simpl.
    + split; [naive_solver|]. eexists _, (Impl._err st). by destruct st.
    + destruct (String.eqb_spec tok "loop") as [->|Hloop]; simpl.
      * split; [naive_solver|]. eexists _, (Impl._err st). by destruct st.
      * split; [naive_solver|]. eexists _, _. by destruct st.
  - simpl. split; [naive_solver|]. eexists _, (Impl._err st). by destruct st.
Qed.

(** X19: the stage-metadata callback is idempotent: handing an accepted
    metadata block over a second time changes nothing. *)
Theorem StageMetaProcess_idempotent (metas : ParserStageMetas.t)
  (st st' : Impl.t) :
  StageMetaProcess metas st = (true, st') →
  StageMetaProcess metas st' = (true, st').
Proof.
  unfold StageMetaProcess.
  destruct metas as [doc upAxis comment subLayers defaultPrim mpu tcps stc etc
                     fps autoPlay mode cld]; simpl.
  destruct st as [[[] roots] err warn top nodes tops specs flag config];
    simpl.
  destruct mode as [tok|]; [destruct (String.eqb tok "none");
                            [|destruct (String.eqb tok "loop")]|];
    intros [= <-]; simpl; try done;
    f_equal; f_equal; f_equal; f_equal;
    by destruct upAxis, subLayers, mpu, tcps, stc, etc, fps, autoPlay.
Qed.

End StageMetadata.

Section BudgetLoops.
Variables rec rec' : Z → option Prim → outcome (string + Prim).
Variable prim_nodes : list PrimNode.t.
Hypothesis rec_le : ∀ i d r, rec i d = Returns r → rec' i d = Returns r.

Lemma variant_primChildren_loop_le l :
  ∀ visited acc r,
    variant_primChildren_loop rec prim_nodes l visited acc = Returns r →
    variant_primChildren_loop rec' prim_nodes l visited acc = Returns r.
Proof.
  induction l as [|c l IH]; intros visited acc r; simpl; [done|].
  case_bool_decide; [done|]. destruct (_ && _); [|done].
  destruct (rec c (Some dummy_Prim)) as [[e|p]|] eqn:Hrec; [| |done];
    rewrite (rec_le _ _ _ Hrec); [done|apply IH].
Qed.

Lemma variants_loop_le name items :
  ∀ visited vset r,
    variants_loop rec prim_nodes name items visited vset = Returns r →
    variants_loop rec' prim_nodes name items visited vset = Returns r.
Proof.
  induction items as [|[k vn] items IH]; intros visited vset r; simpl;
    [done|].
  destruct (variant_primChildren_loop rec _ _ _ _) as [[e|[ix pc]]|] eqn:Hl;
    [| |done]; rewrite (variant_primChildren_loop_le _ _ _ _ Hl);
    [done|apply IH].
Qed.

Lemma variantNodeMap_loop_le variantNodeMap :
  ∀ visited sets r,
    variantNodeMap_loop rec prim_nodes variantNodeMap visited sets
    = Returns r →
    variantNodeMap_loop rec' prim_nodes variantNodeMap visited sets
    = Returns r.
Proof.
  induction variantNodeMap as [|[k variants] rest IH];
    intros visited sets r; simpl; [done|].
  destruct (variants_loop rec _ _ _ _ _) as [[e|[ix vset]]|] eqn:Hl;
    [| |done]; rewrite (variants_loop_le _ _ _ _ _ Hl); [done|apply IH].
Qed.

Lemma children_loop_le children :
  ∀ visited prim r,
    children_loop rec children visited prim = Returns r →
    children_loop rec' children visited prim = Returns r.
Proof.
  induction children as [|c l IH]; intros visited prim r; simpl; [done|].
  case_bool_decide; [apply IH|].
  destruct (rec c (Some dummy_Prim)) as [[e|p]|] eqn:Hrec; [| |done];
    rewrite (rec_le _ _ _ Hrec); [done|apply IH].
Qed.

End BudgetLoops.

Section Budget.
Variable prim_nodes : list PrimNode.t.

Lemma ConstructPrimTreeRec_S (budget : nat) :
  ∀ idx dest r,
    ConstructPrimTreeRec budget idx prim_nodes dest = Returns r →
    ConstructPrimTreeRec (S budget) idx prim_nodes dest = Returns r.
Proof.
  induction budget as [|budget IH]; intros idx dest r; [done|].
  intros Hres. cbn [ConstructPrimTreeRec] in *.
  unfold ConstructPrimTreeRec_body in *.
  destruct dest; [|done].
  destruct (vector_at prim_nodes idx) as [node|]; [|done].
  destruct (variantNodeMap_loop
              (λ i d, ConstructPrimTreeRec budget i prim_nodes d) _ _ _ _)
    as [[e|[visited sets]]|] eqn:Hsets; [| |done];
    rewrite (variantNodeMap_loop_le _ _ _ IH _ _ _ _ Hsets); [done|].
  by apply (children_loop_le _ _ IH).
Qed.

Lemma ConstructPrimTreeRec_le (budget budget' : nat) idx dest r :
  (budget ≤ budget')%nat →
  ConstructPrimTreeRec budget idx prim_nodes dest = Returns r →
  ConstructPrimTreeRec budget' idx prim_nodes dest = Returns r.
Proof.
  induction 1 as [|budget' _ IH]; [done|].
  intros Hres. by apply ConstructPrimTreeRec_S, IH.
Qed.

End Budget.

Section StageBudget.
Context `{Collaborators}.

Lemma ReconstructStage_loop_le (budget budget' : nat) toplevel :
  (budget ≤ budget')%nat →
  ∀ st r,
    ReconstructStage_loop budget toplevel st = Returns r →
    ReconstructStage_loop budget' toplevel st = Returns r.
Proof.
  intros Hle. induction toplevel as [|idx l IH]; intros st r; simpl; [done|].
  destruct (ConstructPrimTreeRec budget _ _ _) as [[e|p]|] eqn:Hrec;
    [| |done];
    rewrite (ConstructPrimTreeRec_le _ _ _ _ _ _ Hle Hrec); [done|apply IH].
Qed.

Lemma ReconstructStage_le (budget budget' : nat) st r :
  (budget ≤ budget')%nat →
  ReconstructStage budget st = Returns r →
  ReconstructStage budget' st = Returns r.
Proof.
  intros Hle. unfold ReconstructStage.
  destruct (ReconstructStage_loop budget _ _) as [[ok st1]|] eqn:Hloop;
    [|by destruct st].
  rewrite (ReconstructStage_loop_le _ _ _ Hle _ _ Hloop). done.
Qed.

(** X20: on a store in which the children and the variant children of a
    slot have larger indices than the slot, [ReconstructStage] returns:
    the recursion of [ConstructPrimTreeRec] is at most as deep as the
    store is long, and the result is the same for every budget above the
    size of the store. *)
Theorem ReconstructStage_terminates_on_ordered_store (st : Impl.t) :
  store_is_ordered (Impl._prim_nodes st) →
  Forall (λ idx, 0 ≤ idx) (Impl._toplevel_prims st) →
  ∃ r,
    ∀ budget,
      (Z.to_nat (vector_size (Impl._prim_nodes st)) < budget)%nat →
      ReconstructStage budget st = Returns r.
Proof.
  intros Hord Htop.
  pose proof (ReconstructStage_returns st Hord Htop) as Hret.
  destruct (ReconstructStage _ st) as [r|] eqn:Hres; [|done].
  exists r. intros budget Hb.
  eapply ReconstructStage_le; [|exact Hres]. lia.
Qed.

End StageBudget.

Section StageResult.
Context `{Collaborators}.

(** X21: a successful [ReconstructStage] replaces the root Prims of the
    Stage: the new roots are the Prims built from the top-level entries,
    one per entry and in their order, whatever roots the Stage had; the
    Stage then goes through the path pass, and nothing else of the reader
    changes. *)
Theorem ReconstructStage_rebuilds_roots (budget : nat) (st st' : Impl.t) :
  ReconstructStage budget st = Returns (true, st') →
  ∃ built,
    Forall2 (built_by (construct budget (Impl._prim_nodes st)))
      (Impl._toplevel_prims st) built
    ∧ st'
      = Impl.set_stage
          (compute_absolute_prim_path_and_assign_prim_id
             (Stage.set_root_prims built (Impl._stage st))) st.
Proof.
  unfold ReconstructStage.
  destruct (ReconstructStage_loop _ _ _) as [[[] st1]|] eqn:Hloop;
    [|done..].
  intros [= <-].
  apply ReconstructStage_loop_success in Hloop as (built & Hbuilt & ->).
  exists built. split; [by destruct st|]. by destruct st as [[] ?].
Qed.

Lemma ReconstructStage_loop_frame (budget : nat) (toplevel : list Z) :
  ∀ st ok st',
    ReconstructStage_loop budget toplevel st = Returns (ok, st') →
    ∃ stage e, st' = Impl.set_err e (Impl.set_stage stage st).
Proof.
  induction toplevel as [|idx l IH]; intros st ok st'; simpl.
  - intros [= <- <-]. exists (Impl._stage st), (Impl._err st). by destruct st.
  - destruct (ConstructPrimTreeRec _ _ _ _) as [[e|p]|]; [| |done].
    + intros [= <- <-]. exists (Impl._stage st), e. by destruct st.
    + intros (stage & e & ->)%IH. exists stage, e. by destruct st.
Qed.

Lemma ReconstructStage_frame (budget : nat) (st st' : Impl.t) (ok : bool) :
  ReconstructStage budget st = Returns (ok, st') →
  ∃ stage e, st' = Impl.set_err e (Impl.set_stage stage st).
Proof.
  unfold ReconstructStage.
  destruct (ReconstructStage_loop _ _ _) as [[ok1 st1]|] eqn:Hloop;
    [|done].
  apply ReconstructStage_loop_frame in Hloop as (stage & e & ->).
  destruct ok1; intros [= <- <-]; eexists _, e; by destruct st.
Qed.

End StageResult.

Section StageRepeat.
Context `{Collaborators}.

Lemma ReconstructStage_loop_same_nodes (budget : nat) (toplevel : list Z) :
  ∀ st1 st2,
    Impl._prim_nodes st1 = Impl._prim_nodes st2 →
    match
      ReconstructStage_loop budget toplevel st1,
      ReconstructStage_loop budget toplevel st2
    with
    | Returns (ok1, _), Returns (ok2, _) => ok1 = ok2
    | Diverge, Diverge => True
    | _, _ => False
    end.
Proof.
  induction toplevel as [|idx l IH]; intros st1 st2 Hnodes; simpl; [done|].
  rewrite Hnodes.
  destruct (ConstructPrimTreeRec _ _ _ _) as [[e|p]|]; [done| |done].
  apply IH. by destruct st1, st2.
Qed.

(** X22: [ReconstructStage] reads the stores and writes the Stage (and,
    on failure, the error string): whatever it returns, the PrimNode store,
    the top-level list, the PrimSpec side, the warning string and the
    configuration are as they were, and a second call returns what the
    first returned. *)
Theorem ReconstructStage_repeatable (budget : nat) (st st' : Impl.t)
  (ok : bool) :
  ReconstructStage budget st = Returns (ok, st') →
  (∃ stage e, st' = Impl.set_err e (Impl.set_stage stage st))
  ∧ ∃ st'', ReconstructStage budget st' = Returns (ok, st'').
Proof.
  intros Hfirst.
  pose proof (ReconstructStage_frame _ _ _ _ Hfirst) as (stage & e & Hst').
  split; [by exists stage, e|].
  revert Hfirst. unfold ReconstructStage.
  pose proof (ReconstructStage_loop_same_nodes budget
                (Impl._toplevel_prims st)
                (Impl.set_stage (Stage.set_root_prims [] (Impl._stage st)) st)
                (Impl.set_stage (Stage.set_root_prims [] (Impl._stage st'))
                   st')) as Hsame.
  replace (Impl._toplevel_prims
             (Impl.set_stage (Stage.set_root_prims [] (Impl._stage st')) st'))
    with (Impl._toplevel_prims st) by (subst st'; by destruct st).
  replace (Impl._toplevel_prims
             (Impl.set_stage (Stage.set_root_prims [] (Impl._stage st)) st))
    with (Impl._toplevel_prims st) by (by destruct st).
  destruct (ReconstructStage_loop budget (Impl._toplevel_prims st)
              (Impl.set_stage (Stage.set_root_prims [] (Impl._stage st)) st))
    as [[ok1 st1]|]; [|done].
  destruct (ReconstructStage_loop budget (Impl._toplevel_prims st)
              (Impl.set_stage (Stage.set_root_prims [] (Impl._stage st'))
                 st')) as [[ok2 st2]|].
  - rewrite <- Hsame by (subst st'; by destruct st).
    destruct ok1; intros [= <- _]; eauto.
  - exfalso. apply Hsame. subst st'. by destruct st.
Qed.

End StageRepeat.

Section NodeResult.
Variable prim_nodes : list PrimNode.t.

Lemma built_by_in_range budget i p :
  built_by (construct budget prim_nodes) i p →
  0 ≤ i < vector_size prim_nodes.
Proof.
  unfold built_by, construct. destruct budget as [|budget]; [done|].
  intros (node & Hnode & _)%ConstructPrimTreeRec_inv.
  by apply vector_at_Some in Hnode as [? _].
Qed.

Lemma Forall2_built_by_in_range budget l ps :
  Forall2 (built_by (construct budget prim_nodes)) l ps →
  Forall (λ i, 0 ≤ i < vector_size prim_nodes) l.
Proof.
  induction 1 as [|i p l ps Hi _ IH]; constructor; [|done].
  by eapply built_by_in_range.
Qed.

Lemma VariantSets_built_in_range budget variantNodeMap sets :
  Forall2 (VariantSet_built_from (construct budget prim_nodes))
    variantNodeMap sets →
  Forall (λ i, 0 ≤ i < vector_size prim_nodes)
    (variant_children_of variantNodeMap).
Proof.
  unfold variant_children_of.
  induction 1 as [|[k variants] [k' vset] m sets [_ Hvars] _ IH]; simpl;
    [constructor|].
  apply Forall_app. split; [|exact IH]. simpl in Hvars. clear IH.
  induction Hvars as [|[v vn] [v' variant] l l' (_ & _ & _ & Hprims) _ IH];
    simpl; [constructor|].
  apply Forall_app. split; [|exact IH].
  by eapply Forall2_built_by_in_range.
Qed.

(** X23: a construction that succeeds has read slots of the store only:
    the index itself, every variant child that the slot records and every
    ordinary child lie in [0, N).  (A variant child equal to N passes the
    test of the loop, [size_t(vidx) <= prim_nodes.size()], and is refused
    by the recursive call.) *)
Theorem ConstructPrimTreeRec_reads_inside_store (budget : nat) (idx : Z)
  (node : PrimNode.t) (prim : Prim) :
  vector_at prim_nodes idx = Some node →
  node_maps_ok node →
  ConstructPrimTreeRec budget idx prim_nodes (Some dummy_Prim)
  = Returns (inr prim) →
  0 ≤ idx < vector_size prim_nodes
  ∧ Forall (λ i, 0 ≤ i < vector_size prim_nodes)
      (variant_children_of (PrimNode.variantNodeMap node))
  ∧ Forall (λ i, 0 ≤ i < vector_size prim_nodes) (ordinary_children_of node).
Proof.
  intros Hnode Hok Hres. destruct budget as [|budget]; [done|].
  apply ConstructPrimTreeRec_inv in Hres
    as (node' & Hnode' & _ & _ & Hbuilt).
  rewrite Hnode in Hnode'. simplify_eq.
  destruct (Hbuilt Hok) as (sets & cs & _ & Hsets & Hcs).
  split; [by apply vector_at_Some in Hnode as [? _]|]. split.
  - by eapply VariantSets_built_in_range.
  - by eapply Forall2_built_by_in_range.
Qed.

Lemma Forall2_fst_eq {V W} (R : V → W → Prop) (m : StdMap.t V)
  (m' : StdMap.t W) :
  Forall2 (λ x y, x.1 = y.1 ∧ R x.2 y.2) m m' → m'.*1 = m.*1.
Proof. induction 1 as [|x y ?? [Hk _] _ IH]; csimpl; [done|]. congruence. Qed.

(** X24: the Prim built for a slot carries the typed value and the type
    name of the slot; its variant sets are those of the slot, name by
    name, and each of its variants has the metadata and the properties
    that the slot records for it; it has one child per ordinary child of
    the slot. *)
Theorem ConstructPrimTreeRec_copies_node (budget : nat) (idx : Z)
  (node : PrimNode.t) (prim : Prim) :
  vector_at prim_nodes idx = Some node →
  node_maps_ok node →
  ConstructPrimTreeRec budget idx prim_nodes (Some dummy_Prim)
  = Returns (inr prim) →
  PrimOps.data prim = PrimNode.prim node
  ∧ PrimOps.prim_type_name prim = PrimNode.typeName node
  ∧ (PrimOps.variantSets prim).*1 = (PrimNode.variantNodeMap node).*1
  ∧ (∀ vs variants v vn,
       StdMap.find vs (PrimNode.variantNodeMap node) = Some variants →
       StdMap.find v variants = Some vn →
       ∃ vset variant,
         StdMap.find vs (PrimOps.variantSets prim) = Some vset
         ∧ StdMap.find v (VariantSetOps.variantSet vset) = Some variant
         ∧ VariantOps.metas variant = VariantNode.metas vn
         ∧ VariantOps.properties variant = VariantNode.props vn
         ∧ length (VariantOps.primChildren variant)
           = length (VariantNode.primChildren vn))
  ∧ length (PrimOps.children prim) = length (ordinary_children_of node).
Proof.
  intros Hnode Hok Hres. destruct budget as [|budget]; [done|].
  apply ConstructPrimTreeRec_inv in Hres
    as (node' & Hnode' & _ & _ & Hbuilt).
  rewrite Hnode in Hnode'. simplify_eq.
  destruct (Hbuilt Hok) as (sets & cs & -> & Hsets & Hcs). simpl.
  split; [done|]. split; [done|]. split.
  { by apply (Forall2_fst_eq
                (λ x y,
                   Forall2 (Variant_built_from (construct budget prim_nodes))
                     x (VariantSetOps.variantSet y))). }
  split; [|by rewrite (Forall2_length _ _ _ Hcs)].
  intros vs variants v vn Hvs Hv.
  destruct (find_Forall2
              (λ x y, Forall2 (Variant_built_from (construct budget prim_nodes))
                        x (VariantSetOps.variantSet y))
              vs variants _ sets Hsets Hvs) as (vset & Hvset & Hvars).
  destruct (find_Forall2
              (λ x y,
                 VariantOps.metas y = VariantNode.metas x
                 ∧ VariantOps.properties y = VariantNode.props x
                 ∧ Forall2 (built_by (construct budget prim_nodes))
                     (VariantNode.primChildren x) (VariantOps.primChildren y))
              v vn _ _ Hvars Hv) as (variant & Hvariant & Hm & Hp & Hprims).
  exists vset, variant. repeat split; try done.
  by rewrite (Forall2_length _ _ _ Hprims).
Qed.

End NodeResult.

(** ** Properties of the C API *)

Section ValueTypes.
Context `{CTinyUSDHeader}.

Lemma c_tinyusd_value_type_name_untruncated (value_type : Z) :
  c_tinyusd_value_type_name value_type
  = match value_type_of_code (drop_array_bit value_type) with
    | Some e => value_type_tyname e
    | None => "[invalid]"
    end
    +:+ (if has_array_bit value_type then "[]" else "").
Proof.
  unfold c_tinyusd_value_type_name.
  destruct (value_type_of_code _) as [e|]; [destruct e|];
    destruct (has_array_bit value_type); vm_compute; reflexivity.
Qed.

(** X25: the name of a value type is never truncated: it is the name that
    the switch gives for the type without its array bit ([[invalid]] for a
    value that is no enumerator), followed by [[]] when the array bit is
    set, and it has at most 12 characters, so that it fits the 32-byte
    buffer with its terminator. *)
Theorem c_tinyusd_value_type_name_fits_buffer (value_type : Z) :
  c_tinyusd_value_type_name value_type
  = match value_type_of_code (drop_array_bit value_type) with
    | Some e => value_type_tyname e
    | None => "[invalid]"
    end
    +:+ (if has_array_bit value_type then "[]" else "")
  ∧ (String.length (c_tinyusd_value_type_name value_type) ≤ 12)%nat.
Proof.
  split; [apply c_tinyusd_value_type_name_untruncated|].
  rewrite c_tinyusd_value_type_name_untruncated.
  destruct (value_type_of_code _) as [e|]; [destruct e|];
    destruct (has_array_bit value_type); vm_compute; lia.
Qed.

(** X26: the two size tables agree: the size of a value type is its
    number of components times the size of one component, which is 1, 2, 4
    or 8 bytes; in particular the size is zero exactly for the types that
    have no components (token, string, the end marker and the values that
    are no enumerator). *)
Theorem c_tinyusd_value_type_sizeof_by_components (value_type : Z) :
  (∃ w,
     w ∈ [1; 2; 4; 8]
     ∧ c_tinyusd_value_type_sizeof value_type
       = c_tinyusd_value_type_components value_type * w)
  ∧ (c_tinyusd_value_type_sizeof value_type = 0
     ↔ c_tinyusd_value_type_components value_type = 0).
Proof.
  unfold c_tinyusd_value_type_sizeof, c_tinyusd_value_type_components.
  destruct (value_type_of_code _) as [e|].
  - destruct e; (split; [|by vm_compute]);
      first
        [ by exists 1; split; [set_solver|vm_compute]
        | by exists 2; split; [set_solver|vm_compute]
        | by exists 4; split; [set_solver|vm_compute]
        | by exists 8; split; [set_solver|vm_compute] ].
  - split; [|done]. exists 1. split; [set_solver|done].
Qed.

Lemma drop_array_bit_lor (value_type : Z) :
  drop_array_bit (Z.lor value_type C_TINYUSD_VALUE_1D_BIT)
  = drop_array_bit value_type.
Proof.
  unfold drop_array_bit. apply Z.bits_inj'. intros n Hn.
  rewrite !Z.land_spec, Z.lor_spec, Z.lnot_spec by done.
  by destruct (Z.testbit value_type n), (Z.testbit C_TINYUSD_VALUE_1D_BIT n).
Qed.

Lemma has_array_bit_lor (value_type : Z) :
  C_TINYUSD_VALUE_1D_BIT ≠ 0 →
  has_array_bit (Z.lor value_type C_TINYUSD_VALUE_1D_BIT) = true.
Proof.
  intros Hbit. unfold has_array_bit.
  replace (Z.land (Z.lor value_type C_TINYUSD_VALUE_1D_BIT)
             C_TINYUSD_VALUE_1D_BIT) with C_TINYUSD_VALUE_1D_BIT.
  - by apply negb_true_iff, Z.eqb_neq.
  - apply Z.bits_inj'. intros n Hn.
    rewrite Z.land_spec, Z.lor_spec.
    by destruct (Z.testbit value_type n),
         (Z.testbit C_TINYUSD_VALUE_1D_BIT n).
Qed.

Lemma drop_array_bit_idemp (value_type : Z) :
  drop_array_bit (drop_array_bit value_type) = drop_array_bit value_type.
Proof.
  unfold drop_array_bit. apply Z.bits_inj'. intros n Hn.
  rewrite !Z.land_spec, Z.lnot_spec by done.
  by destruct (Z.testbit value_type n), (Z.testbit C_TINYUSD_VALUE_1D_BIT n).
Qed.

Lemma has_array_bit_drop (value_type : Z) :
  has_array_bit (drop_array_bit value_type) = false.
Proof.
  unfold has_array_bit, drop_array_bit.
  replace (Z.land (Z.land value_type (Z.lnot C_TINYUSD_VALUE_1D_BIT))
             C_TINYUSD_VALUE_1D_BIT) with 0; [done|].
  symmetry. apply Z.bits_inj'. intros n Hn.
  rewrite !Z.land_spec, Z.lnot_spec, Z.bits_0 by done.
  by destruct (Z.testbit value_type n), (Z.testbit C_TINYUSD_VALUE_1D_BIT n).
Qed.

(** X27: an array type is described through its element type: setting the
    array bit of a value type changes neither its number of components
    nor its size, and appends [[]] to the name of the type without the
    bit. *)
Theorem c_tinyusd_value_type_array_bit (value_type : Z) :
  C_TINYUSD_VALUE_1D_BIT ≠ 0 →
  let array_type := Z.lor value_type C_TINYUSD_VALUE_1D_BIT in
  c_tinyusd_value_type_components array_type
  = c_tinyusd_value_type_components value_type
  ∧ c_tinyusd_value_type_sizeof array_type
    = c_tinyusd_value_type_sizeof value_type
  ∧ c_tinyusd_value_type_name array_type
    = c_tinyusd_value_type_name (drop_array_bit value_type) +:+ "[]".
Proof.
  intros Hbit array_type. subst array_type.
  unfold c_tinyusd_value_type_components, c_tinyusd_value_type_sizeof.
  rewrite drop_array_bit_lor. split; [done|]. split; [done|].
  rewrite !c_tinyusd_value_type_name_untruncated.
  rewrite drop_array_bit_lor, has_array_bit_lor by done.
  rewrite drop_array_bit_idemp, has_array_bit_drop.
  by rewrite string_app_nil_r.
Qed.

End ValueTypes.

Section CStrings.

Lemma first_chars_strlen_length (s : string) :
  String.length (first_chars (strlen s) s) = strlen s.
Proof.
  unfold first_chars. induction s as [|c s IH]; simpl; [done|].
  destruct (Ascii.eqb c _); simpl; [done|]. by rewrite IH.
Qed.

Lemma strlen_first_chars (s : string) :
  strlen (first_chars (strlen s) s) = strlen s.
Proof.
  unfold first_chars. induction s as [|c s IH]; simpl; [done|].
  destruct (Ascii.eqb c _) eqn:Hc; simpl; [done|]. by rewrite Hc, IH.
Qed.

Lemma first_chars_length (s : string) : first_chars (String.length s) s = s.
Proof.
  unfold first_chars. induction s as [|c s IH]; simpl; [done|].
  by rewrite IH.
Qed.

Lemma strlen_le_length (s : string) : (strlen s ≤ String.length s)%nat.
Proof.
  induction s as [|c s IH]; simpl; [done|].
  destruct (Ascii.eqb c _); simpl; lia.
Qed.

Lemma first_chars_strlen_full (s : string) :
  strlen s = String.length s → first_chars (strlen s) s = s.
Proof. intros ->. apply first_chars_length. Qed.

End CStrings.

Section PrimTypes.
Context `{CTinyUSDHeader}.

(** X28: the names and the types of the built-in Prim types correspond:
    when the schema-name constants are pairwise distinct, differ from
    ["Model"] and fit the name buffer, the name of every Prim type that
    has a constant is read back as that type. *)
Theorem c_tinyusd_prim_type_name_round_trip (prim_type : CTinyUSDPrimType) :
  NoDup ("Model" :: prim_type_constants) →
  Forall (λ k, strlen k = String.length k ∧ (String.length k ≤ 31)%nat)
    prim_type_constants →
  prim_type ∈ named_prim_types →
  c_tinyusd_prim_type_from_string
    <$> c_tinyusd_prim_type_name prim_type
  = Some prim_type.
Proof.
  intros Hnodup Hlen Hin.
  assert (Forall (λ k, prim_type_name_buffer k = k) prim_type_constants)
    as Hbuf.
  { eapply Forall_impl; [exact Hlen|]. intros k [Hstrlen Hshort].
    unfold prim_type_name_buffer. rewrite Hstrlen.
    rewrite bool_decide_false by lia. apply first_chars_length. }
  unfold prim_type_constants in *.
  repeat
    match goal with
    | Hnd : NoDup (_ :: _) |- _ => apply NoDup_cons in Hnd as [? Hnd]
    end.
  repeat
    match goal with
    | Hne : _ ∉ _ :: _ |- _ => apply not_elem_of_cons in Hne as [? Hne]
    end.
  repeat
    match goal with
    | Hf : Forall _ (_ :: _) |- _ => apply Forall_cons in Hf as [? Hf]
    end.
  apply list_elem_of_In in Hin. simpl in Hin.
  repeat (destruct Hin as [<-|Hin]; [|]); [..|done];
    simpl; f_equal;
    repeat
      match goal with
      | Hb : prim_type_name_buffer ?k = ?k |- _ => rewrite Hb; clear Hb
      end;
    unfold c_tinyusd_prim_type_from_string;
    repeat
      first
        [ rewrite String.eqb_refl
        | rewrite (proj2 (String.eqb_neq _ _)) by congruence ];
    done.
Qed.

End PrimTypes.

Section StringBuffers.
Context `{CTinyUSDHeader}.

(** X29: a string handed over as a C string comes back unchanged: after
    [c_tinyusd_string_new] the handle holds the characters before the
    terminator, [c_tinyusd_string_size] is their number, and
    [c_tinyusd_buffer_new_and_copy_string] succeeds with a buffer of type
    string that holds exactly these characters, or no data when there are
    none. *)
Theorem c_tinyusd_string_to_buffer (s0 : c_tinyusd_string)
  (b0 : CTinyUSDBuffer) (str : string) :
  ∃ s,
    c_tinyusd_string_new (Some s0) (Some str) = (1, s)
    ∧ c_tinyusd_string_str s = Some (std_string_of str)
    ∧ c_tinyusd_string_size s = Z.of_nat (strlen str)
    ∧ c_tinyusd_buffer_new_and_copy_string (Some b0) s
      = Some
          (1,
           Some
             (mk_CTinyUSDBuffer (value_type_code C_TINYUSD_VALUE_STRING) 0
                (if decide (strlen str = 0%nat) then None
                 else Some (std_string_of str)))).
Proof.
  eexists. split; [reflexivity|]. split; [reflexivity|].
  assert (c_tinyusd_string_size
            (Some (mk_c_tinyusd_string (Some (std_string_of str))))
          = Z.of_nat (strlen str)) as Hsize.
  { simpl. unfold std_string_of. by rewrite first_chars_strlen_length. }
  split; [exact Hsize|].
  unfold c_tinyusd_buffer_new_and_copy_string. rewrite Hsize.
  destruct (decide (strlen str = 0%nat)) as [Hz|Hnz].
  - rewrite Hz. done.
  - rewrite (proj2 (Z.eqb_neq _ 0)) by lia. simpl.
    unfold std_string_of at 1 2. rewrite strlen_first_chars.
    rewrite Z.eqb_refl. simpl. rewrite Nat2Z.id.
    do 4 f_equal. unfold std_string_of.
    rewrite <- (first_chars_strlen_length str) at 1.
    f_equal. apply first_chars_length.
Qed.

End StringBuffers.

(** ** The further properties at sample inputs *)

Lemma ReconstructPrimMeta_skips_unknown_keys_witness :
  Forall (λ kv : string * (ListEditQual * MetaVariable),
            kv.1 ∉ recognized_keys) unknown_key_meta
  ∧ ReconstructPrimMeta (H := sample_collaborators) unknown_key_meta
      PrimMeta.default Impl.init
    = (true, PrimMeta.default,
       foldl
         (λ s (kv : string * (ListEditQual * MetaVariable)),
            PUSH_WARN (H := sample_collaborators)
              ("TODO: Prim metadataum : " +:+ kv.1) s)
         Impl.init unknown_key_meta).
Proof.
  assert (Forall (λ kv : string * (ListEditQual * MetaVariable),
                    kv.1 ∉ recognized_keys) unknown_key_meta) as Hkeys.
  { apply (bool_decide_unpack _). vm_compute. exact I. }
  split; [exact Hkeys|].
  exact (ReconstructPrimMeta_skips_unknown_keys (H := sample_collaborators)
           unknown_key_meta PrimMeta.default Impl.init Hkeys).
Defined.

Lemma apiSchemas_keeps_known_names_witness :
  (Prepend = Prepend ∨ Prepend = ResetToExplicit)
  ∧ ∃ st',
      ReconstructPrimMeta (H := sample_collaborators)
        [("apiSchemas",
          (Prepend,
           MkMetaVariable "token[]" 0
             (held_token_array ["SkelBindingAPI"; "Bogus"])))]
        PrimMeta.default Impl.init
      = (true,
         PrimMeta.set_apiSchemas
           (mkAPISchemas Prepend
              (omap
                 (λ tok, (λ name, (name, "")) <$>
                           expected_value
                             (ApiSchemaHandler (H := sample_collaborators)
                                tok))
                 ["SkelBindingAPI"; "Bogus"]))
           PrimMeta.default, st')
      ∧ extends_err Impl.init st'.
Proof.
  split; [left; reflexivity|].
  apply (apiSchemas_keeps_known_names (H := sample_collaborators)).
  left; reflexivity.
Defined.

Lemma apiSchemas_rejects_other_qualifiers_witness :
  Append ≠ Prepend
  ∧ Append ≠ ResetToExplicit
  ∧ ("apiSchemas",
     (Append, MkMetaVariable "token[]" 0 (held_token_array ["SkelBindingAPI"])))
      ∈ appended_apiSchemas
  ∧ (ReconstructPrimMeta (H := sample_collaborators) appended_apiSchemas
       PrimMeta.default Impl.init).1.1 = false.
Proof.
  assert (Append ≠ Prepend) as H1 by discriminate.
  assert (Append ≠ ResetToExplicit) as H2 by discriminate.
  assert (("apiSchemas",
           (Append,
            MkMetaVariable "token[]" 0 (held_token_array ["SkelBindingAPI"])))
            ∈ appended_apiSchemas) as H3 by (apply elem_of_cons; by left).
  repeat (split; [assumption|]).
  exact (apiSchemas_rejects_other_qualifiers (H := sample_collaborators) _ _
           _ _ _ _ H1 H2 H3).
Defined.

Lemma BuildVariants_selects_strings_witness :
  StdMap.ok [("a", sample_string_value)]
  ∧ match BuildVariants [("a", sample_string_value)] with
    | Expected m =>
        Forall (λ kv, is_Some (string_value kv.2))
          [("a", sample_string_value)]
        ∧ ∀ k,
            m !! k
            = StdMap.find k [("a", sample_string_value)] ≫= string_value
    | Unexpected _ =>
        Exists (λ kv, string_value kv.2 = None) [("a", sample_string_value)]
    end.
Proof.
  split; [reflexivity|].
  apply (BuildVariants_selects_strings [("a", sample_string_value)]).
  reflexivity.
Defined.

Lemma ReconstructPrimMeta_failure_pushes_error_witness :
  ReconstructPrimMeta (H := sample_collaborators) rejected_meta
    PrimMeta.default Impl.init
  = (false, PrimMeta.default,
     PUSH_ERROR (H := sample_collaborators)
       "(Internal error?) `active` metadataum is not type `bool`. got `int`."
       Impl.init)
  ∧ ∃ st1 msg,
      extends_err Impl.init st1
      ∧ (PUSH_ERROR (H := sample_collaborators)
           "(Internal error?) `active` metadataum is not type `bool`. got `int`."
           Impl.init
         = PUSH_ERROR (H := sample_collaborators) msg st1
         ∨ PUSH_ERROR (H := sample_collaborators)
             "(Internal error?) `active` metadataum is not type `bool`. got `int`."
             Impl.init
           = PUSH_ERROR_TAG (H := sample_collaborators) kTag msg st1).
Proof.
  assert (ReconstructPrimMeta (H := sample_collaborators) rejected_meta
            PrimMeta.default Impl.init
          = (false, PrimMeta.default,
             PUSH_ERROR (H := sample_collaborators)
               "(Internal error?) `active` metadataum is not type `bool`. got `int`."
               Impl.init)) as Hfail by (vm_compute; reflexivity).
  split; [exact Hfail|].
  exact (ReconstructPrimMeta_failure_pushes_error (H := sample_collaborators)
           _ _ _ _ _ Hfail).
Defined.

Lemma PrimConstruct_failure_keeps_store_witness :
  PrimConstruct (H := sample_collaborators) Xform root_args_bad_variant
    reader_with_child
  = Some (Unexpected bad_variant_error, reader_after_bad_variant)
  ∧ same_but_variant_marks reader_with_child reader_after_bad_variant.
Proof.
  assert (PrimConstruct (H := sample_collaborators) Xform
            root_args_bad_variant reader_with_child
          = Some (Unexpected bad_variant_error, reader_after_bad_variant))
    as Hfail by (vm_compute; reflexivity).
  split; [exact Hfail|].
  exact (PrimConstruct_failure_keeps_store (H := sample_collaborators) _ _ _
           _ _ Hfail).
Defined.

Lemma PrimConstruct_stores_prim_witness :
  PrimConstruct (H := sample_collaborators) Xform root_args reader_with_child
  = Some (Expected true, reader_with_root)
  ∧ 0 ≤ PrimArgs.primIdx root_args
  ∧ vector_size (Impl._prim_nodes reader_with_root)
    = Z.max (vector_size (Impl._prim_nodes reader_with_child))
        (PrimArgs.primIdx root_args + 1)
  ∧ ∃ node prim,
      vector_at (Impl._prim_nodes reader_with_root)
        (PrimArgs.primIdx root_args) = Some node
      ∧ PrimNode.prim node = Value_prim Xform prim
      ∧ TypedPrim.name prim = Path.prim_part (PrimArgs.prim_name root_args)
      ∧ TypedPrim.spec prim = PrimArgs.spec root_args
      ∧ PrimNode.typeName node = PrimArgs.primTypeName root_args
      ∧ PrimNode.parent node = PrimArgs.parentPrimIdx root_args.
Proof.
  assert (PrimConstruct (H := sample_collaborators) Xform root_args
            reader_with_child
          = Some (Expected true, reader_with_root))
    as Hok by (vm_compute; reflexivity).
  split; [exact Hok|].
  exact (PrimConstruct_stores_prim (H := sample_collaborators) _ _ _ _ Hok).
Defined.

Lemma PrimConstruct_links_prim_witness :
  PrimConstruct (H := sample_collaborators) Xform child_args
    reader_with_two_slots
  = Some (Expected true, reader_with_child)
  ∧ Impl._toplevel_prims reader_with_child
    = Impl._toplevel_prims reader_with_two_slots
        ++ (if decide (PrimArgs.parentPrimIdx child_args = -1)
            then [PrimArgs.primIdx child_args] else [])
  ∧ ∀ j,
      slot_children (Impl._prim_nodes reader_with_child) j
      = slot_children (Impl._prim_nodes reader_with_two_slots) j
          ++ (if decide (PrimArgs.parentPrimIdx child_args ≠ -1
                         ∧ j = size_t_of_int64
                                 (PrimArgs.parentPrimIdx child_args))
              then [PrimArgs.primIdx child_args] else []).
Proof.
  assert (PrimConstruct (H := sample_collaborators) Xform child_args
            reader_with_two_slots
          = Some (Expected true, reader_with_child))
    as Hok by (vm_compute; reflexivity).
  split; [exact Hok|].
  exact (PrimConstruct_links_prim (H := sample_collaborators) _ _ _ _ Hok).
Defined.

Lemma PrimConstruct_stays_in_store_witness :
  PrimArgs.parentPrimIdx child_args < 2 ^ 63
  ∧ (PrimArgs.parentPrimIdx child_args = -1
     ∨ 0 ≤ PrimArgs.parentPrimIdx child_args
         < Z.max (vector_size (Impl._prim_nodes reader_with_two_slots))
             (PrimArgs.primIdx child_args + 1))
  ∧ is_Some
      (PrimConstruct (H := sample_collaborators) Xform child_args
         reader_with_two_slots).
Proof.
  assert (PrimArgs.parentPrimIdx child_args < 2 ^ 63) as Hint
    by (vm_compute; reflexivity).
  assert (PrimArgs.parentPrimIdx child_args = -1
          ∨ 0 ≤ PrimArgs.parentPrimIdx child_args
              < Z.max (vector_size (Impl._prim_nodes reader_with_two_slots))
                  (PrimArgs.primIdx child_args + 1)) as Hparent.
  { right. vm_compute. split; [discriminate|reflexivity]. }
  repeat (split; [assumption|]).
  exact (PrimConstruct_stays_in_store (H := sample_collaborators) Xform _ _
           Hint Hparent).
Defined.

Lemma PrimConstruct_records_variant_children_witness :
  PrimConstruct (H := sample_collaborators) Xform root_args reader_with_child
  = Some (Expected true, reader_with_root)
  ∧ ∃ node,
      vector_at (Impl._prim_nodes reader_with_root)
        (PrimArgs.primIdx root_args) = Some node
      ∧ ∀ c,
          c ∈ variant_children_of (PrimNode.variantNodeMap node) →
          0 ≤ c < vector_size (Impl._prim_nodes reader_with_child)
          ∧ marked_in_variant (Impl._prim_nodes reader_with_root) c.
Proof.
  assert (PrimConstruct (H := sample_collaborators) Xform root_args
            reader_with_child
          = Some (Expected true, reader_with_root))
    as Hok by (vm_compute; reflexivity).
  split; [exact Hok|].
  exact (PrimConstruct_records_variant_children (H := sample_collaborators)
           _ _ _ _ Hok).
Defined.

Lemma GeomSubset_never_top_level_witness :
  PrimConstruct_GeomSubset (H := sample_collaborators) subset_args
    reader_with_two_slots
  = Some (Expected true, reader_with_subset)
  ∧ Impl._toplevel_prims reader_with_subset
    = Impl._toplevel_prims reader_with_two_slots
  ∧ (Expected true ≠ Expected true →
     same_but_diagnostics reader_with_two_slots reader_with_subset).
Proof.
  assert (PrimConstruct_GeomSubset (H := sample_collaborators) subset_args
            reader_with_two_slots
          = Some (Expected true, reader_with_subset))
    as Hok by (vm_compute; reflexivity).
  split; [exact Hok|].
  exact (GeomSubset_never_top_level (H := sample_collaborators) _ _ _ _ Hok).
Defined.

Lemma GeomSubset_stores_subset_witness :
  PrimConstruct_GeomSubset (H := sample_collaborators) subset_args
    reader_with_two_slots
  = Some (Expected true, reader_with_subset)
  ∧ 0 ≤ PrimArgs.parentPrimIdx subset_args
  ∧ ∃ node subset,
      vector_at (Impl._prim_nodes reader_with_subset)
        (size_t_of_int64 (PrimArgs.primIdx subset_args)) = Some node
      ∧ PrimNode.prim node = Value_GeomSubset subset
      ∧ GeomSubsetData.name subset
        = Path.prim_part (PrimArgs.prim_name subset_args)
      ∧ GeomSubsetData.spec subset = PrimArgs.spec subset_args
      ∧ GeomSubsetData.meta subset
        = (ReconstructPrimMeta (H := sample_collaborators)
             (PrimArgs.in_meta subset_args) PrimMeta.default
             reader_with_two_slots).1.2
      ∧ PrimNode.parent node = PrimArgs.parentPrimIdx subset_args
      ∧ ∃ pnode,
          vector_at (Impl._prim_nodes reader_with_subset)
            (size_t_of_int64 (PrimArgs.parentPrimIdx subset_args))
          = Some pnode
          ∧ last (PrimNode.children pnode)
            = Some (size_t_of_int64 (PrimArgs.primIdx subset_args)).
Proof.
  assert (PrimConstruct_GeomSubset (H := sample_collaborators) subset_args
            reader_with_two_slots
          = Some (Expected true, reader_with_subset))
    as Hok by (vm_compute; reflexivity).
  split; [exact Hok|].
  exact (GeomSubset_stores_subset (H := sample_collaborators) _ _ _ Hok).
Defined.

Lemma PrimSpecFunction_rejects_bad_arguments_witness :
  (Path.is_valid (PrimArgs.prim_name nameless_args) = false
   ∨ Path.is_absolute_path (PrimArgs.prim_name nameless_args) = true
   ∨ Path.is_root_path (PrimArgs.prim_name nameless_args) = true
   ∨ Path.prop_part (PrimArgs.prim_name nameless_args) ≠ ""
   ∨ PrimArgs.primIdx nameless_args < 0
   ∨ Path.prim_part (PrimArgs.prim_name nameless_args) = "")
  ∧ ∃ msg, PrimSpecFunction nameless_args Impl.init
           = Some (Unexpected msg, Impl.init).
Proof.
  split.
  - do 5 right. reflexivity.
  - apply PrimSpecFunction_rejects_bad_arguments. do 5 right. reflexivity.
Defined.

Lemma PrimSpecFunction_stores_primspec_witness :
  PrimSpecFunction primspec_args Impl.init
  = Some (Expected true, reader_with_primspec)
  ∧ true = true
  ∧ vector_at (Impl._primspec_nodes reader_with_primspec)
      (PrimArgs.primIdx primspec_args)
    ≫= (λ node, Some (PrimSpecNode.primSpec node, PrimSpecNode.parent node))
    = Some
        (MkPrimSpec (Path.prim_part (PrimArgs.prim_name primspec_args))
           (PrimArgs.spec primspec_args) (PrimArgs.primTypeName primspec_args)
           [],
         PrimArgs.parentPrimIdx primspec_args)
  ∧ Impl._toplevel_primspecs reader_with_primspec
    = Impl._toplevel_primspecs Impl.init
        ++ (if decide (PrimArgs.parentPrimIdx primspec_args = -1)
            then [PrimArgs.primIdx primspec_args] else [])
  ∧ Impl._prim_nodes reader_with_primspec = Impl._prim_nodes Impl.init
  ∧ Impl._toplevel_prims reader_with_primspec
    = Impl._toplevel_prims Impl.init
  ∧ Impl._stage reader_with_primspec = Impl._stage Impl.init.
Proof.
  assert (PrimSpecFunction primspec_args Impl.init
          = Some (Expected true, reader_with_primspec))
    as Hok by (vm_compute; reflexivity).
  split; [exact Hok|].
  exact (PrimSpecFunction_stores_primspec _ _ _ _ Hok).
Defined.

Lemma StageMetaProcess_idempotent_witness :
  StageMetaProcess (H := sample_collaborators) sample_stage_metas Impl.init
  = (true, reader_with_metas)
  ∧ StageMetaProcess (H := sample_collaborators) sample_stage_metas
      reader_with_metas
    = (true, reader_with_metas).
Proof.
  assert (StageMetaProcess (H := sample_collaborators) sample_stage_metas
            Impl.init
          = (true, reader_with_metas)) as Hok by (vm_compute; reflexivity).
  split; [exact Hok|].
  exact (StageMetaProcess_idempotent (H := sample_collaborators) _ _ _ Hok).
Defined.

Lemma ReconstructStage_terminates_on_ordered_store_witness :
  store_is_ordered (Impl._prim_nodes splicing_reader)
  ∧ Forall (λ idx, 0 ≤ idx) (Impl._toplevel_prims splicing_reader)
  ∧ ∃ r,
      ∀ budget,
        (Z.to_nat (vector_size (Impl._prim_nodes splicing_reader)) < budget)%nat →
        ReconstructStage (H := sample_collaborators) budget splicing_reader
        = Returns r.
Proof.
  assert (store_is_ordered (Impl._prim_nodes splicing_reader)) as Hord.
  { intros i node Hat. apply vector_at_Some in Hat as [Hrange Hlk].
    assert (vector_size (Impl._prim_nodes splicing_reader) = 2) as Hsize
      by (vm_compute; reflexivity).
    assert (i = 0 ∨ i = 1) as [-> | ->] by lia;
      vm_compute in Hlk; injection Hlk as <-; simpl;
      split; repeat constructor. }
  assert (Forall (λ idx, 0 ≤ idx) (Impl._toplevel_prims splicing_reader))
    as Htop.
  { apply (bool_decide_unpack _). vm_compute. exact I. }
  repeat (split; [assumption|]).
  exact (ReconstructStage_terminates_on_ordered_store
           (H := sample_collaborators) _ Hord Htop).
Defined.

Lemma ReconstructStage_rebuilds_roots_witness :
  ReconstructStage (H := sample_collaborators) 3 splicing_reader
  = Returns (true, splicing_stage_reader)
  ∧ ∃ built,
      Forall2 (built_by (construct 3 (Impl._prim_nodes splicing_reader)))
        (Impl._toplevel_prims splicing_reader) built
      ∧ splicing_stage_reader
        = Impl.set_stage
            (compute_absolute_prim_path_and_assign_prim_id
               (Collaborators := sample_collaborators)
               (Stage.set_root_prims built (Impl._stage splicing_reader)))
            splicing_reader.
Proof.
  assert (ReconstructStage (H := sample_collaborators) 3 splicing_reader
          = Returns (true, splicing_stage_reader))
    as Hok by (vm_compute; reflexivity).
  split; [exact Hok|].
  exact (ReconstructStage_rebuilds_roots (H := sample_collaborators) _ _ _
           Hok).
Defined.

Lemma ReconstructStage_repeatable_witness :
  ReconstructStage (H := sample_collaborators) 3 splicing_reader
  = Returns (true, splicing_stage_reader)
  ∧ (∃ stage e,
       splicing_stage_reader
       = Impl.set_err e (Impl.set_stage stage splicing_reader))
  ∧ ∃ st'',
      ReconstructStage (H := sample_collaborators) 3 splicing_stage_reader
      = Returns (true, st'').
Proof.
  assert (ReconstructStage (H := sample_collaborators) 3 splicing_reader
          = Returns (true, splicing_stage_reader))
    as Hok by (vm_compute; reflexivity).
  split; [exact Hok|].
  exact (ReconstructStage_repeatable (H := sample_collaborators) _ _ _ _ Hok).
Defined.

Lemma ConstructPrimTreeRec_reads_inside_store_witness :
  vector_at splicing_nodes 0 = Some splicing_root_node
  ∧ node_maps_ok splicing_root_node
  ∧ ConstructPrimTreeRec 2 0 splicing_nodes (Some dummy_Prim)
    = Returns (inr splicing_root_prim)
  ∧ 0 ≤ 0 < vector_size splicing_nodes
  ∧ Forall (λ i, 0 ≤ i < vector_size splicing_nodes)
      (variant_children_of (PrimNode.variantNodeMap splicing_root_node))
  ∧ Forall (λ i, 0 ≤ i < vector_size splicing_nodes)
      (ordinary_children_of splicing_root_node).
Proof.
  assert (vector_at splicing_nodes 0 = Some splicing_root_node) as Hnode
    by (vm_compute; reflexivity).
  assert (node_maps_ok splicing_root_node) as Hok.
  { split; [vm_compute; reflexivity|]. vm_compute. repeat constructor. }
  assert (ConstructPrimTreeRec 2 0 splicing_nodes (Some dummy_Prim)
          = Returns (inr splicing_root_prim)) as Hres
    by (vm_compute; reflexivity).
  repeat (split; [assumption|]).
  exact (ConstructPrimTreeRec_reads_inside_store splicing_nodes 2 0 _ _ Hnode
           Hok Hres).
Defined.

Lemma ConstructPrimTreeRec_copies_node_witness :
  vector_at splicing_nodes 0 = Some splicing_root_node
  ∧ node_maps_ok splicing_root_node
  ∧ ConstructPrimTreeRec 2 0 splicing_nodes (Some dummy_Prim)
    = Returns (inr splicing_root_prim)
  ∧ PrimOps.data splicing_root_prim = PrimNode.prim splicing_root_node
  ∧ PrimOps.prim_type_name splicing_root_prim
    = PrimNode.typeName splicing_root_node
  ∧ (PrimOps.variantSets splicing_root_prim).*1
    = (PrimNode.variantNodeMap splicing_root_node).*1
  ∧ (∀ vs variants v vn,
       StdMap.find vs (PrimNode.variantNodeMap splicing_root_node)
       = Some variants →
       StdMap.find v variants = Some vn →
       ∃ vset variant,
         StdMap.find vs (PrimOps.variantSets splicing_root_prim) = Some vset
         ∧ StdMap.find v (VariantSetOps.variantSet vset) = Some variant
         ∧ VariantOps.metas variant = VariantNode.metas vn
         ∧ VariantOps.properties variant = VariantNode.props vn
         ∧ length (VariantOps.primChildren variant)
           = length (VariantNode.primChildren vn))
  ∧ length (PrimOps.children splicing_root_prim)
    = length (ordinary_children_of splicing_root_node).
Proof.
  assert (vector_at splicing_nodes 0 = Some splicing_root_node) as Hnode
    by (vm_compute; reflexivity).
  assert (node_maps_ok splicing_root_node) as Hok.
  { split; [vm_compute; reflexivity|]. vm_compute. repeat constructor. }
  assert (ConstructPrimTreeRec 2 0 splicing_nodes (Some dummy_Prim)
          = Returns (inr splicing_root_prim)) as Hres
    by (vm_compute; reflexivity).
  repeat (split; [assumption|]).
  exact (ConstructPrimTreeRec_copies_node splicing_nodes 2 0 _ _ Hnode Hok
           Hres).
Defined.

Lemma c_tinyusd_value_type_array_bit_witness :
  C_TINYUSD_VALUE_1D_BIT (CTinyUSDHeader := sample_header) ≠ 0
  ∧ c_tinyusd_value_type_components (H := sample_header)
      (Z.lor (sample_value_type_code C_TINYUSD_VALUE_FLOAT3)
         (C_TINYUSD_VALUE_1D_BIT (CTinyUSDHeader := sample_header)))
    = c_tinyusd_value_type_components (H := sample_header)
        (sample_value_type_code C_TINYUSD_VALUE_FLOAT3)
  ∧ c_tinyusd_value_type_sizeof (H := sample_header)
      (Z.lor (sample_value_type_code C_TINYUSD_VALUE_FLOAT3)
         (C_TINYUSD_VALUE_1D_BIT (CTinyUSDHeader := sample_header)))
    = c_tinyusd_value_type_sizeof (H := sample_header)
        (sample_value_type_code C_TINYUSD_VALUE_FLOAT3)
  ∧ c_tinyusd_value_type_name (H := sample_header)
      (Z.lor (sample_value_type_code C_TINYUSD_VALUE_FLOAT3)
         (C_TINYUSD_VALUE_1D_BIT (CTinyUSDHeader := sample_header)))
    = c_tinyusd_value_type_name (H := sample_header)
        (drop_array_bit (H := sample_header)
           (sample_value_type_code C_TINYUSD_VALUE_FLOAT3))
      +:+ "[]".
Proof.
  assert (C_TINYUSD_VALUE_1D_BIT (CTinyUSDHeader := sample_header) ≠ 0)
    as Hbit by (vm_compute; discriminate).
  split; [exact Hbit|].
  exact (c_tinyusd_value_type_array_bit (H := sample_header)
           (sample_value_type_code C_TINYUSD_VALUE_FLOAT3) Hbit).
Defined.

Lemma c_tinyusd_prim_type_name_round_trip_witness :
  NoDup ("Model" :: prim_type_constants (H := sample_header))
  ∧ Forall (λ k, strlen k = String.length k ∧ (String.length k ≤ 31)%nat)
      (prim_type_constants (H := sample_header))
  ∧ C_TINYUSD_PRIM_MESH ∈ named_prim_types
  ∧ c_tinyusd_prim_type_from_string (H := sample_header)
      <$> c_tinyusd_prim_type_name (H := sample_header) C_TINYUSD_PRIM_MESH
    = Some C_TINYUSD_PRIM_MESH.
Proof.
  assert (NoDup ("Model" :: prim_type_constants (H := sample_header)))
    as Hnodup.
  { apply (bool_decide_unpack _). vm_compute. exact I. }
  assert (Forall
            (λ k, strlen k = String.length k ∧ (String.length k ≤ 31)%nat)
            (prim_type_constants (H := sample_header))) as Hlen.
  { repeat constructor. }
  assert (C_TINYUSD_PRIM_MESH ∈ named_prim_types) as Hin.
  { apply elem_of_cons. right. apply elem_of_cons. by left. }
  repeat (split; [assumption|]).
  exact (c_tinyusd_prim_type_name_round_trip (H := sample_header) _ Hnodup
           Hlen Hin).
Defined.
